(** * nexuflex client: history, aliases, completion and session

    A shallow embedding of the client-side core of nexuflex
    (core/aliases.go, core/commands.go, ui/autocomplete.go and
    core/client.go) together with the properties of its specification.

    Go strings are byte sequences; they are modelled as [string], whose
    characters are the 256 byte values.  Go [int]s are modelled as [Z]
    (no arithmetic in this code comes near the 64-bit bounds).  Go maps are
    stdpp [gmap]s; where the code ranges over a map, the iteration order
    (which Go leaves unspecified) is an explicit argument. *)

From Stdlib Require Import ZArith Ascii Lia.
From Stdlib Require String.
From stdpp Require Import gmap strings list fin_maps.

Local Open Scope Z_scope.

(** ** Go's [strings] package, as far as the client uses it *)

Module GoStrings.

(** The ASCII members of [unicode.IsSpace]: tab, LF, VT, FF, CR, space. *)
Definition space1 (a : ascii) : bool :=
  match N_of_ascii a with
  | 9%N | 10%N | 11%N | 12%N | 13%N | 32%N => true
  | _ => false
  end.

(** The two-byte UTF-8 encodings of white space: U+0085 (C2 85) and
    U+00A0 (C2 A0). *)
Definition space2 (a b : ascii) : bool :=
  match N_of_ascii a, N_of_ascii b with
  | 194%N, 133%N | 194%N, 160%N => true
  | _, _ => false
  end.

(** The three-byte UTF-8 encodings of white space: U+1680 (E1 9A 80),
    U+2000..U+200A (E2 80 80 .. E2 80 8A), U+2028, U+2029 (E2 80 A8/A9),
    U+202F (E2 80 AF), U+205F (E2 81 9F) and U+3000 (E3 80 80). *)
Definition space3 (a b c : ascii) : bool :=
  match N_of_ascii a, N_of_ascii b, N_of_ascii c with
  | 225%N, 154%N, 128%N => true
  | 226%N, 128%N, n => (N.leb 128 n && N.leb n 138) || N.eqb n 168
                       || N.eqb n 169 || N.eqb n 175
  | 226%N, 129%N, 159%N => true
  | 227%N, 128%N, 128%N => true
  | _, _, _ => false
  end.

Section Strip.
(** [strip] removes from the front of a byte list every leading group
    of one, two or three bytes recognised by [p1], [p2], [p3]. *)
Variable p1 : ascii → bool.
Variable p2 : ascii → ascii → bool.
Variable p3 : ascii → ascii → ascii → bool.

Definition lead (l : list ascii) : bool :=
  match l with
  | a :: l1 =>
      p1 a ||
      match l1 with
      | b :: l2 =>
          p2 a b || match l2 with c :: _ => p3 a b c | [] => false end
      | [] => false
      end
  | [] => false
  end.

Fixpoint strip (l : list ascii) : list ascii :=
  match l with
  | a :: l1 =>
      if p1 a then strip l1 else
      match l1 with
      | b :: l2 =>
          if p2 a b then strip l2 else
          match l2 with
          | c :: l3 => if p3 a b c then strip l3 else l
          | [] => l
          end
      | [] => l
      end
  | [] => []
  end.
End Strip.

(** [strings.TrimLeftFunc(s, unicode.IsSpace)]: runes are decoded from the
    front; a rune is white space exactly when the bytes at that position
    are the (shortest-form) encoding of a white-space code point, and an
    invalid byte decodes to U+FFFD, which is not white space. *)
Definition trimLeft : list ascii → list ascii := strip space1 space2 space3.

(** [strings.TrimRightFunc(s, unicode.IsSpace)]: runes are decoded from
    the back; the last rune is white space exactly when the string ends
    with the encoding of a white-space code point. *)
Definition trimRight (l : list ascii) : list ascii :=
  rev (strip space1 (λ b a, space2 a b) (λ c b a, space3 a b c) (rev l)).

(** [strings.TrimSpace]: its ASCII fast path and its fall-back to
    [TrimFunc] compute the same string, the one below. *)
Definition TrimSpace (s : string) : string :=
  String.string_of_list_ascii
    (trimRight (trimLeft (String.list_ascii_of_string s))).

(** [strings.Cut(s, sep)] for a one-byte separator: the text before and
    after the first occurrence of [sep], if there is one. *)
Fixpoint Cut (sep : ascii) (s : string) : option (string * string) :=
  match s with
  | EmptyString => None
  | String c r =>
      if decide (c = sep) then Some (EmptyString, r)
      else match Cut sep r with
           | Some (before, after) => Some (String c before, after)
           | None => None
           end
  end.

(** [strings.SplitN(s, sep, 2)] for a one-byte separator: one element when
    [sep] does not occur in [s] (also for the empty [s]), otherwise the
    text before and the text after its first occurrence. *)
Definition SplitN2 (s : string) (sep : ascii) : list string :=
  match Cut sep s with
  | Some (before, after) => [before; after]
  | None => [s]
  end.

(** [strings.Contains(s, sep)] for a one-byte [sep]. *)
Fixpoint Contains (s : string) (sep : ascii) : bool :=
  match s with
  | EmptyString => false
  | String c r => if decide (c = sep) then true else Contains r sep
  end.

(** [strings.HasPrefix(s, prefix)]. *)
Definition HasPrefix (s pre : string) : bool := String.prefix pre s.

(** [strings.ToLower] on the bytes 'A'..'Z'.  Go's function also maps
    non-ASCII letters; this model agrees with it on ASCII strings and is
    only ever evaluated on such. *)
Definition lower_byte (a : ascii) : ascii :=
  let n := N_of_ascii a in
  if (N.leb 65 n && N.leb n 90)%bool then ascii_of_N (n + 32) else a.

Fixpoint ToLower (s : string) : string :=
  match s with
  | EmptyString => EmptyString
  | String c r => String (lower_byte c) (ToLower r)
  end.

End GoStrings.
Export GoStrings.

(** ** core/aliases.go *)

(** The errors of [AliasManager], by their message:
    "maximum number of aliases (%d) reached",
    "alias cannot contain spaces or periods",
    "an alias with the name '%s' already exists",
    "no alias with the name '%s' found". *)
Inductive AliasError : Type :=
  | ErrMaxAliases (maxCount : Z)
  | ErrInvalidAlias
  | ErrAliasExists (alias : string)
  | ErrAliasNotFound (alias : string)
  | ErrIO (msg : string).

Record AliasManager : Type := mkAliasManager {
  aliases : gmap string string;
  maxCount : Z
}.

Definition NewAliasManager (maxCount : Z) : AliasManager :=
  {| aliases := ∅; maxCount := maxCount |}.

(** [len(am.aliases)] *)
Definition alias_count (am : AliasManager) : Z := Z.of_nat (size (aliases am)).

Definition AddAlias (am : AliasManager) (alias command : string)
  : option AliasError * AliasManager :=
  if alias_count am >=? maxCount am then (Some (ErrMaxAliases (maxCount am)), am)
  else if Contains alias " " || Contains alias "." then (Some ErrInvalidAlias, am)
  else match aliases am !! alias with
       | Some _ => (Some (ErrAliasExists alias), am)
       | None =>
           (None, {| aliases := <[alias := command]> (aliases am);
                     maxCount := maxCount am |})
       end.

Definition RemoveAlias (am : AliasManager) (alias : string)
  : option AliasError * AliasManager :=
  match aliases am !! alias with
  | None => (Some (ErrAliasNotFound alias), am)
  | Some _ =>
      (None, {| aliases := delete alias (aliases am); maxCount := maxCount am |})
  end.

Definition GetAlias (am : AliasManager) (alias : string) : string * bool :=
  match aliases am !! alias with
  | Some command => (command, true)
  | None => ("", false)
  end.

Definition ExpandCommand (am : AliasManager) (command : string) : string :=
  let command := TrimSpace command in
  let parts := SplitN2 command " " in
  let firstWord := default "" (parts !! 0%nat) in
  match aliases am !! firstWord with
  | Some expandedCommand =>
      match parts !! 1%nat with
      | Some rest => expandedCommand +:+ " " +:+ rest
      | None => expandedCommand
      end
  | None => command
  end.

(** The table of [IsReservedKeyword]. *)
Definition reservedKeywords : list string :=
  ["help"; "login"; "logout"; "alias"; "unalias"; "exit"; "quit"; "clear";
   "history"; "use"; "connect"; "disconnect"; "status"].

Definition IsReservedKeyword (word : string) : bool :=
  bool_decide (ToLower word ∈ reservedKeywords).

(** What [LoadAliases] (and [CommandHistory.Load]) finds on disk.
    [Contents bytes] are the bytes handed over by the successive [f.Read]
    calls up to the first one that fails (with [io.EOF] or otherwise): the
    loop breaks there and the text read so far is still processed. *)
Inductive ConfigFile : Type :=
  | NoUserConfigDir (err : string)
  | NotExist
  | OpenError (err : string)
  | Contents (bytes : string).

(** [string(b)] for a byte [b]: Go converts the integer to the UTF-8
    encoding of the code point [b], one byte below 0x80 and two from there
    on. *)
Definition string_of_byte (b : ascii) : string :=
  let n := N_of_ascii b in
  if N.ltb n 128 then String b ""
  else String (ascii_of_N (192 + N.shiftr n 6))
         (String (ascii_of_N (128 + N.land n 63)) "").

(** The body shared by the two places of [LoadAliases] that process a
    complete line. *)
Definition store_line (maxCount : Z) (line : string) (m : gmap string string)
  : gmap string string :=
  if decide (line = "") then m
  else match SplitN2 line "=" with
       | [name; command] =>
           if (0 <? Z.of_nat (String.length name))
           then if Z.of_nat (size m) <? maxCount
                then <[name := command]> m
                else m
           else m
       | _ => m
       end.

(** The loop over the bytes read: [line] and the table are the loop state. *)
Fixpoint scan_aliases (maxCount : Z) (buffer : string) (line : string)
  (m : gmap string string) : string * gmap string string :=
  match buffer with
  | EmptyString => (line, m)
  | String b rest =>
      if decide (b = "010"%char)
      then scan_aliases maxCount rest "" (store_line maxCount line m)
      else if decide (b ≠ "013"%char)
           then scan_aliases maxCount rest (line +:+ string_of_byte b) m
           else scan_aliases maxCount rest line m
  end.

Definition LoadAliases (am : AliasManager) (f : ConfigFile)
  : option AliasError * AliasManager :=
  match f with
  | NoUserConfigDir err => (Some (ErrIO err), am)
  | NotExist => (None, am)
  | OpenError err => (Some (ErrIO err), am)
  | Contents bytes =>
      let '(line, m) := scan_aliases (maxCount am) bytes "" ∅ in
      (None, {| aliases := store_line (maxCount am) line m;
                maxCount := maxCount am |})
  end.

(** Sequences of operations on an alias table. *)
Inductive AliasOp : Type :=
  | OpAdd (alias command : string)
  | OpRemove (alias : string)
  | OpLoad (f : ConfigFile).

Definition alias_step (am : AliasManager) (op : AliasOp) : AliasManager :=
  match op with
  | OpAdd alias command => (AddAlias am alias command).2
  | OpRemove alias => (RemoveAlias am alias).2
  | OpLoad f => (LoadAliases am f).2
  end.

Definition alias_run (am : AliasManager) (ops : list AliasOp) : AliasManager :=
  foldl alias_step am ops.

Definition is_load (op : AliasOp) : bool :=
  match op with OpLoad _ => true | _ => false end.

(** ** core/commands.go *)

Module Commands.

Record CommandHistory : Type := mkHistory {
  entries : list string;
  maxEntries : Z;
  currentIndex : Z;
  savePath : string
}.

(** [len(h.entries)] *)
Definition len (h : CommandHistory) : Z := Z.of_nat (length (entries h)).

(** [make([]string, 0, maxEntries)] panics for a negative capacity, so
    no history exists then: [None].  It also fails for a capacity beyond
    what the runtime can allocate, a bound that depends on the platform;
    the model leaves that bound out and so has more histories than the
    program can make, none fewer. *)
Definition NewCommandHistory (maxEntries : Z) : option CommandHistory :=
  if maxEntries <? 0 then None
  else Some {| entries := []; maxEntries := maxEntries;
               currentIndex := -1; savePath := "" |}.

(** Every history is made by [NewCommandHistory], so [maxEntries] is never
    negative where the slice expression below is evaluated. *)
Definition Add (h : CommandHistory) (command : string) : CommandHistory :=
  let command := TrimSpace command in
  if decide (command = "") then h
  else if (0 <? len h) && bool_decide (last (entries h) = Some command) then h
  else
    let appended := entries h ++ [command] in
    let n := Z.of_nat (length appended) in
    let kept := if n >? maxEntries h
                then drop (Z.to_nat (n - maxEntries h)) appended
                else appended in
    {| entries := kept; maxEntries := maxEntries h;
       currentIndex := Z.of_nat (length kept); savePath := savePath h |}.

Definition set_index (h : CommandHistory) (i : Z) : CommandHistory :=
  {| entries := entries h; maxEntries := maxEntries h;
     currentIndex := i; savePath := savePath h |}.

(** [h.entries[i]]: [None] stands for the index-out-of-range panic. *)
Definition at_index (h : CommandHistory) (i : Z) : option string :=
  if i <? 0 then None else entries h !! Z.to_nat i.

Definition Previous (h : CommandHistory)
  : option (string * bool * CommandHistory) :=
  if (len h =? 0) || (currentIndex h <=? 0) then Some ("", false, h)
  else
    let h' := set_index h (currentIndex h - 1) in
    s ← at_index h' (currentIndex h');
    Some (s, true, h').

Definition Next (h : CommandHistory)
  : option (string * bool * CommandHistory) :=
  if (len h =? 0) || (currentIndex h >=? len h) then Some ("", false, h)
  else
    let h' := set_index h (currentIndex h + 1) in
    if currentIndex h' =? len h' then Some ("", true, set_index h' (len h'))
    else s ← at_index h' (currentIndex h'); Some (s, true, h').

Definition ResetNavigation (h : CommandHistory) : CommandHistory :=
  set_index h (len h).

(** [k] successive calls of a navigation method; the results are
    collected in call order. *)
Fixpoint navigate (step : CommandHistory → option (string * bool * CommandHistory))
  (k : nat) (h : CommandHistory)
  : option (list (string * bool) * CommandHistory) :=
  match k with
  | O => Some ([], h)
  | S k' =>
      '(s, ok, h1) ← step h;
      '(rs, h2) ← navigate step k' h1;
      Some ((s, ok) :: rs, h2)
  end.

(** No two neighbours in the list are equal. *)
Definition no_adjacent_dup (l : list string) : Prop :=
  ∀ (i : nat) x y, l !! i = Some x → l !! S i = Some y → x ≠ y.

(** [CommandProcessor] *)
Record CommandProcessor : Type := mkProcessor {
  localAliases : gmap string string
}.

Definition NewCommandProcessor : CommandProcessor :=
  {| localAliases := ∅ |}.

Definition AddLocalAlias (p : CommandProcessor) (alias command : string)
  : CommandProcessor :=
  {| localAliases := <[alias := command]> (localAliases p) |}.

Definition RemoveLocalAlias (p : CommandProcessor) (alias : string)
  : CommandProcessor :=
  {| localAliases := delete alias (localAliases p) |}.

Definition ProcessCommand (p : CommandProcessor) (command : string)
  (useLocalAliases : bool) : string :=
  let command := TrimSpace command in
  if useLocalAliases then
    let parts := SplitN2 command " " in
    let firstWord := default "" (parts !! 0%nat) in
    match localAliases p !! firstWord with
    | Some expandedCommand =>
        if (1 <? Z.of_nat (length parts))
        then expandedCommand +:+ " " +:+ default "" (parts !! 1%nat)
        else expandedCommand
    | None => command
    end
  else command.

End Commands.
Export Commands.

(** ** ui/autocomplete.go *)

Module Completion.

(** What the fallback handler returns: suggestions, common prefix, error. *)
Definition Fallback : Type := string → list string * string * option string.

Record AutoCompleter : Type := mkAutoCompleter {
  localCommands : gmap string bool;
  fallbackHandler : option Fallback;
  cachedSuggestions : gmap string (list string)
}.

(** The commands registered by [NewAutoCompleter]. *)
Definition standardCommands : list string :=
  ["help"; "?"; "exit"; "quit"; "clear"; "cls"; "connect"; "disconnect";
   "login"; "logout"; "alias"; "unalias"; "history"; "use"].

Definition NewAutoCompleter (fallbackHandler : option Fallback) : AutoCompleter :=
  {| localCommands := list_to_map ((λ c, (c, true)) <$> standardCommands);
     fallbackHandler := fallbackHandler;
     cachedSuggestions := ∅ |}.

Definition AddLocalCommand (ac : AutoCompleter) (command : string) : AutoCompleter :=
  {| localCommands := <[command := true]> (localCommands ac);
     fallbackHandler := fallbackHandler ac;
     cachedSuggestions := cachedSuggestions ac |}.

Definition RemoveLocalCommand (ac : AutoCompleter) (command : string) : AutoCompleter :=
  {| localCommands := delete command (localCommands ac);
     fallbackHandler := fallbackHandler ac;
     cachedSuggestions := cachedSuggestions ac |}.

Definition InvalidateCache (ac : AutoCompleter) : AutoCompleter :=
  {| localCommands := localCommands ac;
     fallbackHandler := fallbackHandler ac;
     cachedSuggestions := ∅ |}.

(** A [range] over [ac.localCommands] visits every key once, in an order
    Go does not specify: any duplicate-free list of exactly the keys. *)
Definition range_order (ac : AutoCompleter) (order : list string) : Prop :=
  NoDup order ∧ ∀ cmd, cmd ∈ order ↔ is_Some (localCommands ac !! cmd).

(** The inner loop of [findCommonPrefix]: [prefix[:j]] for the first [j]
    at which [prefix] and [s] end or differ. *)
Fixpoint common (prefix s : string) : string :=
  match prefix, s with
  | String a prefix', String b s' =>
      if decide (a = b) then String a (common prefix' s') else ""
  | _, _ => ""
  end.

Definition findCommonPrefix (strings : list string) : string :=
  match strings with
  | [] => ""
  | [s] => s
  | s :: rest => foldl common s rest
  end.

(** [Complete] returns the suggestions and the common prefix; the model
    also returns the completer (its cache may have grown) and the texts
    with which the fallback handler was called.  [order] is the order in
    which this call ranges over the local commands. *)
Definition Complete (ac : AutoCompleter) (order : list string) (text : string)
  : list string * string * AutoCompleter * list string :=
  let text := TrimSpace text in
  if decide (text = "") then
    match fallbackHandler ac with
    | Some handler =>
        let '(serverSuggestions, _, _) := handler text in
        (order ++ serverSuggestions, "", ac, [text])
    | None => (order, "", ac, [])
    end
  else
    let server :=
      match fallbackHandler ac with
      | Some handler =>
          match cachedSuggestions ac !! text with
          | Some suggestions =>
              (suggestions, findCommonPrefix suggestions, ac, [])
          | None =>
              let '(suggestions, commonPrefix, err) := handler text in
              match err with
              | None =>
                  if 0 <? Z.of_nat (length suggestions)
                  then (suggestions, commonPrefix,
                        {| localCommands := localCommands ac;
                           fallbackHandler := fallbackHandler ac;
                           cachedSuggestions :=
                             <[text := suggestions]> (cachedSuggestions ac) |},
                        [text])
                  else ([], "", ac, [text])
              | Some _ => ([], "", ac, [text])
              end
          end
      | None => ([], "", ac, [])
      end in
    if negb (Contains text ".") then
      let localSuggestions := filter (λ cmd, HasPrefix cmd text = true) order in
      if 0 <? Z.of_nat (length localSuggestions)
      then (localSuggestions, findCommonPrefix localSuggestions, ac, [])
      else server
    else server.

(** [p] is a prefix of [s]. *)
Definition is_prefix (p s : string) : Prop := ∃ rest, s = p +:+ rest.

(** [p] is the longest string that is a prefix of every member of [l]. *)
Definition longest_common_prefix (l : list string) (p : string) : Prop :=
  (∀ s, s ∈ l → is_prefix p s) ∧
  (∀ q, (∀ s, s ∈ l → is_prefix q s) → is_prefix q p).

End Completion.
Export Completion.

(** ** core/client.go *)

Module Session.

Inductive ConnectionStatus : Type :=
  OFFLINE | CONNECTING | CONNECTED | CONNECTION_ERROR.

Inductive SessionStatus : Type :=
  | NOT_LOGGED_IN | AUTHENTICATED | LOGIN_REQUIRED
  | SESSION_EXPIRING | SESSION_EXPIRED.

Record StatusInfo : Type := mkStatusInfo {
  connection_status : ConnectionStatus;
  session_status : SessionStatus;
  server_name : string;
  username : string
}.

Record ServerInfo : Type := mkServerInfo {
  Hostname : string;
  Address : string;
  Port : Z;
  ShortName : string;
  Description : string;
  TlsEnabled : bool;
  Version : string
}.

Record ConnectResponse : Type := mkConnectResponse {
  connect_success : bool;
  connect_server_name : string;
  connect_version : string;
  connect_error_message : string
}.

Record UserInfo : Type := mkUserInfo { DisplayName : string }.

(** [UserInfo] is a message field, a pointer that may be nil. *)
Record LoginResponse : Type := mkLoginResponse {
  login_success : bool;
  SessionToken : string;
  login_error_message : string;
  login_user_info : option UserInfo
}.

Record LogoutResponse : Type := mkLogoutResponse {
  logout_success : bool;
  logout_error_message : string
}.

Record CommandResponse : Type := mkCommandResponse {
  command_success : bool;
  command_error_message : string;
  Output : string;
  command_status_info : option StatusInfo;
  NewContext : string
}.

(** The values of [CommandOutput.Type]; proto3 enums are open, so a
    number outside the four names can arrive too. *)
Inductive OutputType : Type :=
  | TEXT | STATUS_UPDATE | ERROR | COMPLETION | UNRECOGNIZED (n : Z).

Record CommandOutput : Type := mkCommandOutput {
  output_type : OutputType;
  Content : string;
  ProgressPercent : Z
}.

(** What a unary call returns: a transport error or a response. *)
Inductive Rpc (A : Type) : Type :=
  | Failed (err : string)
  | Replied (resp : A).
Arguments Failed {A} err.
Arguments Replied {A} resp.

(** What the successive [stream.Recv()] calls return: messages, ended by
    [io.EOF] or by a transport error. *)
Inductive Stream : Type :=
  | EndOfStream
  | Broken (err : string)
  | Message (output : CommandOutput) (rest : Stream).

(** An argument of a logger call. *)
Inductive Arg : Type := AString (s : string) | AInt (n : Z) | ABool (b : bool).

(** What a method does to the outside: logger calls and callback calls,
    in the order they are made. *)
Inductive Event : Type :=
  | Logged (format : string) (args : list Arg)
  | StatusChanged (info : option StatusInfo)
  | OutputReceived (output : string).

(** A method returns its error (if any) or panics on a nil dereference. *)
Inductive Outcome : Type :=
  | Returned (err : option string)
  | Panicked.

(** The connection handle: the address and port dialled. *)
Definition Conn : Type := string * Z.

(** [config] and [logger] never change and are left out; for each
    callback the model records whether it is set. *)
Record Client : Type := mkClient {
  conn : option Conn;
  client : option Conn;
  sessionToken : string;
  serverInfo : option ServerInfo;
  lastServiceUsed : string;
  onStatusChanged : bool;
  onServerList : bool;
  onOutputReceived : bool
}.

Definition NewClient : Client :=
  {| conn := None; client := None; sessionToken := ""; serverInfo := None;
     lastServiceUsed := "";
     onStatusChanged := false; onServerList := false;
     onOutputReceived := false |}.

Definition SetCallbacks (c : Client) (status servers output : bool) : Client :=
  {| conn := conn c; client := client c; sessionToken := sessionToken c;
     serverInfo := serverInfo c; lastServiceUsed := lastServiceUsed c;
     onStatusChanged := status; onServerList := servers;
     onOutputReceived := output |}.

(** Assignment to the four fields of the connection and the session. *)
Definition with_session (c : Client) (cn cl : option Conn) (token : string)
  (info : option ServerInfo) : Client :=
  {| conn := cn; client := cl; sessionToken := token; serverInfo := info;
     lastServiceUsed := lastServiceUsed c;
     onStatusChanged := onStatusChanged c; onServerList := onServerList c;
     onOutputReceived := onOutputReceived c |}.

Definition with_token (c : Client) (token : string) : Client :=
  with_session c (conn c) (client c) token (serverInfo c).

Definition SetLastServiceUsed (c : Client) (service : string) : Client :=
  {| conn := conn c; client := client c; sessionToken := sessionToken c;
     serverInfo := serverInfo c; lastServiceUsed := service;
     onStatusChanged := onStatusChanged c; onServerList := onServerList c;
     onOutputReceived := onOutputReceived c |}.

(** [if c.onStatusChanged != nil { c.onStatusChanged(info) }] *)
Definition notify (c : Client) (info : option StatusInfo) : list Event :=
  if onStatusChanged c then [StatusChanged info] else [].

(** [if c.onOutputReceived != nil { c.onOutputReceived(output) }] *)
Definition emit (c : Client) (output : string) : list Event :=
  if onOutputReceived c then [OutputReceived output] else [].

Definition status (cs : ConnectionStatus) (ss : SessionStatus)
  (server user : string) : option StatusInfo :=
  Some {| connection_status := cs; session_status := ss;
          server_name := server; username := user |}.

(** [int32(port)] *)
Definition int32 (n : Z) : Z := (n + 2 ^ 31) mod 2 ^ 32 - 2 ^ 31.

Definition Close (c : Client) (closeErr : option string)
  : list Event * Outcome * Client :=
  match conn c with
  | Some _ => ([], Returned closeErr, with_session c None None "" None)
  | None => ([], Returned None, c)
  end.

Definition Connect (c : Client) (address : string) (port : Z) (useTLS : bool)
  (dialErr : option string) (reply : Rpc ConnectResponse)
  : list Event * Outcome * Client :=
  let log0 := Logged "Connecting to %s:%d (TLS: %v)..."
                [AString address; AInt port; ABool useTLS] in
  let c1 := match conn c with
            | Some _ => with_session c None None "" None
            | None => c
            end in
  let failed := status CONNECTION_ERROR NOT_LOGGED_IN "" "" in
  match dialErr with
  | Some err =>
      ([log0; Logged "Connection error: %v" [AString err]] ++ notify c1 failed,
       Returned (Some ("failed to connect to server: " +:+ err)), c1)
  | None =>
      let c2 := with_session c1 (Some (address, port)) (Some (address, port))
                  (sessionToken c1) (serverInfo c1) in
      let c3 := with_session c2 None None (sessionToken c2) (serverInfo c2) in
      match reply with
      | Failed err =>
          ([log0; Logged "Connect request failed: %v" [AString err]]
             ++ notify c3 failed,
           Returned (Some ("connect request failed: " +:+ err)), c3)
      | Replied resp =>
          if negb (connect_success resp) then
            ([log0; Logged "Connect failed: %s"
                      [AString (connect_error_message resp)]]
               ++ notify c3 failed,
             Returned (Some ("connect failed: " +:+ connect_error_message resp)),
             c3)
          else
            let info := {| Hostname := ""; Address := address;
                           Port := int32 port;
                           ShortName := connect_server_name resp;
                           Description := ""; TlsEnabled := useTLS;
                           Version := connect_version resp |} in
            let c4 := with_session c2 (conn c2) (client c2) (sessionToken c2)
                        (Some info) in
            ([log0; Logged "Connected to server %s (Version %s)"
                      [AString (connect_server_name resp);
                       AString (connect_version resp)]]
               ++ notify c4 (status CONNECTED NOT_LOGGED_IN
                               (connect_server_name resp) ""),
             Returned None, c4)
      end
  end.

Definition Login (c : Client) (user password : string)
  (reply : Rpc LoginResponse) : list Event * Outcome * Client :=
  match client c with
  | None => ([], Returned (Some "not connected to server"), c)
  | Some _ =>
      let log0 := Logged "Login for user %s..." [AString user] in
      match reply with
      | Failed err =>
          ([log0; Logged "Login request failed: %v" [AString err]],
           Returned (Some ("login request failed: " +:+ err)), c)
      | Replied resp =>
          if negb (login_success resp) then
            ([log0; Logged "Login failed: %s"
                      [AString (login_error_message resp)]],
             Returned (Some ("login failed: " +:+ login_error_message resp)), c)
          else
            let c1 := with_token c (SessionToken resp) in
            match login_user_info resp with
            | None => ([log0], Panicked, c1)
            | Some ui =>
                let log1 := Logged "Login successful for %s"
                              [AString (DisplayName ui)] in
                let welcome := emit c1 ("Welcome, " +:+ DisplayName ui +:+
                                        "! You are now logged in.") in
                if onStatusChanged c1 then
                  match serverInfo c1 with
                  | None => ([log0; log1], Panicked, c1)
                  | Some si =>
                      ([log0; log1;
                        StatusChanged (status CONNECTED AUTHENTICATED
                                         (ShortName si) user)] ++ welcome,
                       Returned None, c1)
                  end
                else ([log0; log1] ++ welcome, Returned None, c1)
            end
      end
  end.

Definition Logout (c : Client) (reply : Rpc LogoutResponse)
  : list Event * Outcome * Client :=
  match client c with
  | None => ([], Returned (Some "not connected to server"), c)
  | Some _ =>
      if decide (sessionToken c = "") then
        ([], Returned (Some "not logged in"), c)
      else
        let log0 := Logged "Logout..." [] in
        match reply with
        | Failed err =>
            ([log0; Logged "Logout request failed: %v" [AString err]],
             Returned (Some ("logout request failed: " +:+ err)), c)
        | Replied resp =>
            if negb (logout_success resp) then
              ([log0; Logged "Logout failed: %s"
                        [AString (logout_error_message resp)]],
               Returned (Some ("logout failed: " +:+ logout_error_message resp)),
               c)
            else
              let c1 := with_token c "" in
              let log1 := Logged "Logout successful" [] in
              if onStatusChanged c1 then
                match serverInfo c1 with
                | None => ([log0; log1], Panicked, c1)
                | Some si =>
                    ([log0; log1;
                      StatusChanged (status CONNECTED NOT_LOGGED_IN
                                       (ShortName si) "")],
                     Returned None, c1)
                end
              else ([log0; log1], Returned None, c1)
        end
  end.

Definition ExecuteCommand (c : Client) (command : string)
  (reply : Rpc CommandResponse) : list Event * Outcome * Client :=
  match client c with
  | None => ([], Returned (Some "not connected to server"), c)
  | Some _ =>
      let log0 := Logged "Executing command: %s" [AString command] in
      match reply with
      | Failed err =>
          ([log0; Logged "Command execution failed: %v" [AString err]],
           Returned (Some ("command execution failed: " +:+ err)), c)
      | Replied resp =>
          if negb (command_success resp) then
            ([log0; Logged "Command failed: %s"
                      [AString (command_error_message resp)]]
               ++ emit c ("Error: " +:+ command_error_message resp)
               ++ notify c (command_status_info resp),
             Returned None, c)
          else if decide (NewContext resp ≠ "") then
            let c1 := SetLastServiceUsed c (NewContext resp) in
            ([log0] ++ emit c (Output resp)
               ++ [Logged "New service context: %s" [AString (NewContext resp)]]
               ++ notify c1 (command_status_info resp),
             Returned None, c1)
          else
            ([log0] ++ emit c (Output resp)
               ++ notify c (command_status_info resp),
             Returned None, c)
      end
  end.

(** The body of the [switch output.Type] for one received message. *)
Definition process_output (c : Client) (output : CommandOutput) : list Event :=
  match output_type output with
  | TEXT => emit c (Content output)
  | STATUS_UPDATE =>
      [Logged "Status update: %s (%d%%)"
         [AString (Content output); AInt (ProgressPercent output)]]
  | ERROR =>
      Logged "Streaming error: %s" [AString (Content output)]
        :: emit c ("Error: " +:+ Content output)
  | COMPLETION =>
      Logged "Streaming command complete: %s" [AString (Content output)]
        :: emit c ("Completed: " +:+ Content output)
  | UNRECOGNIZED _ => []
  end.

(** The receive loop: the events it causes and the error it returns. *)
Fixpoint receive (c : Client) (stream : Stream) : list Event * option string :=
  match stream with
  | EndOfStream => ([Logged "Streaming command completed" []], None)
  | Broken err =>
      ([Logged "Error receiving streaming data: %v" [AString err]],
       Some ("error receiving streaming data: " +:+ err))
  | Message output rest =>
      let '(events, err) := receive c rest in
      (process_output c output ++ events, err)
  end.

(** [openErr] is the error of the call that opens the stream, if any. *)
Definition ExecuteStreamingCommand (c : Client) (command : string)
  (openErr : option string) (stream : Stream)
  : list Event * Outcome * Client :=
  match client c with
  | None => ([], Returned (Some "not connected to server"), c)
  | Some _ =>
      let log0 := Logged "Executing streaming command: %s" [AString command] in
      match openErr with
      | Some err =>
          ([log0; Logged "Streaming command execution failed: %v" [AString err]],
           Returned (Some ("streaming command execution failed: " +:+ err)), c)
      | None =>
          let '(events, err) := receive c stream in
          (log0 :: events, Returned err, c)
      end
  end.

(** One tick of the goroutine started by [StartKeepAlive], taken between
    two foreground calls.  [reply] is [SessionValid], or a transport
    error.  The boolean tells whether the goroutine goes on. *)
Definition KeepAliveTick (c : Client) (reply : Rpc bool)
  : list Event * Outcome * Client * bool :=
  match client c with
  | Some _ =>
      if decide (sessionToken c ≠ "") then
        match reply with
        | Failed err =>
            ([Logged "KeepAlive error: %v" [AString err]], Returned None, c, true)
        | Replied true => ([], Returned None, c, true)
        | Replied false =>
            let c1 := with_token c "" in
            let log0 := Logged "Session expired" [] in
            if onStatusChanged c1 then
              match serverInfo c1 with
              | None => ([log0], Panicked, c1, false)
              | Some si =>
                  ([log0; StatusChanged (status CONNECTED SESSION_EXPIRED
                                           (ShortName si) "")],
                   Returned None, c1, false)
              end
            else ([log0], Returned None, c1, false)
        end
      else ([], Returned None, c, false)
  | None => ([], Returned None, c, false)
  end.

Definition knownServers : list ServerInfo :=
  [ {| Hostname := "localhost"; Address := "localhost"; Port := 50051;
       ShortName := "Local Dev Server";
       Description := "Local development server";
       TlsEnabled := false; Version := "1.0.0" |};
    {| Hostname := "remote-example"; Address := "remote-example.com";
       Port := 50051; ShortName := "Remote Example";
       Description := "Example of a remote server";
       TlsEnabled := true; Version := "1.0.0" |} ].

(** [selection] is what the [onServerList] callback returns when called. *)
Definition DiscoverServer (c : Client) (closeErr : option string)
  (selection : Z * option string) (dialErr : option string)
  (reply : Rpc ConnectResponse) : list Event * Outcome * Client :=
  let log0 := Logged "Starting server discovery..." [] in
  let c1 := match conn c with
            | Some _ => (Close c closeErr).2
            | None => c
            end in
  let connect_to (s : ServerInfo) :=
    let '(events, out, c2) :=
      Connect c1 (Address s) (Port s) (TlsEnabled s) dialErr reply in
    (log0 :: events, out, c2) in
  if onServerList c1 then
    match selection with
    | (_, Some err) => ([log0], Returned (Some err), c1)
    | (selectedIndex, None) =>
        if (0 <=? selectedIndex)
           && (selectedIndex <? Z.of_nat (length knownServers))
        then match knownServers !! Z.to_nat selectedIndex with
             | Some s => connect_to s
             | None => ([log0], Panicked, c1)
             end
        else ([log0], Returned (Some "no server selection made"), c1)
    end
  else
    match knownServers with
    | s :: _ => connect_to s
    | [] => ([log0], Returned (Some "no servers found"), c1)
    end.

(** The calls that can change a client, with what the outside answers. *)
Inductive Op : Type :=
  | OpSetCallbacks (status servers output : bool)
  | OpDiscoverServer (closeErr : option string) (selection : Z * option string)
      (dialErr : option string) (reply : Rpc ConnectResponse)
  | OpConnect (address : string) (port : Z) (useTLS : bool)
      (dialErr : option string) (reply : Rpc ConnectResponse)
  | OpLogin (user password : string) (reply : Rpc LoginResponse)
  | OpLogout (reply : Rpc LogoutResponse)
  | OpExecuteCommand (command : string) (reply : Rpc CommandResponse)
  | OpExecuteStreamingCommand (command : string) (openErr : option string)
      (stream : Stream)
  | OpSetLastServiceUsed (service : string)
  | OpKeepAliveTick (reply : Rpc bool)
  | OpClose (closeErr : option string).

Definition perform (c : Client) (op : Op) : list Event * Outcome * Client :=
  match op with
  | OpSetCallbacks s l o => ([], Returned None, SetCallbacks c s l o)
  | OpDiscoverServer ce sel de r => DiscoverServer c ce sel de r
  | OpConnect a p t de r => Connect c a p t de r
  | OpLogin u p r => Login c u p r
  | OpLogout r => Logout c r
  | OpExecuteCommand cmd r => ExecuteCommand c cmd r
  | OpExecuteStreamingCommand cmd oe s => ExecuteStreamingCommand c cmd oe s
  | OpSetLastServiceUsed s => ([], Returned None, SetLastServiceUsed c s)
  | OpKeepAliveTick r => (KeepAliveTick c r).1
  | OpClose ce => Close c ce
  end.

(** The client after a sequence of calls; [None] when one of them
    panicked (the process is gone then). *)
Fixpoint run (c : Client) (ops : list Op) : option Client :=
  match ops with
  | [] => Some c
  | op :: rest =>
      match perform c op with
      | (_, Returned _, c') => run c' rest
      | (_, Panicked, _) => None
      end
  end.

(** The states a client can be in. *)
Definition reachable (c : Client) : Prop := ∃ ops, run NewClient ops = Some c.

(** The texts handed to the output sink, in order. *)
Definition outputs (events : list Event) : list string :=
  omap (λ e, match e with OutputReceived s => Some s | _ => None end) events.

End Session.
Export Session.

(** ** Vocabulary of the specification *)

(** The lines of an alias or history file as the loaders delimit them: the
    text between line feeds, carriage returns dropped, each byte
    re-encoded by [string_of_byte].  [line] is the text of the line being
    read. *)
Fixpoint file_lines (buffer : string) (line : string) : list string :=
  match buffer with
  | EmptyString => [line]
  | String b rest =>
      if decide (b = "010"%char) then line :: file_lines rest ""
      else if decide (b ≠ "013"%char)
           then file_lines rest (line +:+ string_of_byte b)
           else file_lines rest line
  end.

(** A line is a [name=command] record when it has a '=' with a non-empty
    name before the first one. *)
Definition record_of (line : string) : option (string * string) :=
  match Cut "=" line with
  | Some (name, command) =>
      if decide (name = "") then None else Some (name, command)
  | None => None
  end.

(** The records of a file, in file order. *)
Definition file_records (bytes : string) : list (string * string) :=
  omap record_of (file_lines bytes "").

(** The table holding the given records, later ones overwriting earlier
    ones of the same name. *)
Definition table_of (records : list (string * string)) : gmap string string :=
  foldl (λ m r, <[r.1 := r.2]> m) ∅ records.

(** Every stored name is free of spaces and periods. *)
Definition names_wellformed (m : gmap string string) : Prop :=
  ∀ name, is_Some (m !! name) → Contains name " " = false ∧ Contains name "." = false.

(** What [LoadAliases] does with one record: it is stored while the table
    has room, and dropped otherwise. *)
Definition store_record (maxCount : Z) (m : gmap string string)
  (r : string * string) : gmap string string :=
  if Z.of_nat (size m) <? maxCount then <[r.1 := r.2]> m else m.

(** The line feed byte, for writing file contents. *)
Definition LF : string := String "010"%char "".

(** What holds of every history built by [NewCommandHistory] and [Add]. *)
Definition history_inv (capacity : Z) (h : CommandHistory) : Prop :=
  maxEntries h = capacity ∧ 0 ≤ capacity ∧ len h ≤ capacity ∧
  no_adjacent_dup (entries h) ∧
  Forall (λ e, TrimSpace e = e) (entries h).

(** The parts of what [Complete] returns. *)
Definition suggestions_of (r : list string * string * AutoCompleter * list string)
  : list string := r.1.1.1.
Definition common_prefix_of (r : list string * string * AutoCompleter * list string)
  : string := r.1.1.2.
Definition handler_calls_of (r : list string * string * AutoCompleter * list string)
  : list string := r.2.

(** [cmd] is a local command of the completer. *)
Definition is_local (ac : AutoCompleter) (cmd : string) : Prop :=
  is_Some (localCommands ac !! cmd).

(** All prefixes of a string, shortest first. *)
Fixpoint prefixes (s : string) : list string :=
  match s with
  | EmptyString => [""]
  | String c r => "" :: (String c <$> prefixes r)
  end.

(** [IsConnected] *)
Definition IsConnected (c : Client) : bool :=
  bool_decide (conn c ≠ None) && bool_decide (client c ≠ None).

(** [IsLoggedIn] *)
Definition IsLoggedIn (c : Client) : bool :=
  bool_decide (sessionToken c ≠ "").

(** What ties the fields of a client together between calls: without a
    connection there is no stub, no token and no server information; with
    one there are a stub and the server information. *)
Definition session_inv (c : Client) : Prop :=
  match conn c with
  | None => client c = None ∧ sessionToken c = "" ∧ serverInfo c = None
  | Some _ => is_Some (client c) ∧ is_Some (serverInfo c)
  end.

(** What the output sink is to receive for one message of a stream: the
    text of a TEXT message, an error notice for an ERROR message, a
    completion notice for a COMPLETION message, and nothing otherwise. *)
Definition forwarded (output : CommandOutput) : list string :=
  match output_type output with
  | TEXT => [Content output]
  | ERROR => ["Error: " +:+ Content output]
  | COMPLETION => ["Completed: " +:+ Content output]
  | STATUS_UPDATE | UNRECOGNIZED _ => []
  end.

(** The stream that delivers the given messages and then ends as [ending]. *)
Definition stream_of (messages : list CommandOutput) (ending : Stream) : Stream :=
  foldr Message ending messages.

(** A client with all callbacks set, connected to the local server: used
    in the examples. *)
Definition example_session : list Op :=
  [OpSetCallbacks true true true;
   OpConnect "localhost" 50051 false None
     (Replied {| connect_success := true;
                 connect_server_name := "Local Dev Server";
                 connect_version := "1.0.0";
                 connect_error_message := "" |})].

Definition example_client : Client :=
  default NewClient (run NewClient example_session).

(** A stream message of the given type and text. *)
Definition text_message (type : OutputType) (content : string) : CommandOutput :=
  {| output_type := type; Content := content; ProgressPercent := 0 |}.

(** Case analysis on every branch a method takes. *)
Ltac session_cases :=
  unfold session_inv in *;
  repeat (case_match; simplify_eq/=);
  try done; intuition (eauto; congruence).

(** The tab byte. *)
Definition TAB : string := String "009"%char "".

(** ** Saving the alias table, and the interpreter's alias command *)

(** What the file system does to a [Save]: [os.UserConfigDir], the
    [os.MkdirAll] calls, [os.Create] or one of the [f.WriteString] calls
    can fail.  [SaveWriteError n partial err] says that the first [n]
    records were written, and of the next one the bytes [partial], when a
    write failed with [err]. *)
Inductive SaveEnv : Type :=
  | SaveNoUserConfigDir (err : string)
  | SaveMkdirError (err : string)
  | SaveCreateError (err : string)
  | SaveWriteError (written : nat) (partial err : string)
  | SaveWrites.

(** The bytes of the file after the write loop over [records]. *)
Definition written_file (env : SaveEnv) (records : list string)
  : option string * string :=
  match env with
  | SaveWriteError n partial err =>
      if decide (n < length records)%nat
      then (Some err, foldr String.append partial (take n records))
      else (None, foldr String.append "" records)
  | _ => (None, foldr String.append "" records)
  end.

(** A [range] over [am.aliases]: any duplicate-free list of its keys. *)
Definition alias_range_order (am : AliasManager) (order : list string) : Prop :=
  NoDup order ∧ ∀ alias, alias ∈ order ↔ is_Some (aliases am !! alias).

(** [fmt.Sprintf("%s=%s\n", alias, command)] *)
Definition alias_record (am : AliasManager) (alias : string) : string :=
  alias +:+ "=" +:+ default "" (aliases am !! alias) +:+ LF.

(** [SaveAliases] returns its error; the model also returns the bytes of
    [local_aliases.txt] when the file was created ([None] when the call
    failed before).  [order] is the order in which the call ranges over
    the table. *)
Definition SaveAliases (am : AliasManager) (order : list string) (env : SaveEnv)
  : option AliasError * option string :=
  match env with
  | SaveNoUserConfigDir err => (Some (ErrIO err), None)
  | SaveMkdirError err => (Some (ErrIO err), None)
  | SaveCreateError err => (Some (ErrIO err), None)
  | _ =>
      let '(err, bytes) := written_file env (alias_record am <$> order) in
      (ErrIO <$> err, Some bytes)
  end.

(** A string that a line-oriented file keeps as it is: every byte is below
    0x80 and none is a line feed or a carriage return. *)
Fixpoint plain (s : string) : bool :=
  match s with
  | EmptyString => true
  | String b r =>
      N.ltb (N_of_ascii b) 128 && negb (N.eqb (N_of_ascii b) 10)
      && negb (N.eqb (N_of_ascii b) 13) && plain r
  end.

(** The text without its carriage returns. *)
Fixpoint remove_CR (s : string) : string :=
  match s with
  | EmptyString => EmptyString
  | String b r =>
      if decide (b = "013"%char) then remove_CR r else String b (remove_CR r)
  end.

(** The table of [isReservedKeyword] in ui/tui.go. *)
Definition tuiReservedKeywords : list string :=
  ["help"; "?"; "login"; "logout"; "alias"; "unalias"; "exit"; "quit";
   "clear"; "cls"; "history"; "use"; "connect"; "disconnect"; "status"].

(** [isReservedKeyword] of ui/tui.go, over Go's [strings.ToLower]. *)
Definition isReservedKeyword (toLower : string → string) (word : string) : bool :=
  bool_decide (toLower word ∈ tuiReservedKeywords).

(** What the alias command tells the user: the error shown, or the
    confirmation. *)
Inductive AliasFeedback : Type :=
  | ShowSyntax
  | ShowEmptyAlias
  | ShowEmptyCommand
  | ShowReservedKeyword (alias : string)
  | ShowAddError (err : AliasError)
  | ShowAliasCreated (alias command : string).

(** The branch of [handleSpecialCommand] for [alias <name>=<command>]:
    [arg] is [parts[1]], the text after the command word.  The result says
    what is shown, gives the table and tells whether [SaveAliases] is
    called. *)
Definition define_alias (toLower : string → string) (am : AliasManager)
  (arg : string) : AliasFeedback * AliasManager * bool :=
  match SplitN2 arg "=" with
  | [name; cmd] =>
      let alias := TrimSpace name in
      let command := TrimSpace cmd in
      if decide (alias = "") then (ShowEmptyAlias, am, false)
      else if decide (command = "") then (ShowEmptyCommand, am, false)
      else if isReservedKeyword toLower alias
           then (ShowReservedKeyword alias, am, false)
           else match AddAlias am alias command with
                | (Some err, am') => (ShowAddError err, am', false)
                | (None, am') => (ShowAliasCreated alias command, am', true)
                end
  | _ => (ShowSyntax, am, false)
  end.

(** The table after a series of alias commands. *)
Definition define_aliases (toLower : string → string) (am : AliasManager)
  (args : list string) : AliasManager :=
  foldl (λ am arg, (define_alias toLower am arg).1.2) am args.

(** ** Saving and loading the history *)

(** What [os.UserConfigDir] gives, already joined with the file's place
    under it ([filepath.Join(dir, "nexuflex", "history.txt")]). *)
Inductive PathResult : Type :=
  | PathError (err : string)
  | PathOk (path : string).

(** What [CommandHistory.Load] finds at [savePath]. *)
Inductive HistoryFile : Type :=
  | HistoryNotExist
  | HistoryOpenError (err : string)
  | HistoryContents (bytes : string).

(** What the file system does to [CommandHistory.Save]: the result of
    [os.UserConfigDir] and the errors, if any, of [os.MkdirAll(configDir)],
    of [os.MkdirAll(filepath.Dir(h.savePath))], of [os.Create] and of a
    [f.WriteString] (the number of entries written before, the bytes
    written of the failing one, and the error). *)
Record SaveSystem : Type := mkSaveSystem {
  user_config_path : PathResult;
  mkdir_config : option string;
  mkdir_parent : option string;
  create_file : option string;
  failing_write : option (nat * string * string)
}.

Definition with_savePath (h : CommandHistory) (path : string) : CommandHistory :=
  {| entries := entries h; maxEntries := maxEntries h;
     currentIndex := currentIndex h; savePath := path |}.

Definition with_entries (h : CommandHistory) (l : list string) : CommandHistory :=
  {| entries := l; maxEntries := maxEntries h;
     currentIndex := currentIndex h; savePath := savePath h |}.

(** [if line != "" { h.Add(line) }] *)
Definition add_line (h : CommandHistory) (line : string) : CommandHistory :=
  if decide (line = "") then h else Add h line.

(** The loop of [Load] over the bytes read. *)
Fixpoint scan_history (buffer : string) (line : string) (h : CommandHistory)
  : string * CommandHistory :=
  match buffer with
  | EmptyString => (line, h)
  | String b rest =>
      if decide (b = "010"%char)
      then scan_history rest "" (add_line h line)
      else if decide (b ≠ "013"%char)
           then scan_history rest (line +:+ string_of_byte b) h
           else scan_history rest line h
  end.

Definition Load (h : CommandHistory) (defaultPath : PathResult)
  (f : HistoryFile) : option string * CommandHistory :=
  let resolved :=
    if decide (savePath h = "") then
      match defaultPath with
      | PathError err => inl err
      | PathOk path => inr (with_savePath h path)
      end
    else inr h in
  match resolved with
  | inl err => (Some err, h)
  | inr h1 =>
      match f with
      | HistoryNotExist => (None, h1)
      | HistoryOpenError err => (Some err, h1)
      | HistoryContents bytes =>
          let '(line, h2) := scan_history bytes "" (with_entries h1 []) in
          let h3 := add_line h2 line in
          (None, set_index h3 (len h3))
      end
  end.

(** [Save] returns its error; the model also returns the history (its
    [savePath] may have been set) and the bytes of the file when it was
    created. *)
Definition Save (h : CommandHistory) (fs : SaveSystem)
  : option string * CommandHistory * option string :=
  let resolved :=
    if decide (savePath h = "") then
      match user_config_path fs with
      | PathError err => inl err
      | PathOk path =>
          match mkdir_config fs with
          | Some err => inl err
          | None => inr (with_savePath h path)
          end
      end
    else inr h in
  match resolved with
  | inl err => (Some err, h, None)
  | inr h1 =>
      match mkdir_parent fs with
      | Some err => (Some err, h1, None)
      | None =>
          match create_file fs with
          | Some err => (Some err, h1, None)
          | None =>
              let env := match failing_write fs with
                         | Some (n, partial, err) => SaveWriteError n partial err
                         | None => SaveWrites
                         end in
              let '(err, bytes) :=
                written_file env ((λ entry, entry +:+ LF) <$> entries h1) in
              (err, h1, Some bytes)
          end
      end
  end.

(** A file system on which every step of [Save] succeeds. *)
Definition save_succeeds (path : string) : SaveSystem :=
  {| user_config_path := PathOk path; mkdir_config := None;
     mkdir_parent := None; create_file := None; failing_write := None |}.

(** The calls on a history, with what the outside answers. *)
Inductive HistoryOp : Type :=
  | HAdd (command : string)
  | HPrevious
  | HNext
  | HResetNavigation
  | HLoad (defaultPath : PathResult) (f : HistoryFile)
  | HSave (fs : SaveSystem).

(** The history after one call; [None] when the call panics. *)
Definition history_step (h : CommandHistory) (op : HistoryOp)
  : option CommandHistory :=
  match op with
  | HAdd command => Some (Add h command)
  | HPrevious => r ← Previous h; Some r.2
  | HNext => r ← Next h; Some r.2
  | HResetNavigation => Some (ResetNavigation h)
  | HLoad defaultPath f => Some (Load h defaultPath f).2
  | HSave fs => Some (Save h fs).1.2
  end.

Fixpoint history_run (h : CommandHistory) (ops : list HistoryOp)
  : option CommandHistory :=
  match ops with
  | [] => Some h
  | op :: rest => h' ← history_step h op; history_run h' rest
  end.

(** The cursor is on an entry or just past the last one; it is -1 only in
    a history that has no entry yet. *)
Definition cursor_in_range (h : CommandHistory) : Prop :=
  -1 ≤ currentIndex h ≤ len h ∧ (entries h ≠ [] → 0 ≤ currentIndex h).

(** ** ui/input.go *)

Module InputField.

(** The text of the field, the history and the alias manager (which may
    be nil). *)
Record EnhancedInputField : Type := mkInput {
  text : string;
  history : CommandHistory;
  aliasManager : option AliasManager
}.

Definition SetText (i : EnhancedInputField) (s : string) : EnhancedInputField :=
  {| text := s; history := history i; aliasManager := aliasManager i |}.

Definition with_history (i : EnhancedInputField) (h : CommandHistory)
  : EnhancedInputField :=
  {| text := text i; history := h; aliasManager := aliasManager i |}.

(** [ProcessCommand] of the input field. *)
Definition ProcessCommand (i : EnhancedInputField) : string * EnhancedInputField :=
  let command := text i in
  if decide (TrimSpace command = "") then ("", i)
  else
    let i1 := with_history i (ResetNavigation (Add (history i) command)) in
    let i2 := SetText i1 "" in
    match aliasManager i2 with
    | Some am => (ExpandCommand am command, i2)
    | None => (command, i2)
    end.

(** [handleKeyPress] for the Up key; [None] when [Previous] panics. *)
Definition KeyUp (i : EnhancedInputField) : option EnhancedInputField :=
  match Previous (history i) with
  | Some (cmd, ok, h) =>
      let i1 := with_history i h in
      Some (if ok then SetText i1 cmd else i1)
  | None => None
  end.

(** [handleKeyPress] for the Down key. *)
Definition KeyDown (i : EnhancedInputField) : option EnhancedInputField :=
  match Next (history i) with
  | Some (cmd, ok, h) =>
      let i1 := with_history i h in
      Some (if ok then SetText i1 cmd else SetText i1 "")
  | None => None
  end.

End InputField.

(** What holds of a history between calls: the bounds of [history_inv], no
    empty entry, and the cursor in range. *)
Definition history_wf (capacity : Z) (h : CommandHistory) : Prop :=
  history_inv capacity h ∧ Forall (λ e, e ≠ "") (entries h) ∧ cursor_in_range h.

(** The history [NewCommandHistory] makes, for a capacity that is not
    negative. *)
Definition empty_history (capacity : Z) : CommandHistory :=
  {| entries := []; maxEntries := capacity; currentIndex := -1; savePath := "" |}.

(** ** Grouping of suggestions (ui/autocomplete.go) *)

(** The group of a suggestion: the text before its first '.', or the empty
    group when it has none. *)
Definition group_of (suggestion : string) : string :=
  if Contains suggestion "." then
    default "" (SplitN2 suggestion "." !! 0%nat)
  else "".

(** [groupSuggestions] *)
Definition groupSuggestions (suggestions : list string)
  : gmap string (list string) :=
  foldl (λ groups suggestion,
           let group := group_of suggestion in
           let groups := match groups !! group with
                         | Some _ => groups
                         | None => <[group := []]> groups
                         end in
           <[group := default [] (groups !! group) ++ [suggestion]]> groups)
        ∅ suggestions.

(** No local command starts with [t], or [t] names a service. *)
Definition asks_server (ac : AutoCompleter) (t : string) : Prop :=
  Contains t "." = true ∨ ∀ cmd, is_local ac cmd → ¬ is_prefix t cmd.

(** ** commands.go: saving and loading the processor's aliases *)

(** A [range] over [p.localAliases]: any duplicate-free list of its keys. *)
Definition local_range_order (p : CommandProcessor) (order : list string) : Prop :=
  NoDup order ∧ ∀ alias, alias ∈ order ↔ is_Some (localAliases p !! alias).

(** [alias + "=" + command + "\n"] *)
Definition local_alias_record (p : CommandProcessor) (alias : string) : string :=
  alias +:+ "=" +:+ default "" (localAliases p !! alias) +:+ LF.

(** [SaveLocalAliases] returns its error; the model also returns the bytes
    of [aliases.txt] when the file was created. *)
Definition SaveLocalAliases (p : CommandProcessor) (order : list string)
  (env : SaveEnv) : option string * option string :=
  match env with
  | SaveNoUserConfigDir err => (Some err, None)
  | SaveMkdirError err => (Some err, None)
  | SaveCreateError err => (Some err, None)
  | _ =>
      let '(err, bytes) := written_file env (local_alias_record p <$> order) in
      (err, Some bytes)
  end.

(** The body shared by the two places of [LoadLocalAliases] that process a
    complete line. *)
Definition store_local_line (line : string) (m : gmap string string)
  : gmap string string :=
  if decide (line = "") then m
  else match SplitN2 line "=" with
       | [name; command] => <[name := command]> m
       | _ => m
       end.

(** The loop over the bytes read: [line] and the table are the loop state. *)
Fixpoint scan_local_aliases (buffer : string) (line : string)
  (m : gmap string string) : string * gmap string string :=
  match buffer with
  | EmptyString => (line, m)
  | String b rest =>
      if decide (b = "010"%char)
      then scan_local_aliases rest "" (store_local_line line m)
      else if decide (b ≠ "013"%char)
           then scan_local_aliases rest (line +:+ string_of_byte b) m
           else scan_local_aliases rest line m
  end.

Definition LoadLocalAliases (p : CommandProcessor) (f : ConfigFile)
  : option string * CommandProcessor :=
  match f with
  | NoUserConfigDir err => (Some err, p)
  | NotExist => (None, p)
  | OpenError err => (Some err, p)
  | Contents bytes =>
      let '(line, m) := scan_local_aliases bytes "" ∅ in
      (None, {| localAliases := store_local_line line m |})
  end.

(** The [name=command] records of a file as [LoadLocalAliases] reads them:
    the lines with a '=', cut at the first one. *)
Definition local_file_records (bytes : string) : list (string * string) :=
  omap (Cut "=") (file_lines bytes "").

(** ** The receive loop of [ExecuteStreamingCommand], iteration by iteration *)

(** What one [stream.Recv()] call returns. *)
Inductive Received : Type :=
  | GotEOF
  | GotError (err : string)
  | GotMessage (output : CommandOutput).

(** The receive loop, one entry per iteration: what [stream.Recv()]
    returned, and the logger and callback calls the iteration makes before
    the next [stream.Recv()] (or before the loop is left). *)
Fixpoint receive_rounds (c : Client) (stream : Stream)
  : list (Received * list Event) :=
  match stream with
  | EndOfStream => [(GotEOF, [Logged "Streaming command completed" []])]
  | Broken err =>
      [(GotError err,
        [Logged "Error receiving streaming data: %v" [AString err]])]
  | Message output rest =>
      (GotMessage output, process_output c output) :: receive_rounds c rest
  end.

(** What is to happen on one message of a stream when the output sink is
    set: a TEXT message is forwarded; a STATUS_UPDATE message is logged; an
    ERROR and a COMPLETION message are logged and forwarded as a notice; a
    message of any other type is ignored. *)
Definition handled (output : CommandOutput) : list Event :=
  match output_type output with
  | TEXT => [OutputReceived (Content output)]
  | STATUS_UPDATE =>
      [Logged "Status update: %s (%d%%)"
         [AString (Content output); AInt (ProgressPercent output)]]
  | ERROR =>
      [Logged "Streaming error: %s" [AString (Content output)];
       OutputReceived ("Error: " +:+ Content output)]
  | COMPLETION =>
      [Logged "Streaming command complete: %s" [AString (Content output)];
       OutputReceived ("Completed: " +:+ Content output)]
  | UNRECOGNIZED _ => []
  end.

(** * Properties *)

(** ** Trimming *)

Section StripFacts.
Variable p1 : ascii → bool.
Variable p2 : ascii → ascii → bool.
Variable p3 : ascii → ascii → ascii → bool.

Lemma strip_stuck l : lead p1 p2 p3 l = false → strip p1 p2 p3 l = l.
Proof.
  destruct l as [|a [|b [|c l3]]]; cbn; try done.
  - by intros ->%orb_false_iff%proj1.
  - intros [-> [-> _]%orb_false_iff]%orb_false_iff. done.
  - intros [-> [-> ->]%orb_false_iff]%orb_false_iff. done.
Qed.

Lemma lead_strip_bounded n :
  ∀ l, (length l ≤ n)%nat → lead p1 p2 p3 (strip p1 p2 p3 l) = false.
Proof.
  induction n as [|n IH]; intros l Hn.
  { destruct l; [done | simpl in Hn; lia]. }
  destruct l as [|a l1]; [done|]. simpl in Hn.
  cbn [GoStrings.strip]. destruct (p1 a) eqn:E1; [apply IH; lia|].
  destruct l1 as [|b l2]; [cbn; by rewrite E1|]. simpl in Hn.
  destruct (p2 a b) eqn:E2; [apply IH; lia|].
  destruct l2 as [|c l3]; [cbn; by rewrite E1, E2|]. simpl in Hn.
  destruct (p3 a b c) eqn:E3; [apply IH; lia|].
  cbn. by rewrite E1, E2, E3.
Qed.

Lemma lead_strip l : lead p1 p2 p3 (strip p1 p2 p3 l) = false.
Proof. by apply (lead_strip_bounded (length l)). Qed.

Lemma strip_idemp l : strip p1 p2 p3 (strip p1 p2 p3 l) = strip p1 p2 p3 l.
Proof. apply strip_stuck, lead_strip. Qed.

Lemma strip_is_suffix_bounded n :
  ∀ l, (length l ≤ n)%nat → ∃ u, l = u ++ strip p1 p2 p3 l.
Proof.
  induction n as [|n IH]; intros l Hn.
  { destruct l; [by exists [] | simpl in Hn; lia]. }
  destruct l as [|a l1]; [by exists []|]. simpl in Hn.
  cbn [GoStrings.strip]. destruct (p1 a).
  { destruct (IH l1) as [u Hu]; [lia|]. exists (a :: u). by rewrite Hu at 1. }
  destruct l1 as [|b l2]; [by exists []|]. simpl in Hn.
  destruct (p2 a b).
  { destruct (IH l2) as [u Hu]; [lia|]. exists (a :: b :: u).
    by rewrite Hu at 1. }
  destruct l2 as [|c l3]; [by exists []|]. simpl in Hn.
  destruct (p3 a b c); [|by exists []].
  destruct (IH l3) as [u Hu]; [lia|]. exists (a :: b :: c :: u).
  by rewrite Hu at 1.
Qed.

Lemma strip_is_suffix l : ∃ u, l = u ++ strip p1 p2 p3 l.
Proof. by apply (strip_is_suffix_bounded (length l)). Qed.

Lemma lead_prefix l w :
  lead p1 p2 p3 (l ++ w) = false → lead p1 p2 p3 l = false.
Proof.
  destruct l as [|a [|b [|c l3]]]; cbn; try done.
  - destruct (p1 a); [done|]. by intros _.
  - destruct (p1 a); [done|]. destruct (p2 a b); [done|]. by intros _.
Qed.
End StripFacts.

Lemma trimRight_idemp l : trimRight (trimRight l) = trimRight l.
Proof. unfold trimRight. by rewrite rev_involutive, strip_idemp. Qed.

Lemma trimRight_is_prefix l : ∃ w, l = trimRight l ++ w.
Proof.
  unfold trimRight.
  destruct (strip_is_suffix space1 (λ b a, space2 a b) (λ c b a, space3 a b c)
              (rev l)) as [u Hu].
  exists (rev u). rewrite <- rev_app_distr, <- Hu. by rewrite rev_involutive.
Qed.

Lemma trimLeft_trimRight l :
  trimLeft (trimRight (trimLeft l)) = trimRight (trimLeft l).
Proof.
  unfold trimLeft at 1. apply strip_stuck.
  destruct (trimRight_is_prefix (trimLeft l)) as [w Hw].
  apply lead_prefix with w. rewrite <- Hw. apply lead_strip.
Qed.

Lemma TrimSpace_idemp s : TrimSpace (TrimSpace s) = TrimSpace s.
Proof.
  unfold TrimSpace. rewrite String.list_ascii_of_string_of_list_ascii.
  by rewrite trimLeft_trimRight, trimRight_idemp.
Qed.

(** ** Alias expansion *)

Lemma append_empty_l (s : string) : "" +:+ s = s.
Proof. reflexivity. Qed.

Lemma append_String (c : ascii) (w s : string) :
  String c w +:+ s = String c (w +:+ s).
Proof. reflexivity. Qed.

Lemma Cut_first w rest sep :
  Contains w sep = false → Cut sep (w +:+ String sep rest) = Some (w, rest).
Proof.
  induction w as [|c w IH].
  - intros _. rewrite append_empty_l. cbn. by rewrite decide_True.
  - rewrite append_String. cbn.
    destruct (decide (c = sep)); [done|]. intros H. by rewrite (IH H).
Qed.

Lemma Cut_none s sep : Contains s sep = false → Cut sep s = None.
Proof.
  induction s as [|c s IH]; cbn; [done|].
  destruct (decide (c = sep)); [done|]. intros H. by rewrite (IH H).
Qed.

(** C1, as the code has it: [ExpandCommand] first trims the white space
    around the line.  The first word is the text of the trimmed line before
    its first space character; when it is a stored alias the result is its
    expansion, a space and the text after that first space (the expansion
    alone when the trimmed line has no space); otherwise the result is the
    trimmed line.  With [foo] aliased to [bar baz], ["foo rest"] gives
    ["bar baz rest"] and ["foo"] gives ["bar baz"]. *)
Theorem ExpandCommand_first_word (am : AliasManager) (line : string) :
  let t := TrimSpace line in
  (∀ w rest, t = w +:+ " " +:+ rest → Contains w " " = false →
     ExpandCommand am line =
       match aliases am !! w with
       | Some expansion => expansion +:+ " " +:+ rest
       | None => t
       end) ∧
  (Contains t " " = false →
     ExpandCommand am line =
       match aliases am !! t with
       | Some expansion => expansion
       | None => t
       end) ∧
  (aliases am !! "foo" = Some "bar baz" →
     ExpandCommand am "foo rest" = "bar baz rest" ∧
     ExpandCommand am "foo" = "bar baz").
Proof.
  cbn zeta. split; [|split].
  - intros w rest Ht Hw. unfold ExpandCommand, SplitN2. rewrite Ht.
    change (w +:+ " " +:+ rest) with (w +:+ String " " rest).
    rewrite (Cut_first _ _ _ Hw). cbn. by destruct (aliases am !! w).
  - intros Ht. unfold ExpandCommand, SplitN2. rewrite (Cut_none _ _ Ht). cbn.
    by destruct (aliases am !! TrimSpace line).
  - intros Hfoo. unfold ExpandCommand.
    change (TrimSpace "foo rest") with "foo rest".
    change (TrimSpace "foo") with "foo".
    change (SplitN2 "foo rest" " ") with ["foo"; "rest"].
    change (SplitN2 "foo" " ") with ["foo"].
    cbn [lookup list_lookup default from_option id]. by rewrite Hfoo.
Qed.

Lemma ExpandCommand_first_word_witness :
  let am := {| aliases := {[ "foo" := "bar baz" ]}; maxCount := 50 |} in
  ExpandCommand am "  foo  rest " = "bar baz  rest" ∧
  ExpandCommand am "foo rest" = "bar baz rest" ∧
  ExpandCommand am "foo" = "bar baz".
Proof.
  intros am.
  pose proof (ExpandCommand_first_word am "  foo  rest ") as [H1 _].
  pose proof (ExpandCommand_first_word am "foo") as [_ [_ H3]].
  split.
  - rewrite (H1 "foo" " rest"); [reflexivity | reflexivity | reflexivity].
  - apply H3. reflexivity.
Defined.

(** C1, as stated, fails: a line that no alias matches is returned without
    its surrounding white space, not unchanged. *)
Lemma ExpandCommand_unaliased_is_trimmed :
  let am := NewAliasManager 50 in
  (∀ name, aliases am !! name = None) ∧
  ExpandCommand am "status " = "status" ∧
  ExpandCommand am "status " ≠ "status ".
Proof.
  cbn zeta. split; [|split].
  - intros name. apply lookup_empty.
  - reflexivity.
  - discriminate.
Qed.

(** Only a space ends the first word: a tab does not. *)
Lemma ExpandCommand_tab_is_no_separator :
  let am := {| aliases := {[ "foo" := "bar baz" ]}; maxCount := 50 |} in
  ExpandCommand am ("foo" +:+ TAB +:+ "rest") = "foo" +:+ TAB +:+ "rest".
Proof. reflexivity. Qed.

(** C10: [ProcessCommand] with local aliases enabled and [ExpandCommand]
    return the same string whenever the processor's alias map equals the
    manager's. *)
Theorem ProcessCommand_ExpandCommand (p : CommandProcessor) (am : AliasManager)
  (command : string) :
  localAliases p = aliases am →
  ProcessCommand p command true = ExpandCommand am command.
Proof.
  intros Heq. unfold ProcessCommand, ExpandCommand, SplitN2. rewrite Heq.
  destruct (Cut " " (TrimSpace command)) as [[before after]|]; cbn;
    by destruct (aliases am !! _).
Qed.

Lemma ProcessCommand_ExpandCommand_witness :
  let m : gmap string string := {[ "ll" := "Files.List --long" ]} in
  ProcessCommand {| localAliases := m |} " ll /tmp" true
  = ExpandCommand {| aliases := m; maxCount := 50 |} " ll /tmp".
Proof.
  intros m. apply (ProcessCommand_ExpandCommand {| localAliases := m |}
                     {| aliases := m; maxCount := 50 |}).
  reflexivity.
Defined.

(** ** The alias table *)

Lemma maxCount_alias_step am op : maxCount (alias_step am op) = maxCount am.
Proof.
  destruct op as [alias command|alias|f]; cbn.
  - unfold AddAlias. repeat case_match; done.
  - unfold RemoveAlias. by case_match.
  - unfold LoadAliases. destruct f; try done. by case_match.
Qed.

Lemma maxCount_alias_run ops : ∀ am, maxCount (alias_run am ops) = maxCount am.
Proof.
  induction ops as [|op ops IH]; intros am; [done|].
  cbn. unfold alias_run in IH. by rewrite IH, maxCount_alias_step.
Qed.

Lemma AddAlias_names am alias command :
  names_wellformed (aliases am) →
  names_wellformed (aliases (AddAlias am alias command).2).
Proof.
  intros Hwf. unfold AddAlias.
  destruct (alias_count am >=? maxCount am); [done|].
  destruct (Contains alias " " || Contains alias ".") eqn:Hbad; [done|].
  destruct (aliases am !! alias) eqn:Hl; [done|]. cbn.
  apply orb_false_iff in Hbad. intros name Hname.
  destruct (decide (alias = name)) as [<-|Hne]; [done|].
  rewrite lookup_insert_ne in Hname by done. by apply Hwf.
Qed.

Lemma RemoveAlias_names am alias :
  names_wellformed (aliases am) →
  names_wellformed (aliases (RemoveAlias am alias).2).
Proof.
  intros Hwf. unfold RemoveAlias. destruct (aliases am !! alias); [|done].
  cbn. intros name Hname. apply Hwf.
  destruct (decide (alias = name)) as [<-|Hne].
  - rewrite lookup_delete_eq in Hname. by destruct Hname.
  - by rewrite lookup_delete_ne in Hname.
Qed.

Lemma alias_run_names ops : ∀ am,
  forallb (λ op, negb (is_load op)) ops = true →
  names_wellformed (aliases am) →
  names_wellformed (aliases (alias_run am ops)).
Proof.
  induction ops as [|op ops IH]; intros am Hops Hwf; [done|].
  cbn in Hops. apply andb_true_iff in Hops as [Hop Hops].
  cbn. apply IH; [done|].
  destruct op as [alias command|alias|f]; cbn.
  - by apply AddAlias_names.
  - by apply RemoveAlias_names.
  - discriminate.
Qed.

(** C2, as the code has it: along every sequence of [AddAlias] and
    [RemoveAlias] calls on a new table, every stored alias name contains
    neither a space nor a period.  (The table does not look at the
    reserved keywords; the interpreter checks them before it calls
    [AddAlias].) *)
Theorem alias_names_without_space_or_period (maxCount : Z)
  (ops : list AliasOp) (name : string) :
  forallb (λ op, negb (is_load op)) ops = true →
  is_Some (aliases (alias_run (NewAliasManager maxCount) ops) !! name) →
  Contains name " " = false ∧ Contains name "." = false.
Proof.
  intros Hops. apply (alias_run_names ops (NewAliasManager maxCount) Hops).
  intros n Hn. cbn in Hn. rewrite lookup_empty in Hn. by destruct Hn.
Qed.

Lemma alias_names_without_space_or_period_witness :
  Contains "ll" " " = false ∧ Contains "ll" "." = false.
Proof.
  apply (alias_names_without_space_or_period 50
           [OpAdd "ll" "Files.List"; OpAdd "l l" "x"; OpAdd "rm" "Files.Delete";
            OpRemove "rm"] "ll").
  - reflexivity.
  - vm_compute. eexists. reflexivity.
Defined.

(** C2, as stated, fails: the table accepts a reserved keyword as a name. *)
Lemma AddAlias_accepts_reserved_keyword :
  let am := alias_run (NewAliasManager 50) [OpAdd "help" "Help.Show"] in
  aliases am !! "help" = Some "Help.Show" ∧
  "help" ∈ reservedKeywords ∧ IsReservedKeyword "help" = true.
Proof.
  cbn zeta. split; [reflexivity|]. split; [|reflexivity].
  unfold reservedKeywords. set_solver.
Qed.

(** [LoadAliases] stores names that [AddAlias] refuses. *)
Lemma LoadAliases_accepts_space_in_name :
  let am := alias_run (NewAliasManager 50) [OpLoad (Contents "my ls=Files.List")] in
  aliases am !! "my ls" = Some "Files.List" ∧ Contains "my ls" " " = true.
Proof. cbn zeta. split; reflexivity. Qed.

Lemma store_line_record maxCount line m :
  store_line maxCount line m =
    match record_of line with
    | Some r => store_record maxCount m r
    | None => m
    end.
Proof.
  unfold store_line, record_of, store_record, SplitN2.
  destruct (decide (line = "")) as [->|Hline]; [done|].
  destruct (Cut "=" line) as [[name command]|]; [|done].
  destruct name as [|c name]; [done|]. cbn [String.length].
  rewrite decide_False by done.
  replace (0 <? Z.of_nat (S (String.length name))) with true; [done|].
  symmetry. apply Z.ltb_lt. lia.
Qed.

Lemma scan_aliases_lines maxCount buffer : ∀ line m,
  store_line maxCount (scan_aliases maxCount buffer line m).1
    (scan_aliases maxCount buffer line m).2
  = foldl (λ m l, store_line maxCount l m) m (file_lines buffer line).
Proof.
  induction buffer as [|b rest IH]; intros line m; [done|].
  cbn. destruct (decide (b = "010"%char)); [by rewrite IH|].
  destruct (decide (b ≠ "013"%char)); by rewrite IH.
Qed.

Lemma foldl_store_line maxCount lines : ∀ m,
  foldl (λ m l, store_line maxCount l m) m lines
  = foldl (store_record maxCount) m (omap record_of lines).
Proof.
  induction lines as [|l lines IH]; intros m; [done|].
  cbn. rewrite store_line_record, IH. by destruct (record_of l).
Qed.

Lemma LoadAliases_records am bytes :
  LoadAliases am (Contents bytes) =
    (None, {| aliases := foldl (store_record (maxCount am)) ∅ (file_records bytes);
              maxCount := maxCount am |}).
Proof.
  unfold LoadAliases, file_records.
  pose proof (scan_aliases_lines (maxCount am) bytes "" ∅) as H.
  destruct (scan_aliases (maxCount am) bytes "" ∅) as [line m]. cbn in H.
  by rewrite H, foldl_store_line.
Qed.

Lemma store_record_size maxCount m r :
  Z.of_nat (size m) ≤ maxCount →
  Z.of_nat (size (store_record maxCount m r)) ≤ maxCount.
Proof.
  intros Hm. unfold store_record.
  destruct (Z.ltb_spec (Z.of_nat (size m)) maxCount) as [Hlt|]; [|done].
  pose proof (map_size_insert r.1 r.2 m) as Hs.
  destruct (m !! r.1); cbn in Hs; lia.
Qed.

Lemma foldl_store_record_size maxCount records : ∀ m,
  Z.of_nat (size m) ≤ maxCount →
  Z.of_nat (size (foldl (store_record maxCount) m records)) ≤ maxCount.
Proof.
  induction records as [|r records IH]; intros m Hm; [done|].
  cbn. by apply IH, store_record_size.
Qed.

Lemma foldl_store_record_full maxCount records : ∀ m,
  maxCount ≤ Z.of_nat (size m) →
  foldl (store_record maxCount) m records = m.
Proof.
  induction records as [|r records IH]; intros m Hm; [done|].
  cbn. unfold store_record at 2.
  destruct (Z.ltb_spec (Z.of_nat (size m)) maxCount); [lia|]. by apply IH.
Qed.

(** Loading keeps the records of a prefix of the file, and stops only when
    the file ends or the table is full. *)
Lemma foldl_store_record_prefix maxCount records : ∀ m,
  ∃ k : nat,
    foldl (store_record maxCount) m records
      = foldl (λ m r, <[r.1 := r.2]> m) m (take k records) ∧
    (k = length records ∨
     maxCount ≤ Z.of_nat (size (foldl (store_record maxCount) m records))).
Proof.
  induction records as [|r records IH]; intros m.
  { exists 0%nat. by split; [|left]. }
  cbn [foldl]. unfold store_record at 2 4.
  destruct (Z.ltb_spec (Z.of_nat (size m)) maxCount) as [Hlt|Hge].
  - destruct (IH (<[r.1 := r.2]> m)) as (k & Hk & Hstop).
    exists (S k). split; [done|]. destruct Hstop as [->|?]; [by left | by right].
  - exists 0%nat. rewrite foldl_store_record_full by done. split; [done | by right].
Qed.

Lemma AddAlias_size am alias command :
  alias_count am ≤ Z.max 0 (maxCount am) →
  alias_count (AddAlias am alias command).2 ≤ Z.max 0 (maxCount am).
Proof.
  intros Hm. unfold AddAlias, alias_count in *.
  destruct (Z.geb_spec (Z.of_nat (size (aliases am))) (maxCount am)); [done|].
  destruct (Contains alias " " || Contains alias "."); [done|].
  destruct (aliases am !! alias) eqn:Hl; [done|]. cbn.
  rewrite map_size_insert_None by done. lia.
Qed.

Lemma RemoveAlias_size am alias :
  alias_count am ≤ Z.max 0 (maxCount am) →
  alias_count (RemoveAlias am alias).2 ≤ Z.max 0 (maxCount am).
Proof.
  intros Hm. unfold RemoveAlias, alias_count in *.
  destruct (aliases am !! alias) eqn:Hl; [|done]. cbn.
  rewrite map_size_delete_Some by done. lia.
Qed.

Lemma LoadAliases_size am f :
  alias_count am ≤ Z.max 0 (maxCount am) →
  alias_count (LoadAliases am f).2 ≤ Z.max 0 (maxCount am).
Proof.
  intros Hm. destruct f as [err| |err|bytes]; try done.
  rewrite LoadAliases_records. unfold alias_count. cbn.
  destruct (Z.le_gt_cases 0 (maxCount am)) as [Hpos|Hneg].
  - rewrite Z.max_r by done. apply foldl_store_record_size.
    rewrite map_size_empty. lia.
  - rewrite foldl_store_record_full; rewrite map_size_empty; lia.
Qed.

Lemma alias_run_size ops : ∀ am,
  alias_count am ≤ Z.max 0 (maxCount am) →
  alias_count (alias_run am ops) ≤ Z.max 0 (maxCount am).
Proof.
  induction ops as [|op ops IH]; intros am Hm; [done|].
  cbn. fold (alias_run (alias_step am op) ops).
  rewrite <- (maxCount_alias_step am op). apply IH.
  rewrite maxCount_alias_step.
  destruct op as [alias command|alias|f]; cbn.
  - by apply AddAlias_size.
  - by apply RemoveAlias_size.
  - by apply LoadAliases_size.
Qed.

(** C9: for every capacity [maxCount ≥ 0] and every sequence of [AddAlias],
    [RemoveAlias] and [LoadAliases] calls on a new table, the number of
    stored aliases never exceeds [maxCount].  [LoadAliases] of a file
    reports no error and keeps the records of a prefix of the file (in
    file order), at most [maxCount] names, stopping before the end of the
    file only when the table is full; [AddAlias] on a full table fails
    with the capacity error and changes nothing. *)
Theorem alias_table_bounded (capacity : Z) (ops : list AliasOp) :
  0 ≤ capacity →
  let am := alias_run (NewAliasManager capacity) ops in
  alias_count am ≤ capacity ∧
  (∀ bytes, ∃ k : nat,
     let kept := table_of (take k (file_records bytes)) in
     LoadAliases am (Contents bytes)
       = (None, {| aliases := kept; maxCount := capacity |}) ∧
     Z.of_nat (size kept) ≤ capacity ∧
     (k = length (file_records bytes) ∨ Z.of_nat (size kept) = capacity)) ∧
  (∀ alias command,
     capacity ≤ alias_count am →
     AddAlias am alias command = (Some (ErrMaxAliases capacity), am)).
Proof.
  intros Hpos am.
  assert (maxCount am = capacity) as Hmax.
  { unfold am. by rewrite maxCount_alias_run. }
  split; [|split].
  - pose proof (alias_run_size ops (NewAliasManager capacity)) as H.
    cbn [maxCount NewAliasManager] in H. fold am in H.
    rewrite Z.max_r in H by done. apply H.
    unfold alias_count. cbn. rewrite map_size_empty. lia.
  - intros bytes. rewrite LoadAliases_records, Hmax.
    destruct (foldl_store_record_prefix capacity (file_records bytes) ∅)
      as (k & Hk & Hstop).
    pose proof (foldl_store_record_size capacity (file_records bytes) ∅) as Hsz.
    rewrite map_size_empty in Hsz. specialize (Hsz Hpos).
    exists k. cbn zeta. unfold table_of. rewrite <- Hk.
    split; [done|]. split; [done|].
    destruct Hstop as [->|Hfull]; [by left | right; lia].
  - intros alias command Hfull. unfold AddAlias. rewrite Hmax.
    destruct (Z.geb_spec (alias_count am) capacity); [done | lia].
Qed.

Lemma alias_table_bounded_witness :
  let file := "a=1" +:+ LF +:+ "b=2" +:+ LF +:+ "c=3" +:+ LF in
  let am := alias_run (NewAliasManager 2) [OpAdd "x" "y"; OpLoad (Contents file)] in
  alias_count am ≤ 2 ∧
  aliases am = {[ "a" := "1"; "b" := "2" ]} ∧
  AddAlias am "c" "3" = (Some (ErrMaxAliases 2), am).
Proof.
  intros file am.
  destruct (alias_table_bounded 2 [OpAdd "x" "y"; OpLoad (Contents file)])
    as (Hsize & _ & Hadd); [lia|].
  split; [exact Hsize|]. split; [reflexivity|].
  apply Hadd. vm_compute. discriminate.
Defined.

(** ** The command history *)

Lemma Add_blank h command : TrimSpace command = "" → Add h command = h.
Proof. intros Hb. unfold Add. by rewrite Hb. Qed.

Lemma Add_repeated h command :
  last (entries h) = Some (TrimSpace command) → Add h command = h.
Proof.
  intros Hlast. unfold Add.
  destruct (decide (TrimSpace command = "")); [done|].
  rewrite bool_decide_true by done.
  replace (0 <? len h) with true; [done|].
  symmetry. apply Z.ltb_lt. unfold len.
  destruct (entries h); [discriminate | cbn; lia].
Qed.

Lemma Add_appended h command :
  TrimSpace command ≠ "" →
  last (entries h) ≠ Some (TrimSpace command) →
  let appended := entries h ++ [TrimSpace command] in
  let n := Z.of_nat (length appended) in
  entries (Add h command) =
    (if n >? maxEntries h then drop (Z.to_nat (n - maxEntries h)) appended
     else appended)
  ∧ maxEntries (Add h command) = maxEntries h.
Proof.
  intros Hne Hlast. unfold Add.
  rewrite decide_False by done. rewrite bool_decide_false by done.
  by rewrite andb_false_r.
Qed.

Lemma no_adjacent_dup_snoc l t :
  no_adjacent_dup l → last l ≠ Some t → no_adjacent_dup (l ++ [t]).
Proof.
  intros Hl Hlast i x y Hx Hy.
  destruct (decide (S i < length l)%nat) as [Hlt|Hge].
  - rewrite lookup_app_l in Hx by lia. rewrite lookup_app_l in Hy by lia.
    by apply (Hl i).
  - apply lookup_lt_Some in Hy as Hi. rewrite length_app in Hi. cbn in Hi.
    assert (S i = length l) as Hi' by lia.
    rewrite lookup_app_l in Hx by lia.
    rewrite lookup_app_r in Hy by lia.
    rewrite Hi', Nat.sub_diag in Hy. cbn in Hy. injection Hy as <-.
    intros ->. apply Hlast. rewrite last_lookup, <- Hi'. exact Hx.
Qed.

Lemma no_adjacent_dup_drop l n : no_adjacent_dup l → no_adjacent_dup (drop n l).
Proof.
  intros Hl i x y Hx Hy. rewrite lookup_drop in Hx, Hy.
  apply (Hl (n + i)%nat); [done|]. by rewrite Nat.add_succ_r in Hy.
Qed.

Lemma Add_inv capacity h command :
  history_inv capacity h → history_inv capacity (Add h command).
Proof.
  intros (Hmax & Hpos & Hlen & Hdup & Htrim).
  destruct (decide (TrimSpace command = "")) as [Hb|Hb].
  { by rewrite Add_blank. }
  destruct (decide (last (entries h) = Some (TrimSpace command))) as [Hl|Hl].
  { by rewrite Add_repeated. }
  destruct (Add_appended h command Hb Hl) as [He Hm]. cbn zeta in He.
  assert (Forall (λ e, TrimSpace e = e) (entries h ++ [TrimSpace command])) as Ht.
  { apply Forall_app. split; [done|]. constructor; [|done]. apply TrimSpace_idemp. }
  pose proof (no_adjacent_dup_snoc _ _ Hdup Hl) as Hd.
  unfold history_inv, len. rewrite Hm, He, Hmax.
  split; [done|]. split; [done|].
  destruct (Z.gtb_spec (Z.of_nat (length (entries h ++ [TrimSpace command])))
              capacity) as [Hgt|Hle].
  - split; [rewrite length_drop; lia|].
    split; [by apply no_adjacent_dup_drop | by apply Forall_drop].
  - done.
Qed.

Lemma NewCommandHistory_inv capacity h :
  NewCommandHistory capacity = Some h → history_inv capacity h.
Proof.
  unfold NewCommandHistory. destruct (Z.ltb_spec capacity 0); [done|].
  intros [= <-]. unfold history_inv, len. cbn.
  split_and!; [done | done | lia | | constructor].
  intros i x y Hx. by destruct i.
Qed.

Lemma foldl_Add_inv capacity commands : ∀ h,
  history_inv capacity h → history_inv capacity (foldl Add h commands).
Proof.
  induction commands as [|c commands IH]; intros h Hh; [done|].
  cbn. by apply IH, Add_inv.
Qed.

Lemma last_drop_snoc (l : list string) (t : string) (n : nat) :
  (n < length (l ++ [t]))%nat → last (drop n (l ++ [t])) = Some t.
Proof.
  intros Hn. rewrite last_lookup, lookup_drop, length_drop.
  replace (n + pred (length (l ++ [t]) - n))%nat with (length l)
    by (rewrite length_app in *; cbn in *; lia).
  by rewrite lookup_app_r, Nat.sub_diag by lia.
Qed.

(** Recording the same input twice in a row stores it at most once. *)
Lemma Add_twice capacity h command :
  history_inv capacity h →
  entries (Add (Add h command) command) = entries (Add h command).
Proof.
  intros Hinv. pose proof (Add_inv capacity h command Hinv) as Hinv'.
  destruct (decide (TrimSpace command = "")) as [Hb|Hb].
  { by rewrite !(Add_blank _ command Hb). }
  destruct (decide (last (entries h) = Some (TrimSpace command))) as [Hl|Hl].
  { by rewrite !(Add_repeated h command Hl). }
  destruct (Add_appended h command Hb Hl) as [He Hm]. cbn zeta in He.
  destruct Hinv as (Hmax & Hpos & Hlen & _).
  destruct (decide (capacity = 0)) as [->|Hcap].
  - destruct Hinv' as (_ & _ & Hlen' & _).
    pose proof (Add_inv 0 (Add h command) command) as Hinv''.
    destruct Hinv'' as (_ & _ & Hlen'' & _).
    { pose proof (Add_inv 0 h command) as H0. apply H0.
      unfold history_inv. split_and!; try done; try lia.
      - intros i x y Hx. unfold len in Hlen.
        destruct (entries h); [by destruct i | cbn in Hlen; lia].
      - unfold len in Hlen. destruct (entries h); [done | cbn in Hlen; lia]. }
    unfold len in *.
    destruct (entries (Add (Add h command) command)); [|cbn in *; lia].
    destruct (entries (Add h command)); [done | cbn in *; lia].
  - rewrite (Add_repeated (Add h command)); [done|]. rewrite He.
    case_match; [|apply last_snoc].
    apply last_drop_snoc. rewrite length_app in *. cbn in *.
    unfold len in *. lia.
Qed.

(** C3: along every sequence of [Add] calls on a history created with
    capacity [maxEntries], the stored sequence is never longer than
    [maxEntries] and no two neighbours in it are equal.  An [Add] of a
    command that is neither blank nor equal to the last stored entry
    stores the trimmed command at the end: below capacity nothing is
    dropped, at capacity exactly the oldest entry is dropped (so the new
    command is the last entry whenever the capacity is at least one).
    Blank input and input equal to the last stored entry change nothing,
    and the same input recorded twice in a row is stored at most once. *)
Theorem history_bounded_without_adjacent_duplicates (capacity : Z)
  (h0 : CommandHistory) (commands : list string) :
  NewCommandHistory capacity = Some h0 →
  let h := foldl Add h0 commands in
  len h ≤ capacity ∧
  no_adjacent_dup (entries h) ∧
  (∀ command,
     TrimSpace command ≠ "" →
     last (entries h) ≠ Some (TrimSpace command) →
     (len h < capacity →
      entries (Add h command) = entries h ++ [TrimSpace command]) ∧
     (len h = capacity →
      entries (Add h command) = drop 1 (entries h ++ [TrimSpace command])) ∧
     (1 ≤ capacity → last (entries (Add h command)) = Some (TrimSpace command))) ∧
  (∀ command, TrimSpace command = "" → Add h command = h) ∧
  (∀ command, last (entries h) = Some command → Add h command = h) ∧
  (∀ command, entries (Add (Add h command) command) = entries (Add h command)).
Proof.
  intros Hnew h.
  pose proof (foldl_Add_inv capacity commands h0
                (NewCommandHistory_inv _ _ Hnew)) as Hinv.
  fold h in Hinv.
  assert (∀ command,
            entries (Add (Add h command) command) = entries (Add h command))
    as Htwice by (intros command; by apply (Add_twice capacity)).
  destruct Hinv as (Hmax & Hpos & Hlen & Hdup & Htrim).
  split; [done|]. split; [done|]. split; [|split; [|split; [|done]]].
  - intros command Hb Hl.
    destruct (Add_appended h command Hb Hl) as [He _]. cbn zeta in He.
    rewrite He, Hmax, length_app. clear He. unfold len in *. cbn [length].
    destruct (Z.gtb_spec (Z.of_nat (length (entries h) + 1)) capacity)
      as [Hover|Hfits].
    + split_and!.
      * intros Hroom. lia.
      * intros Hfull. f_equal. lia.
      * intros Hone. apply last_drop_snoc. rewrite length_app. cbn. lia.
    + split_and!.
      * done.
      * intros Hfull. lia.
      * intros Hone. apply last_snoc.
  - intros command. apply Add_blank.
  - intros command Hlast. apply Add_repeated.
    rewrite Forall_forall in Htrim. rewrite (Htrim command); [done|].
    rewrite last_lookup in Hlast. by apply list_elem_of_lookup_2 in Hlast.
Qed.

Lemma history_bounded_without_adjacent_duplicates_witness :
  let h0 := {| entries := []; maxEntries := 2; currentIndex := -1; savePath := "" |} in
  let h := foldl Add h0 ["ls"; " ls "; "cd /"; "   "; "pwd"] in
  entries h = ["cd /"; "pwd"] ∧ len h ≤ 2 ∧ no_adjacent_dup (entries h) ∧
  Add h "pwd" = h ∧
  entries (Add h " make ") = drop 1 (entries h ++ ["make"]).
Proof.
  intros h0 h.
  destruct (history_bounded_without_adjacent_duplicates 2 h0
              ["ls"; " ls "; "cd /"; "   "; "pwd"])
    as (Hlen & Hdup & Hstore & _ & Hrep & _); [reflexivity|].
  split; [reflexivity|]. split; [exact Hlen|]. split; [exact Hdup|].
  split; [apply Hrep; reflexivity|].
  destruct (Hstore " make ") as (_ & Hfull & _);
    [by vm_compute | by vm_compute |].
  apply Hfull. reflexivity.
Defined.

(** ** Navigation *)

Lemma set_index_set_index h i j : set_index (set_index h i) j = set_index h j.
Proof. done. Qed.

Lemma set_index_current h : set_index h (currentIndex h) = h.
Proof. by destruct h. Qed.

Lemma at_index_in_range h i :
  0 ≤ i < len h → ∃ s, at_index h i = Some s.
Proof.
  intros [Hlo Hhi]. unfold at_index, len in *.
  destruct (Z.ltb_spec i 0); [lia|].
  destruct (lookup_lt_is_Some_2 (entries h) (Z.to_nat i)) as [s Hs]; [lia|].
  by exists s.
Qed.

Lemma Previous_in_range h :
  0 < currentIndex h ≤ len h →
  ∃ s, Previous h = Some (s, true, set_index h (currentIndex h - 1)).
Proof.
  intros [Hlo Hhi]. unfold Previous.
  destruct (Z.eqb_spec (len h) 0); [lia|].
  destruct (Z.leb_spec (currentIndex h) 0); [lia|]. cbn [orb].
  destruct (at_index_in_range (set_index h (currentIndex h - 1))
              (currentIndex h - 1)) as [s Hs].
  { unfold len in *. cbn. lia. }
  exists s. cbn [currentIndex set_index] in *. by rewrite Hs.
Qed.

Lemma Next_in_range h :
  0 ≤ currentIndex h < len h →
  ∃ s, Next h = Some (s, true, set_index h (currentIndex h + 1)) ∧
       (currentIndex h + 1 = len h → s = "").
Proof.
  intros [Hlo Hhi]. unfold Next.
  destruct (Z.eqb_spec (len h) 0); [lia|].
  destruct (Z.geb_spec (currentIndex h) (len h)); [lia|]. cbn [orb].
  change (len (set_index h (currentIndex h + 1))) with (len h).
  change (currentIndex (set_index h (currentIndex h + 1)))
    with (currentIndex h + 1).
  destruct (Z.eqb_spec (currentIndex h + 1) (len h)) as [Heq|Hne].
  - exists "". rewrite set_index_set_index, Heq. done.
  - destruct (at_index_in_range (set_index h (currentIndex h + 1))
                (currentIndex h + 1)) as [s Hs].
    { change (len (set_index h (currentIndex h + 1))) with (len h). lia. }
    exists s. rewrite Hs. done.
Qed.

Lemma Next_past_the_end h :
  currentIndex h = len h → Next h = Some ("", false, h).
Proof.
  intros Hc. unfold Next.
  destruct (Z.geb_spec (currentIndex h) (len h)); [|lia].
  by rewrite orb_true_r.
Qed.

Lemma navigate_Previous k : ∀ h,
  Z.of_nat k ≤ currentIndex h ≤ len h →
  ∃ rs, navigate Previous k h
          = Some (rs, set_index h (currentIndex h - Z.of_nat k)) ∧
        Forall (λ r, r.2 = true) rs.
Proof.
  induction k as [|k IH]; intros h Hr.
  { exists []. cbn. by rewrite Z.sub_0_r, set_index_current. }
  destruct (Previous_in_range h) as [s Hs]; [lia|].
  destruct (IH (set_index h (currentIndex h - 1))) as (rs & Hrs & Hok).
  { change (len (set_index h (currentIndex h - 1))) with (len h). cbn. lia. }
  exists ((s, true) :: rs). cbn [navigate]. rewrite Hs. cbn. rewrite Hrs. cbn.
  split; [|by constructor].
  rewrite set_index_set_index. do 3 f_equal. lia.
Qed.

Lemma navigate_Next k : ∀ h,
  0 ≤ currentIndex h → currentIndex h + Z.of_nat k ≤ len h →
  ∃ rs, navigate Next k h
          = Some (rs, set_index h (currentIndex h + Z.of_nat k)) ∧
        Forall (λ r, r.2 = true) rs ∧
        ((1 ≤ k)%nat → currentIndex h + Z.of_nat k = len h →
         last rs = Some ("", true)).
Proof.
  induction k as [|k IH]; intros h Hlo Hhi.
  { exists []. cbn. rewrite Z.add_0_r, set_index_current.
    split; [done|]. split; [done | lia]. }
  destruct (Next_in_range h) as (s & Hs & Hempty); [lia|].
  destruct (IH (set_index h (currentIndex h + 1))) as (rs & Hrs & Hok & Hlast).
  { cbn. lia. }
  { change (len (set_index h (currentIndex h + 1))) with (len h). cbn. lia. }
  exists ((s, true) :: rs). cbn [navigate]. rewrite Hs. cbn. rewrite Hrs. cbn.
  split; [|split].
  - rewrite set_index_set_index. do 3 f_equal. lia.
  - by constructor.
  - intros _ Hend. destruct k as [|k].
    + cbn in Hrs. injection Hrs as <- _. cbn. rewrite Hempty; [done | lia].
    + change (len (set_index h (currentIndex h + 1))) with (len h) in Hlast.
      cbn [currentIndex set_index] in Hlast.
      specialize (Hlast ltac:(lia) ltac:(lia)).
      destruct rs as [|r rs]; [discriminate|]. exact Hlast.
Qed.

(** C7: from a history whose cursor is past the end, [k] calls of
    [Previous] (for [k] between 1 and the number of entries) all succeed,
    the [k] calls of [Next] that follow all succeed, the last of them
    yielding the empty string, and the history is then exactly as it was,
    cursor past the end; one more [Next] fails. *)
Theorem Previous_then_Next_round_trip (h : CommandHistory) (k : nat) :
  currentIndex h = len h →
  (1 ≤ k)%nat →
  Z.of_nat k ≤ len h →
  ∃ rp h1 rn h2,
    navigate Previous k h = Some (rp, h1) ∧
    Forall (λ r, r.2 = true) rp ∧
    navigate Next k h1 = Some (rn, h2) ∧
    Forall (λ r, r.2 = true) rn ∧
    last rn = Some ("", true) ∧
    h2 = h ∧ currentIndex h2 = len h2 ∧
    Next h2 = Some ("", false, h2).
Proof.
  intros Hc Hk1 Hkn.
  destruct (navigate_Previous k h) as (rp & Hrp & Hokp); [lia|].
  set (h1 := set_index h (currentIndex h - Z.of_nat k)) in *.
  destruct (navigate_Next k h1) as (rn & Hrn & Hokn & Hlast).
  { unfold h1. cbn. lia. }
  { unfold h1. change (len (set_index h _)) with (len h). cbn. lia. }
  assert (set_index h1 (currentIndex h1 + Z.of_nat k) = h) as Hback.
  { unfold h1. rewrite set_index_set_index. cbn [currentIndex set_index].
    replace (currentIndex h - Z.of_nat k + Z.of_nat k) with (currentIndex h) by lia.
    apply set_index_current. }
  rewrite Hback in Hrn.
  exists rp, h1, rn, h. split_and!; try done.
  - apply Hlast; [done|]. unfold h1.
    change (len (set_index h _)) with (len h). cbn. lia.
  - by apply Next_past_the_end.
Qed.

Lemma Previous_then_Next_round_trip_witness :
  let h := {| entries := ["ls"; "cd /"; "pwd"]; maxEntries := 100;
              currentIndex := 3; savePath := "" |} in
  navigate Previous 2 h
    = Some ([("pwd", true); ("cd /", true)], set_index h 1) ∧
  navigate Next 2 (set_index h 1) = Some ([("pwd", true); ("", true)], h) ∧
  ∃ rp h1 rn h2,
    navigate Previous 2 h = Some (rp, h1) ∧
    Forall (λ r, r.2 = true) rp ∧
    navigate Next 2 h1 = Some (rn, h2) ∧
    Forall (λ r, r.2 = true) rn ∧
    last rn = Some ("", true) ∧
    h2 = h ∧ currentIndex h2 = len h2 ∧
    Next h2 = Some ("", false, h2).
Proof.
  intros h. split; [reflexivity|]. split; [reflexivity|].
  apply (Previous_then_Next_round_trip h 2); [reflexivity | lia | ].
  vm_compute. discriminate.
Defined.

(** ** Completion *)

Lemma is_prefix_refl s : is_prefix s s.
Proof.
  exists "". induction s as [|c s IH]; [done|].
  rewrite append_String. by rewrite <- IH.
Qed.

Lemma is_prefix_empty s : is_prefix "" s.
Proof. by exists s. Qed.

Lemma is_prefix_String a p b s :
  is_prefix (String a p) (String b s) ↔ a = b ∧ is_prefix p s.
Proof.
  split.
  - intros [rest Hr]. rewrite append_String in Hr. injection Hr as -> ->.
    split; [done | by exists rest].
  - intros [-> [rest ->]]. exists rest. by rewrite append_String.
Qed.

Lemma is_prefix_of_empty p : is_prefix p "" → p = "".
Proof. intros [rest Hr]. by destruct p. Qed.

Lemma is_prefix_trans p q s : is_prefix p q → is_prefix q s → is_prefix p s.
Proof.
  revert q s. induction p as [|a p IH]; intros q s Hpq Hqs.
  { apply is_prefix_empty. }
  destruct q as [|b q]; [by apply is_prefix_of_empty in Hpq|].
  destruct s as [|c s]; [by apply is_prefix_of_empty in Hqs|].
  apply is_prefix_String in Hpq as [-> Hpq].
  apply is_prefix_String in Hqs as [-> Hqs].
  apply is_prefix_String. split; [done|]. by apply (IH q).
Qed.

Lemma is_prefix_antisym p s : is_prefix p s → is_prefix s p → p = s.
Proof.
  revert s. induction p as [|a p IH]; intros s Hps Hsp.
  { symmetry. by apply is_prefix_of_empty. }
  destruct s as [|b s]; [by apply is_prefix_of_empty in Hps|].
  apply is_prefix_String in Hps as [-> Hps].
  apply is_prefix_String in Hsp as [_ Hsp]. f_equal. by apply IH.
Qed.

Lemma HasPrefix_is_prefix s p : HasPrefix s p = true ↔ is_prefix p s.
Proof.
  unfold HasPrefix. revert s. induction p as [|a p IH]; intros s.
  { split; [intros _; apply is_prefix_empty | by destruct s]. }
  destruct s as [|b s].
  { split; [done | by intros ?%is_prefix_of_empty]. }
  rewrite is_prefix_String. simpl. destruct (ascii_dec a b) as [->|Hne].
  - rewrite IH. split; [by intros H | by intros [_ H]].
  - split; [done | by intros [? _]].
Qed.

Lemma common_prefix_l p s : is_prefix (common p s) p.
Proof.
  revert s. induction p as [|a p IH]; intros s; cbn.
  { apply is_prefix_empty. }
  destruct s as [|b s]; [apply is_prefix_empty|].
  destruct (decide (a = b)); [|apply is_prefix_empty].
  apply is_prefix_String. split; [done | apply IH].
Qed.

Lemma common_prefix_r p s : is_prefix (common p s) s.
Proof.
  revert s. induction p as [|a p IH]; intros s; cbn.
  { apply is_prefix_empty. }
  destruct s as [|b s]; [apply is_prefix_empty|].
  destruct (decide (a = b)) as [->|]; [|apply is_prefix_empty].
  apply is_prefix_String. split; [done | apply IH].
Qed.

Lemma common_greatest q p s :
  is_prefix q p → is_prefix q s → is_prefix q (common p s).
Proof.
  revert p s. induction q as [|a q IH]; intros p s Hp Hs.
  { apply is_prefix_empty. }
  destruct p as [|b p]; [by apply is_prefix_of_empty in Hp|].
  destruct s as [|c s]; [by apply is_prefix_of_empty in Hs|].
  apply is_prefix_String in Hp as [-> Hp].
  apply is_prefix_String in Hs as [-> Hs].
  cbn. rewrite decide_True by done.
  apply is_prefix_String. split; [done | by apply IH].
Qed.

Lemma foldl_common_longest rest : ∀ x,
  longest_common_prefix (x :: rest) (foldl common x rest).
Proof.
  induction rest as [|y rest IH]; intros x.
  { split.
    - intros s ->%list_elem_of_singleton. apply is_prefix_refl.
    - intros q Hq. apply Hq. by left. }
  cbn [foldl]. destruct (IH (common x y)) as [Hall Hmax]. split.
  - intros s Hs. apply elem_of_cons in Hs as [->|Hs].
    + apply is_prefix_trans with (common x y); [|apply common_prefix_l].
      apply Hall. by left.
    + apply elem_of_cons in Hs as [->|Hs].
      * apply is_prefix_trans with (common x y); [|apply common_prefix_r].
        apply Hall. by left.
      * apply Hall. by right.
  - intros q Hq. apply Hmax. intros s Hs.
    apply elem_of_cons in Hs as [->|Hs].
    + apply common_greatest; apply Hq; [by left | right; by left].
    + apply Hq. right. by right.
Qed.

Lemma findCommonPrefix_longest l :
  l ≠ [] → longest_common_prefix l (findCommonPrefix l).
Proof.
  destruct l as [|x rest]; [done|]. intros _.
  replace (findCommonPrefix (x :: rest)) with (foldl common x rest)
    by by destruct rest.
  apply foldl_common_longest.
Qed.

Lemma Complete_local ac order text :
  let t := TrimSpace text in
  let found := filter (λ cmd, HasPrefix cmd t = true) order in
  t ≠ "" → Contains t "." = false → found ≠ [] →
  Complete ac order text = (found, findCommonPrefix found, ac, []).
Proof.
  intros t found Ht Hdot Hfound. unfold Complete. fold t.
  rewrite decide_False by done. rewrite Hdot. cbn [negb]. fold found.
  destruct found as [|x rest]; [done|]. cbn [length].
  replace (0 <? Z.of_nat (S (length rest))) with true; [done|].
  symmetry. apply Z.ltb_lt. lia.
Qed.

Lemma found_local ac order t cmd :
  range_order ac order →
  cmd ∈ filter (λ cmd, HasPrefix cmd t = true) order
  ↔ is_local ac cmd ∧ is_prefix t cmd.
Proof.
  intros [_ Horder]. rewrite list_elem_of_filter, HasPrefix_is_prefix.
  unfold is_local. rewrite <- Horder. tauto.
Qed.

Lemma is_prefix_prefixes p s : is_prefix p s → p ∈ prefixes s.
Proof.
  revert p. induction s as [|c s IH]; intros p Hp.
  { apply is_prefix_of_empty in Hp as ->. by left. }
  destruct p as [|a p]; [by left|].
  apply is_prefix_String in Hp as [-> Hp]. cbn. right.
  apply list_elem_of_fmap_2. by apply IH.
Qed.

Lemma standard_prefixes_trimmed :
  Forall (λ cmd, Forall (λ x, TrimSpace x = x) (prefixes cmd)) standardCommands.
Proof. unfold standardCommands. repeat constructor. Qed.

Lemma standard_prefix_trimmed ac cmd text :
  localCommands ac = localCommands (NewAutoCompleter None) →
  is_local ac cmd → is_prefix text cmd → TrimSpace text = text.
Proof.
  intros Hstd [v Hcmd] Hp. rewrite Hstd in Hcmd.
  unfold NewAutoCompleter in Hcmd. cbn [localCommands] in Hcmd.
  apply elem_of_list_to_map_2 in Hcmd.
  apply list_elem_of_fmap in Hcmd as (c & [= -> _] & Hc).
  pose proof standard_prefixes_trimmed as Hall.
  rewrite Forall_forall in Hall. specialize (Hall _ Hc).
  rewrite Forall_forall in Hall. by apply Hall, is_prefix_prefixes.
Qed.

(** On the empty input the suggestions are all local commands, in range
    order, followed by what the fallback handler (if any) suggests. *)
Lemma Complete_blank ac order :
  suggestions_of (Complete ac order "") =
    order ++ match fallbackHandler ac with
             | Some handler => (handler "").1.1
             | None => []
             end.
Proof.
  unfold Complete. change (TrimSpace "") with "". cbn.
  destruct (fallbackHandler ac) as [handler|]; [|by rewrite app_nil_r].
  by destruct (handler "") as [[s p] e].
Qed.

(** C8: for an input whose trimmed text [t] is not empty and has no '.',
    if some local command starts with [t], [Complete] returns exactly the
    local commands that start with [t] and their longest common prefix,
    without calling the fallback handler (and without touching the cache);
    with the commands of [NewAutoCompleter] this holds of the input as
    typed.  [Complete("")] returns at least every local command, and when
    [connect] is a local command, [Complete("connect")] returns it among
    the suggestions, with common prefix [connect]. *)
Theorem Complete_local_matches_first (ac : AutoCompleter) (order : list string)
  (text : string) :
  range_order ac order →
  let t := TrimSpace text in
  (t ≠ "" → Contains t "." = false →
   (∃ cmd, is_local ac cmd ∧ is_prefix t cmd) →
   ∃ found p,
     Complete ac order text = (found, p, ac, []) ∧
     NoDup found ∧
     (∀ cmd, cmd ∈ found ↔ is_local ac cmd ∧ is_prefix t cmd) ∧
     longest_common_prefix found p) ∧
  (localCommands ac = localCommands (NewAutoCompleter None) →
   t ≠ "" → Contains text "." = false →
   (∃ cmd, is_local ac cmd ∧ is_prefix text cmd) →
   ∃ found p,
     Complete ac order text = (found, p, ac, []) ∧
     NoDup found ∧
     (∀ cmd, cmd ∈ found ↔ is_local ac cmd ∧ is_prefix text cmd) ∧
     longest_common_prefix found p) ∧
  (∀ cmd, is_local ac cmd → cmd ∈ suggestions_of (Complete ac order "")) ∧
  (is_local ac "connect" →
   "connect" ∈ suggestions_of (Complete ac order "connect") ∧
   common_prefix_of (Complete ac order "connect") = "connect" ∧
   handler_calls_of (Complete ac order "connect") = []).
Proof.
  intros Horder t.
  assert (∀ text', TrimSpace text' ≠ "" → Contains (TrimSpace text') "." = false →
            (∃ cmd, is_local ac cmd ∧ is_prefix (TrimSpace text') cmd) →
            ∃ found p,
              Complete ac order text' = (found, p, ac, []) ∧
              NoDup found ∧
              (∀ cmd, cmd ∈ found ↔ is_local ac cmd ∧ is_prefix (TrimSpace text') cmd) ∧
              longest_common_prefix found p) as Hlocal.
  { intros text' Ht Hdot (cmd & Hcmd & Hpre).
    set (found := filter (λ cmd, HasPrefix cmd (TrimSpace text') = true) order).
    assert (cmd ∈ found) as Hin.
    { apply (proj2 (found_local ac order _ cmd Horder)). by split. }
    assert (found ≠ []) as Hne by (intros Hnil; rewrite Hnil in Hin; inversion Hin).
    exists found, (findCommonPrefix found). split_and!.
    - by apply Complete_local.
    - apply NoDup_filter, Horder.
    - intros c. exact (found_local ac order _ c Horder).
    - by apply findCommonPrefix_longest. }
  split_and!.
  - apply Hlocal.
  - intros Hstd Ht Hdot (cmd & Hcmd & Hpre).
    assert (TrimSpace text = text) as Heq by by eapply standard_prefix_trimmed.
    destruct (Hlocal text) as (found & p & HC & Hnd & Hmem & Hlcp);
      rewrite ?Heq; eauto.
    { fold t in Ht. by rewrite <- Heq. }
    exists found, p. rewrite Heq in Hmem. done.
  - intros cmd Hcmd. rewrite Complete_blank. apply elem_of_app. left.
    by apply Horder.
  - intros Hconnect.
    destruct (Hlocal "connect") as (found & p & HC & Hnd & Hmem & Hall & Hmax).
    { done. }
    { done. }
    { exists "connect". split; [done | apply is_prefix_refl]. }
    change (TrimSpace "connect") with "connect" in Hmem.
    rewrite HC. unfold suggestions_of, common_prefix_of, handler_calls_of. cbn.
    assert ("connect" ∈ found) as Hin.
    { apply Hmem. split; [done | apply is_prefix_refl]. }
    split_and!; [done| |done].
    apply is_prefix_antisym; [by apply Hall|].
    apply Hmax. intros s Hs. by apply Hmem in Hs as [_ Hs].
Qed.

Lemma standard_range_order handler :
  range_order (NewAutoCompleter handler) standardCommands.
Proof.
  assert (NoDup standardCommands) as Hnd.
  { apply (bool_decide_unpack _). by vm_compute. }
  split; [done|]. intros cmd. unfold NewAutoCompleter. cbn [localCommands].
  assert (NoDup ((λ c, (c, true)) <$> standardCommands).*1) as Hnd'.
  { rewrite <- list_fmap_compose. by rewrite list_fmap_id. }
  split.
  - intros Hin. exists true. apply elem_of_list_to_map; [done|].
    by apply (list_elem_of_fmap_2 (λ c, (c, true))).
  - intros [v Hv]. apply elem_of_list_to_map in Hv; [|done].
    by apply list_elem_of_fmap in Hv as (c & [= -> _] & Hc).
Qed.

Lemma Complete_local_matches_first_witness :
  let ac := NewAutoCompleter (Some (λ _, (["Billing.List"], "Billing.List", None))) in
  Complete ac standardCommands " lo" = (["login"; "logout"], "log", ac, []) ∧
  (∃ found p,
     Complete ac standardCommands " lo" = (found, p, ac, []) ∧
     NoDup found ∧
     (∀ cmd, cmd ∈ found ↔ is_local ac cmd ∧ is_prefix (TrimSpace " lo") cmd) ∧
     longest_common_prefix found p) ∧
  "connect" ∈ suggestions_of (Complete ac standardCommands "connect") ∧
  common_prefix_of (Complete ac standardCommands "connect") = "connect" ∧
  handler_calls_of (Complete ac standardCommands "connect") = [].
Proof.
  intros ac.
  destruct (Complete_local_matches_first ac standardCommands " lo"
              (standard_range_order _)) as (Hlocal & _ & _ & Hconnect).
  split; [reflexivity|]. split.
  - apply Hlocal.
    + discriminate.
    + reflexivity.
    + exists "login". split; [exists true | exists "gin"]; reflexivity.
  - apply Hconnect. exists true. reflexivity.
Defined.

(** ** The client session *)

Lemma Close_inv c closeErr : session_inv c → session_inv (Close c closeErr).2.
Proof. intros Hinv. unfold Close. session_cases. Qed.

Lemma Connect_inv c address port useTLS dialErr reply :
  session_inv c → session_inv (Connect c address port useTLS dialErr reply).2.
Proof. intros Hinv. unfold Connect. session_cases. Qed.

Lemma Login_inv c user password reply :
  session_inv c → session_inv (Login c user password reply).2.
Proof. intros Hinv. unfold Login. session_cases. Qed.

Lemma Logout_inv c reply : session_inv c → session_inv (Logout c reply).2.
Proof. intros Hinv. unfold Logout. session_cases. Qed.

Lemma ExecuteCommand_inv c command reply :
  session_inv c → session_inv (ExecuteCommand c command reply).2.
Proof. intros Hinv. unfold ExecuteCommand. session_cases. Qed.

Lemma ExecuteStreamingCommand_unchanged c command openErr stream :
  (ExecuteStreamingCommand c command openErr stream).2 = c.
Proof.
  unfold ExecuteStreamingCommand.
  destruct (client c); [|done]. destruct openErr; [done|].
  by destruct (receive c stream).
Qed.

Lemma KeepAliveTick_inv c reply :
  session_inv c → session_inv (KeepAliveTick c reply).1.2.
Proof. intros Hinv. unfold KeepAliveTick. session_cases. Qed.

Lemma DiscoverServer_inv c closeErr selection dialErr reply :
  session_inv c →
  session_inv (DiscoverServer c closeErr selection dialErr reply).2.
Proof.
  intros Hinv. unfold DiscoverServer.
  set (c1 := match conn c with Some _ => (Close c closeErr).2 | None => c end).
  assert (session_inv c1) as H1.
  { unfold c1. destruct (conn c); [by apply Close_inv | done]. }
  clearbody c1.
  assert (∀ s, session_inv
                 (let '(events, out, c2) :=
                    Connect c1 (Address s) (Port s) (TlsEnabled s) dialErr reply in
                  (Logged "Starting server discovery..." [] :: events, out, c2)).2)
    as Hconn.
  { intros s.
    pose proof (Connect_inv c1 (Address s) (Port s) (TlsEnabled s) dialErr reply H1).
    by destruct (Connect c1 _ _ _ dialErr reply) as [[? ?] ?]. }
  destruct (onServerList c1).
  - destruct selection as [selectedIndex [err|]]; [done|].
    destruct ((0 <=? selectedIndex)
              && (selectedIndex <? Z.of_nat (length knownServers))); [|done].
    destruct (knownServers !! Z.to_nat selectedIndex); [apply Hconn | done].
  - apply Hconn.
Qed.

Lemma perform_inv c op : session_inv c → session_inv (perform c op).2.
Proof.
  intros Hinv. destruct op; cbn [perform].
  - done.
  - by apply DiscoverServer_inv.
  - by apply Connect_inv.
  - by apply Login_inv.
  - by apply Logout_inv.
  - by apply ExecuteCommand_inv.
  - by rewrite ExecuteStreamingCommand_unchanged.
  - done.
  - by apply KeepAliveTick_inv.
  - by apply Close_inv.
Qed.

Lemma run_inv ops : ∀ c c', session_inv c → run c ops = Some c' → session_inv c'.
Proof.
  induction ops as [|op ops IH]; intros c c' Hinv Hrun.
  { by injection Hrun as <-. }
  cbn in Hrun. pose proof (perform_inv c op Hinv) as Hp.
  destruct (perform c op) as [[events [err|]] c1]; [|done].
  by apply (IH c1).
Qed.

Lemma reachable_inv c : reachable c → session_inv c.
Proof. intros [ops Hops]. by apply (run_inv ops NewClient c). Qed.

(** C4, as the code has it: when [Login] is called on a connected client
    and the server answers with a rejection (success flag false), [Login]
    returns the error "login failed: " followed by the server's reason and
    the client is exactly as before: token unchanged (so still empty),
    connection open.  A following [Login] that the server accepts with a
    response that carries the user's information returns no error and
    stores the token of that response, whatever it is, the connection
    being the same: the client is logged in afterwards exactly when that
    token is not empty. *)
Theorem Login_rejection_leaves_session (c : Client) (user password : string)
  (rejection : LoginResponse) :
  reachable c →
  IsConnected c = true →
  login_success rejection = false →
  (∃ events,
     Login c user password (Replied rejection)
       = (events,
          Returned (Some ("login failed: " +:+ login_error_message rejection)),
          c)) ∧
  (∀ user' password' accepted info,
     login_success accepted = true →
     login_user_info accepted = Some info →
     ∃ events c',
       Login c user' password' (Replied accepted) = (events, Returned None, c') ∧
       sessionToken c' = SessionToken accepted ∧
       (IsLoggedIn c' = true ↔ SessionToken accepted ≠ "") ∧
       IsConnected c' = true ∧
       conn c' = conn c ∧ client c' = client c).
Proof.
  intros Hreach Hconn Hrej.
  apply reachable_inv in Hreach. unfold session_inv in Hreach.
  unfold IsConnected in Hconn. apply andb_true_iff in Hconn as [Hc1 Hc2].
  apply bool_decide_eq_true in Hc1, Hc2.
  destruct (conn c) as [cn|] eqn:Econn; [|done].
  destruct Hreach as [[cl Ecl] [si Esi]].
  split.
  - unfold Login. rewrite Ecl, Hrej. cbn. eauto.
  - intros user' password' accepted info Hacc Hinfo.
    unfold Login. rewrite Ecl, Hacc, Hinfo. cbn [negb].
    cbn [onStatusChanged with_token with_session serverInfo]. rewrite Esi.
    destruct (onStatusChanged c); eexists _, _; (split; [reflexivity|]);
      unfold IsLoggedIn, IsConnected; cbn; rewrite Econn, Ecl;
      rewrite !(bool_decide_true (Some _ ≠ None)) by done;
      (split_and!; [done | apply bool_decide_eq_true | done | done | done]).
Qed.

Lemma example_client_reachable : reachable example_client.
Proof. exists example_session. reflexivity. Qed.

Lemma Login_rejection_leaves_session_witness :
  let rejected := {| login_success := false; SessionToken := "";
                     login_error_message := "invalid credentials";
                     login_user_info := None |} in
  let accepted := {| login_success := true; SessionToken := "token-1";
                     login_error_message := "";
                     login_user_info := Some {| DisplayName := "Bob" |} |} in
  (∃ events,
     Login example_client "bob" "bad-pass" (Replied rejected)
       = (events, Returned (Some "login failed: invalid credentials"),
          example_client)) ∧
  (∃ events c',
     Login example_client "bob" "good-pass" (Replied accepted)
       = (events, Returned None, c') ∧
     sessionToken c' = "token-1" ∧ IsLoggedIn c' = true ∧
     IsConnected c' = true ∧
     conn c' = conn example_client ∧ client c' = client example_client).
Proof.
  intros rejected accepted.
  destruct (Login_rejection_leaves_session example_client "bob" "bad-pass"
              rejected example_client_reachable) as [Hrej Hacc];
    [reflexivity | reflexivity |].
  split; [exact Hrej|].
  destruct (Hacc "bob" "good-pass" accepted {| DisplayName := "Bob" |})
    as (events & c' & HL & Htok & Hin & Hconn & Hc & Hcl);
    [reflexivity | reflexivity |].
  exists events, c'. split_and!; try done. by apply Hin.
Defined.

(** C4, as stated, fails: after a rejection, a [Login] that the server
    accepts with an empty token returns no error, and the token stored is
    empty, so the client is not logged in. *)
Lemma Login_accepted_with_empty_token :
  let rejected := {| login_success := false; SessionToken := "";
                     login_error_message := "invalid credentials";
                     login_user_info := None |} in
  let accepted := {| login_success := true; SessionToken := "";
                     login_error_message := "";
                     login_user_info := Some {| DisplayName := "Bob" |} |} in
  IsConnected example_client = true ∧
  (Login example_client "bob" "bad-pass" (Replied rejected)).2 = example_client ∧
  ∃ events c',
    Login example_client "bob" "good-pass" (Replied accepted)
      = (events, Returned None, c') ∧
    sessionToken c' = "" ∧ IsLoggedIn c' = false.
Proof. cbn zeta. split_and!; [reflexivity | reflexivity |]. by eexists _, _. Qed.

Lemma receive_stream_of c messages ending :
  receive c (stream_of messages ending)
  = (flat_map (process_output c) messages ++ (receive c ending).1,
     (receive c ending).2).
Proof.
  unfold stream_of. induction messages as [|m messages IH]; cbn [foldr].
  { by destruct (receive c ending). }
  cbn [receive]. rewrite IH. cbn. by rewrite app_assoc.
Qed.

Lemma outputs_app e1 e2 : outputs (e1 ++ e2) = outputs e1 ++ outputs e2.
Proof. unfold outputs. apply omap_app. Qed.

Lemma outputs_process_output c m :
  onOutputReceived c = true → outputs (process_output c m) = forwarded m.
Proof.
  intros Hcb. unfold process_output, forwarded, emit. rewrite Hcb.
  by destruct (output_type m).
Qed.

Lemma outputs_flat_map c messages :
  onOutputReceived c = true →
  outputs (flat_map (process_output c) messages) = flat_map forwarded messages.
Proof.
  intros Hcb. induction messages as [|m messages IH]; [done|].
  cbn. by rewrite outputs_app, IH, outputs_process_output.
Qed.

Lemma receive_rounds_events c stream :
  (receive c stream).1 = concat (receive_rounds c stream).*2.
Proof.
  induction stream as [|err|output rest IH]; [done | done |].
  cbn [receive receive_rounds fmap list_fmap concat snd].
  rewrite <- IH. by destruct (receive c rest).
Qed.

Lemma receive_rounds_stream_of c messages ending :
  receive_rounds c (stream_of messages ending)
  = ((λ m, (GotMessage m, process_output c m)) <$> messages)
    ++ receive_rounds c ending.
Proof.
  unfold stream_of. induction messages as [|m messages IH]; [done|].
  cbn [foldr receive_rounds fmap list_fmap app]. by rewrite IH.
Qed.

Lemma process_output_handled c m :
  onOutputReceived c = true → process_output c m = handled m.
Proof.
  intros Hcb. unfold process_output, handled, emit. rewrite Hcb.
  by destruct (output_type m).
Qed.

Lemma outputs_handled m : outputs (handled m) = forwarded m.
Proof. unfold handled, forwarded. by destruct (output_type m). Qed.

(** C5, as the code has it: with the output callback set, the messages of
    a stream are handled in the order received and as they arrive: the
    i-th iteration of the receive loop receives the i-th message and,
    before anything more is received, forwards its text to the sink if it
    is a TEXT message, logs it if it is a STATUS_UPDATE message (nothing
    is forwarded), logs it and forwards "Error: " and its text if it is an
    ERROR message, logs it and forwards "Completed: " and its text if it
    is a COMPLETION message, and does nothing if its type is none of
    these.  What the call logs and forwards is what its iterations do, in
    order.  The end of the stream is logged and ends the call without
    error; a transport error is logged and ends it with the error "error
    receiving streaming data: ...", after the messages received before it
    were handled.  The stream TEXT a, STATUS_UPDATE 50%, TEXT b,
    COMPLETION done forwards "a", "b", "Completed: done". *)
Theorem ExecuteStreamingCommand_forwards_in_order (c : Client)
  (command : string) (messages : list CommandOutput) :
  IsConnected c = true →
  onOutputReceived c = true →
  let started := Logged "Executing streaming command: %s" [AString command] in
  let received := (λ m, (GotMessage m, handled m)) <$> messages in
  (∀ ending,
     (ExecuteStreamingCommand c command None (stream_of messages ending)).1.1
     = started :: concat (receive_rounds c (stream_of messages ending)).*2) ∧
  (receive_rounds c (stream_of messages EndOfStream)
   = received ++ [(GotEOF, [Logged "Streaming command completed" []])] ∧
   ∃ events,
     ExecuteStreamingCommand c command None (stream_of messages EndOfStream)
       = (events, Returned None, c) ∧
     events = started :: flat_map handled messages
                ++ [Logged "Streaming command completed" []] ∧
     outputs events = flat_map forwarded messages) ∧
  (∀ err,
     receive_rounds c (stream_of messages (Broken err))
     = received
       ++ [(GotError err,
            [Logged "Error receiving streaming data: %v" [AString err]])] ∧
     ∃ events,
       ExecuteStreamingCommand c command None (stream_of messages (Broken err))
         = (events,
            Returned (Some ("error receiving streaming data: " +:+ err)), c) ∧
       events = started :: flat_map handled messages
                  ++ [Logged "Error receiving streaming data: %v" [AString err]] ∧
       outputs events = flat_map forwarded messages) ∧
  (messages = [text_message TEXT "a"; text_message STATUS_UPDATE "50%";
               text_message TEXT "b"; text_message COMPLETION "done"] →
   ∃ events,
     ExecuteStreamingCommand c command None (stream_of messages EndOfStream)
       = (events, Returned None, c) ∧
     outputs events = ["a"; "b"; "Completed: done"]).
Proof.
  intros Hconn Hcb started received.
  unfold IsConnected in Hconn. apply andb_true_iff in Hconn as [_ Hcl].
  apply bool_decide_eq_true in Hcl.
  destruct (client c) as [cl|] eqn:Ecl; [|done].
  assert ((λ m, (GotMessage m, process_output c m)) <$> messages = received)
    as Hreceived.
  { unfold received. apply list_fmap_ext. intros _ m _.
    by rewrite process_output_handled. }
  assert (flat_map (process_output c) messages = flat_map handled messages)
    as Hhandled.
  { induction messages as [|m messages IH]; [done|]. cbn.
    rewrite process_output_handled by done. f_equal. apply IH.
    unfold received. apply list_fmap_ext. intros _ m' _.
    by rewrite process_output_handled. }
  assert (outputs (flat_map handled messages) = flat_map forwarded messages)
    as Hforwarded.
  { clear. induction messages as [|m messages IH]; [done|]. cbn.
    by rewrite outputs_app, outputs_handled, IH. }
  assert (∀ ending final err,
            receive c ending = (final, err) → outputs final = [] →
            ∃ events,
              ExecuteStreamingCommand c command None (stream_of messages ending)
                = (events, Returned err, c) ∧
              events = started :: flat_map handled messages ++ final ∧
              outputs events = flat_map forwarded messages) as Hgen.
  { intros ending final err Hend Hout. unfold ExecuteStreamingCommand.
    rewrite Ecl, receive_stream_of, Hend. cbn [fst snd]. rewrite Hhandled.
    eexists. split; [reflexivity|]. split; [reflexivity|].
    change (outputs (flat_map handled messages ++ final)
            = flat_map forwarded messages).
    by rewrite outputs_app, Hforwarded, Hout, app_nil_r. }
  split_and!.
  - intros ending. unfold ExecuteStreamingCommand. rewrite Ecl.
    rewrite <- receive_rounds_events.
    by destruct (receive c (stream_of messages ending)).
  - by rewrite receive_rounds_stream_of, Hreceived.
  - eapply (Hgen EndOfStream); reflexivity.
  - intros err. split; [by rewrite receive_rounds_stream_of, Hreceived|].
    eapply (Hgen (Broken err)); reflexivity.
  - intros Hm.
    destruct (Hgen EndOfStream _ None eq_refl eq_refl) as (events & He & _ & Ho).
    exists events. split; [done|]. by rewrite Ho, Hm.
Qed.

Lemma ExecuteStreamingCommand_forwards_in_order_witness :
  let messages := [text_message TEXT "a"; text_message STATUS_UPDATE "50%";
                   text_message TEXT "b"; text_message COMPLETION "done"] in
  (∃ events,
     ExecuteStreamingCommand example_client "Build.Run" None
       (stream_of messages EndOfStream)
       = (events, Returned None, example_client) ∧
     outputs events = ["a"; "b"; "Completed: done"]) ∧
  (∃ events,
     ExecuteStreamingCommand example_client "Build.Run" None
       (stream_of messages (Broken "connection reset"))
       = (events,
          Returned (Some "error receiving streaming data: connection reset"),
          example_client) ∧
     outputs events = ["a"; "b"; "Completed: done"]).
Proof.
  intros messages.
  destruct (ExecuteStreamingCommand_forwards_in_order example_client
              "Build.Run" messages) as (_ & _ & Hbroken & Hexample);
    [reflexivity | reflexivity |].
  split.
  - apply Hexample. reflexivity.
  - destruct (Hbroken "connection reset") as (_ & events & He & _ & Ho).
    by exists events.
Defined.

(** C5, as stated, fails: a status update is logged, not forwarded. *)
Lemma status_update_is_not_forwarded :
  let update := {| output_type := STATUS_UPDATE; Content := "50%";
                   ProgressPercent := 50 |} in
  ExecuteStreamingCommand example_client "Build.Run" None
    (stream_of [update] EndOfStream)
  = ([Logged "Executing streaming command: %s" [AString "Build.Run"];
      Logged "Status update: %s (%d%%)" [AString "50%"; AInt 50];
      Logged "Streaming command completed" []],
     Returned None, example_client) ∧
  onOutputReceived example_client = true ∧
  outputs (ExecuteStreamingCommand example_client "Build.Run" None
             (stream_of [update] EndOfStream)).1.1 = [].
Proof. cbn zeta. split_and!; reflexivity. Qed.

(** C6, as the code has it: from every reachable state, [Close] leaves the
    connection handle, the stub, the session token and the server
    information at their [NewClient] values and keeps the service context
    ([lastServiceUsed]).  It returns what closing the transport returns
    (its error, if any) when the client was connected, and no error when
    it was not; a [Close] right after it returns no error and changes
    nothing. *)
Theorem Close_resets_connection_and_token (ops : list Op) (c : Client)
  (closeErr : option string) :
  run NewClient ops = Some c →
  ∃ c',
    Close c closeErr
    = ([], Returned (if IsConnected c then closeErr else None), c') ∧
    conn c' = conn NewClient ∧
    client c' = client NewClient ∧
    sessionToken c' = sessionToken NewClient ∧
    serverInfo c' = serverInfo NewClient ∧
    lastServiceUsed c' = lastServiceUsed c ∧
    (∀ closeErr', Close c' closeErr' = ([], Returned None, c')).
Proof.
  intros Hrun.
  assert (session_inv c) as Hinv by (apply reachable_inv; by exists ops).
  unfold session_inv in Hinv. unfold Close, IsConnected.
  destruct (conn c) as [cn|] eqn:Econn.
  - destruct Hinv as [[cl Hcl] _]. rewrite Hcl.
    eexists. split; [reflexivity|]. by split_and!.
  - destruct Hinv as (Hcl & Htok & Hinfo).
    exists c. split; [reflexivity|]. split_and!; try done.
    intros closeErr'. by rewrite Econn.
Qed.

Lemma Close_resets_connection_and_token_witness :
  ∃ c',
    Close example_client (Some "transport is closing")
    = ([], Returned (Some "transport is closing"), c') ∧
    conn c' = conn NewClient ∧
    client c' = client NewClient ∧
    sessionToken c' = sessionToken NewClient ∧
    serverInfo c' = serverInfo NewClient ∧
    lastServiceUsed c' = lastServiceUsed example_client ∧
    (∀ closeErr', Close c' closeErr' = ([], Returned None, c')).
Proof.
  apply (Close_resets_connection_and_token example_session example_client
           (Some "transport is closing")).
  reflexivity.
Defined.

(** C6, as stated, fails: [Close] keeps the service context. *)
Lemma Close_keeps_service_context :
  let used := OpExecuteCommand "Billing.List"
                (Replied {| command_success := true; command_error_message := "";
                            Output := "3 invoices"; command_status_info := None;
                            NewContext := "Billing" |}) in
  ∃ c, run NewClient (example_session ++ [used; OpClose None]) = Some c ∧
       conn c = None ∧ sessionToken c = "" ∧
       lastServiceUsed c = "Billing" ∧
       lastServiceUsed c ≠ lastServiceUsed NewClient.
Proof. cbn zeta. eexists. split; [reflexivity|]. by split_and!. Qed.

(** * Further properties of the code *)

(** ** More on the alias table *)

(** X1: [AddAlias] succeeds exactly when the table has room (fewer than
    [maxCount] aliases), the name holds neither a space nor a period, and
    the name is not stored yet.  On success [GetAlias] returns the new
    command, the count grows by one and every other name keeps what it
    had; on every error the table is unchanged, so an alias that exists is
    never overwritten. *)
Theorem AddAlias_effect (am : AliasManager) (alias command : string) :
  ((AddAlias am alias command).1 = None ↔
     alias_count am < maxCount am ∧ Contains alias " " = false ∧
     Contains alias "." = false ∧ aliases am !! alias = None) ∧
  ((AddAlias am alias command).1 = None →
     GetAlias (AddAlias am alias command).2 alias = (command, true) ∧
     alias_count (AddAlias am alias command).2 = alias_count am + 1 ∧
     maxCount (AddAlias am alias command).2 = maxCount am ∧
     ∀ other, other ≠ alias →
       GetAlias (AddAlias am alias command).2 other = GetAlias am other) ∧
  ((AddAlias am alias command).1 ≠ None → (AddAlias am alias command).2 = am) ∧
  (∀ old, aliases am !! alias = Some old →
     GetAlias (AddAlias am alias command).2 alias = (old, true)).
Proof.
  unfold AddAlias, GetAlias, alias_count.
  destruct (Z.geb_spec (Z.of_nat (size (aliases am))) (maxCount am))
    as [Hfull|Hroom];
    [|destruct (Contains alias " ") eqn:Hsp;
      [|destruct (Contains alias ".") eqn:Hdot;
        [|destruct (aliases am !! alias) as [old|] eqn:Hl]]];
    cbn [orb fst snd aliases maxCount]; rewrite ?Hl.
  - split_and!; [split; [done | lia] | done | done | by intros old ->].
  - split_and!; [split; [done | by intros (_ & ? & _)] | done | done
                | by intros old ->].
  - split_and!; [split; [done | by intros (_ & _ & ? & _)] | done | done
                | by intros old ->].
  - split_and!; [split; [done | by intros (_ & _ & _ & ?)] | done | done
                | by intros ? [= ->]].
  - split_and!; [split; [by intros _ | done] | | done | done].
    intros _. rewrite lookup_insert_eq. split_and!; [done | | done |].
    + rewrite map_size_insert_None by done. lia.
    + intros other Hne. by rewrite lookup_insert_ne.
Qed.

Lemma AddAlias_effect_witness :
  let am := (AddAlias (NewAliasManager 2) "ll" "Files.List").2 in
  GetAlias am "ll" = ("Files.List", true) ∧
  alias_count am = 1 ∧
  GetAlias (AddAlias am "ll" "Other").2 "ll" = ("Files.List", true).
Proof.
  pose proof (AddAlias_effect (NewAliasManager 2) "ll" "Files.List")
    as (_ & Hok & _ & _).
  destruct (Hok eq_refl) as (Hget & Hcount & _ & _).
  cbn zeta. split; [exact Hget|]. split; [exact Hcount|].
  pose proof (AddAlias_effect (AddAlias (NewAliasManager 2) "ll" "Files.List").2
                "ll" "Other") as (_ & _ & _ & Hold).
  apply Hold. reflexivity.
Defined.

(** X2: [RemoveAlias] of a name that is not stored returns
    [ErrAliasNotFound] and leaves the table as it is; of a stored name it
    returns no error, the name is gone, the count drops by one and every
    other name keeps what it had.  Removing an alias right after adding it
    gives the table back as it was. *)
Theorem RemoveAlias_effect (am : AliasManager) (alias : string) :
  (aliases am !! alias = None →
     RemoveAlias am alias = (Some (ErrAliasNotFound alias), am)) ∧
  (is_Some (aliases am !! alias) →
     (RemoveAlias am alias).1 = None ∧
     GetAlias (RemoveAlias am alias).2 alias = ("", false) ∧
     alias_count (RemoveAlias am alias).2 = alias_count am - 1 ∧
     ∀ other, other ≠ alias →
       GetAlias (RemoveAlias am alias).2 other = GetAlias am other) ∧
  (∀ command, (AddAlias am alias command).1 = None →
     RemoveAlias (AddAlias am alias command).2 alias = (None, am)).
Proof.
  split_and!.
  - intros Hl. unfold RemoveAlias. by rewrite Hl.
  - intros [old Hl]. unfold RemoveAlias, GetAlias, alias_count. rewrite Hl. cbn.
    rewrite lookup_delete_eq. split_and!; try done.
    + rewrite map_size_delete_Some by done.
      assert (size (aliases am) ≠ 0%nat); [|lia].
      intros Hz. apply map_size_empty_iff in Hz. rewrite Hz in Hl.
      by rewrite lookup_empty in Hl.
    + intros other Hne. by rewrite lookup_delete_ne.
  - intros command. unfold AddAlias.
    destruct (alias_count am >=? maxCount am); [done|].
    destruct (Contains alias " " || Contains alias "."); [done|].
    destruct (aliases am !! alias) eqn:Hl; [done|]. intros _.
    unfold RemoveAlias. cbn. rewrite lookup_insert_eq.
    rewrite delete_insert_eq, delete_id by done. by destruct am.
Qed.

Lemma RemoveAlias_effect_witness :
  RemoveAlias (NewAliasManager 5) "ll" = (Some (ErrAliasNotFound "ll"), NewAliasManager 5) ∧
  RemoveAlias (AddAlias (NewAliasManager 5) "ll" "Files.List").2 "ll"
    = (None, NewAliasManager 5).
Proof.
  pose proof (RemoveAlias_effect (NewAliasManager 5) "ll") as (Hmiss & _ & Hround).
  split; [apply Hmiss; reflexivity | apply Hround; reflexivity].
Defined.

(** ** Saving and loading the alias table *)

Lemma append_assoc (a b c : string) : (a +:+ b) +:+ c = a +:+ b +:+ c.
Proof.
  induction a as [|x a IH]; [done|]. rewrite !append_String. by rewrite IH.
Qed.

Lemma plain_String b r :
  plain (String b r) = true →
  string_of_byte b = String b "" ∧ b ≠ "010"%char ∧ b ≠ "013"%char ∧
  plain r = true.
Proof.
  cbn [plain]. intros [[[Hlt Hlf]%andb_true_iff Hcr]%andb_true_iff Hr]%andb_true_iff.
  split_and!; [|intros ->; by vm_compute in Hlf|intros ->; by vm_compute in Hcr|done].
  unfold string_of_byte. by rewrite Hlt.
Qed.

Lemma plain_app a b : plain a = true → plain b = true → plain (a +:+ b) = true.
Proof.
  intros Ha Hb. induction a as [|x a IH]; [done|]. rewrite append_String.
  cbn [plain] in *. apply andb_true_iff in Ha as [Hx Ha].
  by rewrite Hx, IH.
Qed.

Lemma file_lines_plain w : ∀ rest line,
  plain w = true → file_lines (w +:+ rest) line = file_lines rest (line +:+ w).
Proof.
  induction w as [|b w IH]; intros rest line Hw.
  { rewrite append_empty_l. f_equal. induction line as [|x line IHl]; [done|].
    rewrite append_String. by rewrite <- IHl. }
  apply plain_String in Hw as (Hb & Hlf & Hcr & Hw).
  rewrite append_String. cbn [file_lines].
  rewrite decide_False, decide_True by done.
  rewrite IH by done. rewrite Hb. f_equal. by rewrite append_assoc.
Qed.

Lemma file_lines_record w rest :
  plain w = true →
  file_lines ((w +:+ LF) +:+ rest) "" = w :: file_lines rest "".
Proof.
  intros Hw. rewrite append_assoc, file_lines_plain by done.
  rewrite append_empty_l. unfold LF. rewrite append_String, append_empty_l.
  cbn [file_lines]. by rewrite decide_True.
Qed.

Lemma file_lines_records (lines : list string) :
  Forall (λ w, plain w = true) lines →
  file_lines (foldr String.append "" ((λ w, w +:+ LF) <$> lines)) ""
  = lines ++ [""].
Proof.
  induction 1 as [|w lines Hw _ IH]; [done|].
  cbn [fmap list_fmap foldr]. by rewrite file_lines_record, IH.
Qed.

Lemma record_of_pair name command :
  name ≠ "" → Contains name "=" = false →
  record_of (name +:+ "=" +:+ command) = Some (name, command).
Proof.
  intros Hne Heq. unfold record_of.
  change ("=" +:+ command) with (String "=" command).
  rewrite (Cut_first _ _ _ Heq). by rewrite decide_False.
Qed.

Lemma foldl_store_record_room maxCount records : ∀ m,
  Z.of_nat (size m) + Z.of_nat (length records) ≤ maxCount →
  foldl (store_record maxCount) m records
  = foldl (λ m r, <[r.1 := r.2]> m) m records.
Proof.
  induction records as [|r records IH]; intros m Hm; [done|].
  cbn [foldl]. cbn [length] in Hm. unfold store_record at 2.
  destruct (Z.ltb_spec (Z.of_nat (size m)) maxCount); [|lia].
  apply IH. pose proof (map_size_insert r.1 r.2 m) as Hs.
  destruct (m !! r.1); cbn in Hs; lia.
Qed.

Lemma foldl_insert_within (m : gmap string string) records : ∀ m0,
  m0 ⊆ m → Forall (λ r, m !! r.1 = Some r.2) records →
  foldl (λ m r, <[r.1 := r.2]> m) m0 records ⊆ m ∧
  dom (foldl (λ m r, <[r.1 := r.2]> m) m0 records)
  = dom m0 ∪ list_to_set records.*1.
Proof.
  induction records as [|r records IH]; intros m0 Hsub Hall.
  { split; [done|]. cbn. by rewrite (right_id_L ∅ (∪)). }
  apply Forall_cons in Hall as [Hr Hall]. cbn [foldl].
  destruct (IH (<[r.1 := r.2]> m0)) as [Hs Hd]; [by apply insert_subseteq_l|done|].
  split; [done|]. rewrite Hd, dom_insert_L. cbn.
  by rewrite (comm_L (∪) {[r.1]} (dom m0)), <- (assoc_L (∪)).
Qed.

Lemma range_order_length (m : gmap string string) (order : list string) :
  NoDup order → (∀ k, k ∈ order ↔ is_Some (m !! k)) → length order = size m.
Proof.
  intros Hnd Horder. rewrite <- size_dom. unfold size at 1, set_size. cbn.
  apply Permutation_length, NoDup_Permutation; [done | apply NoDup_elements |].
  intros k. by rewrite elem_of_elements, elem_of_dom.
Qed.

Lemma records_of_lines (m : gmap string string) (order : list string) :
  Forall (λ alias, is_Some (m !! alias) ∧ alias ≠ "" ∧
                   Contains alias "=" = false) order →
  omap record_of ((λ alias, alias +:+ "=" +:+ default "" (m !! alias)) <$> order)
  = (λ k, (k, default "" (m !! k))) <$> order.
Proof.
  induction 1 as [|alias order (_ & Hne & Heq) _ IH]; [done|].
  cbn [fmap list_fmap omap list_omap].
  rewrite record_of_pair by done. by rewrite IH.
Qed.

Lemma table_of_entries (m : gmap string string) (order : list string) :
  (∀ k, k ∈ order ↔ is_Some (m !! k)) →
  table_of ((λ k, (k, default "" (m !! k))) <$> order) = m.
Proof.
  intros Horder. unfold table_of.
  destruct (foldl_insert_within m ((λ k, (k, default "" (m !! k))) <$> order) ∅)
    as [Hsub Hdom].
  { apply map_empty_subseteq. }
  { apply Forall_fmap, Forall_forall. intros k Hk. cbn.
    apply Horder in Hk as [v ->]. done. }
  apply subseteq_dom_eq; [done|]. rewrite Hdom.
  intros k Hk. apply elem_of_dom in Hk. apply Horder in Hk.
  apply elem_of_union_r, elem_of_list_to_set, list_elem_of_fmap.
  exists (k, default "" (m !! k)). split; [done|].
  by apply (list_elem_of_fmap_2 (λ k, (k, default "" (m !! k)))).
Qed.

(** X3: what [SaveAliases] writes, [LoadAliases] reads back.  For a table
    within its capacity whose names are non-empty, free of '=' and, like
    the commands, made of bytes below 0x80 other than line feed and
    carriage return, the save succeeds in whatever order it ranges over
    the table, and loading the written bytes into any manager of the same
    capacity gives exactly this table. *)
Theorem SaveAliases_LoadAliases_round_trip (am : AliasManager)
  (order : list string) :
  alias_range_order am order →
  alias_count am ≤ maxCount am →
  (∀ alias command, aliases am !! alias = Some command →
     alias ≠ "" ∧ Contains alias "=" = false ∧
     plain alias = true ∧ plain command = true) →
  ∃ bytes,
    SaveAliases am order SaveWrites = (None, Some bytes) ∧
    ∀ am0, maxCount am0 = maxCount am →
      LoadAliases am0 (Contents bytes) = (None, am).
Proof.
  intros [Hnd Horder] Hcount Hplain.
  eexists. split; [reflexivity|]. intros am0 Hmax.
  rewrite LoadAliases_records, Hmax.
  set (line := λ alias, alias +:+ "=" +:+ default "" (aliases am !! alias)).
  assert (alias_record am <$> order = (λ w, w +:+ LF) <$> (line <$> order)) as ->.
  { rewrite <- list_fmap_compose. apply list_fmap_ext. intros _ alias _.
    unfold alias_record, line. cbn. by rewrite !append_assoc. }
  unfold file_records. rewrite file_lines_records.
  2:{ apply Forall_fmap, Forall_forall. intros alias Ha. unfold line. cbn.
      apply Horder in Ha as [command Hc]. rewrite Hc. cbn.
      destruct (Hplain _ _ Hc) as (_ & _ & Hpa & Hpc).
      apply plain_app; [done|]. by apply plain_app. }
  rewrite omap_app. change (omap record_of [""]) with (@nil (string * string)).
  rewrite app_nil_r.
  unfold line. rewrite records_of_lines.
  2:{ apply Forall_forall. intros alias Ha. apply Horder in Ha as Hsome.
      destruct Hsome as [command Hc].
      destruct (Hplain _ _ Hc) as (Hne & Heq & _ & _). by rewrite Hc. }
  rewrite foldl_store_record_room.
  - fold (table_of ((λ k, (k, default "" (aliases am !! k))) <$> order)).
    rewrite table_of_entries by done. by destruct am.
  - rewrite map_size_empty, length_fmap.
    rewrite (range_order_length (aliases am)) by done.
    unfold alias_count in Hcount. lia.
Qed.

Lemma map_keys_range_order (am : AliasManager) :
  alias_range_order am (map_to_list (aliases am)).*1.
Proof.
  split; [apply NoDup_fst_map_to_list|]. intros alias.
  rewrite list_elem_of_fmap. split.
  - intros ([k v] & -> & Hkv). apply elem_of_map_to_list in Hkv. by exists v.
  - intros [v Hv]. exists (alias, v). split; [done|]. by apply elem_of_map_to_list.
Qed.

Lemma SaveAliases_LoadAliases_round_trip_witness :
  let am := {| aliases := {[ "ll" := "Files.List --long"; "rm" := "Files.Delete" ]};
               maxCount := 50 |} in
  ∃ bytes,
    SaveAliases am (map_to_list (aliases am)).*1 SaveWrites = (None, Some bytes) ∧
    ∀ am0, maxCount am0 = maxCount am →
      LoadAliases am0 (Contents bytes) = (None, am).
Proof.
  intros am.
  apply (SaveAliases_LoadAliases_round_trip am _ (map_keys_range_order am)).
  - vm_compute. discriminate.
  - assert (map_Forall
              (λ alias command, alias ≠ "" ∧ Contains alias "=" = false ∧
                                plain alias = true ∧ plain command = true)
              (aliases am)) as Hall.
    { apply (bool_decide_unpack _). by vm_compute. }
    intros alias command Hc. exact (Hall alias command Hc).
Defined.

Lemma file_lines_remove_CR bytes : ∀ line,
  file_lines (remove_CR bytes) line = file_lines bytes line.
Proof.
  induction bytes as [|b bytes IH]; intros line; [done|].
  cbn [remove_CR file_lines].
  destruct (decide (b = "013"%char)) as [->|Hcr].
  - rewrite IH. rewrite decide_False by discriminate.
    by rewrite decide_False by (intros H; by apply H).
  - cbn [file_lines]. destruct (decide (b = "010"%char)); [by rewrite IH|].
    rewrite !decide_True by done. apply IH.
Qed.

(** X4: [LoadAliases] skips every carriage return: a file and the same file
    without its carriage returns load the same table, so CRLF line ends,
    but also a carriage return in the middle of a name or a command,
    leave no trace. *)
Theorem LoadAliases_ignores_carriage_returns (am : AliasManager) (bytes : string) :
  LoadAliases am (Contents (remove_CR bytes)) = LoadAliases am (Contents bytes).
Proof.
  rewrite !LoadAliases_records. unfold file_records.
  by rewrite file_lines_remove_CR.
Qed.

(** ** The interpreter's alias command *)

Lemma Contains_list s c :
  Contains s c = true ↔ c ∈ String.list_ascii_of_string s.
Proof.
  induction s as [|b s IH]; cbn.
  { split; [done | by intros ?%elem_of_nil]. }
  rewrite elem_of_cons. destruct (decide (b = c)) as [->|Hne].
  - split; [by left | done].
  - rewrite IH. split; [by right | by intros [->|?]].
Qed.

Lemma TrimSpace_bytes s c :
  c ∈ String.list_ascii_of_string (TrimSpace s) →
  c ∈ String.list_ascii_of_string s.
Proof.
  unfold TrimSpace. rewrite String.list_ascii_of_string_of_list_ascii.
  set (l := String.list_ascii_of_string s). intros Hc.
  destruct (trimRight_is_prefix (trimLeft l)) as [w Hw].
  destruct (strip_is_suffix space1 space2 space3 l) as [u Hu].
  fold (trimLeft l) in Hu. rewrite Hu, Hw.
  apply elem_of_app. right. apply elem_of_app. by left.
Qed.

Lemma TrimSpace_Contains s c :
  Contains s c = false → Contains (TrimSpace s) c = false.
Proof.
  intros Hs. destruct (Contains (TrimSpace s) c) eqn:Ht; [|done].
  apply Contains_list, TrimSpace_bytes, Contains_list in Ht. congruence.
Qed.

Lemma Cut_before sep s before after :
  Cut sep s = Some (before, after) → Contains before sep = false.
Proof.
  revert before. induction s as [|b s IH]; intros before; cbn; [done|].
  destruct (decide (b = sep)) as [->|Hne]; [by intros [= <- _]|].
  destruct (Cut sep s) as [[x y]|]; [|done]. intros [= <- <-]. cbn.
  rewrite decide_False by done. by apply IH.
Qed.

(** What holds of every alias the alias command stores. *)
Lemma define_alias_stores toLower am arg :
  (∀ k, k ∈ tuiReservedKeywords → toLower k = k) →
  ∀ P : string → string → Prop,
    (∀ name command,
       toLower name ∉ tuiReservedKeywords → name ∉ tuiReservedKeywords →
       name ≠ "" → TrimSpace name = name →
       Contains name " " = false → Contains name "." = false →
       Contains name "=" = false →
       command ≠ "" → TrimSpace command = command → P name command) →
    map_Forall P (aliases am) →
    map_Forall P (aliases (define_alias toLower am arg).1.2).
Proof.
  intros Hlower P HP Hall. unfold define_alias, SplitN2.
  destruct (Cut "=" arg) as [[name cmd]|] eqn:Hcut; [|done].
  cbn [lookup list_lookup].
  destruct (decide (TrimSpace name = "")); [done|].
  destruct (decide (TrimSpace cmd = "")); [done|].
  destruct (isReservedKeyword toLower (TrimSpace name)) eqn:Hres; [done|].
  unfold AddAlias.
  destruct (alias_count am >=? maxCount am); [done|].
  destruct (Contains (TrimSpace name) " ") eqn:Hsp; [done|].
  destruct (Contains (TrimSpace name) ".") eqn:Hdot; [done|].
  cbn [orb]. destruct (aliases am !! TrimSpace name) eqn:Hl; [done|].
  cbn. apply map_Forall_insert_2; [|done].
  unfold isReservedKeyword in Hres. apply bool_decide_eq_false in Hres.
  apply HP; try done; try apply TrimSpace_idemp.
  - intros Hin. apply Hres. by rewrite Hlower.
  - apply TrimSpace_Contains. by apply Cut_before in Hcut.
Qed.

(** X5: every alias that a series of [alias <name>=<command>] commands
    stores in a new table has a name that is no reserved keyword of the
    interpreter, in lower case either, that is not empty, carries no
    surrounding white space and holds no space, period or '=', and a
    command that is not empty and carries no surrounding white space.
    ([toLower] stands for Go's [strings.ToLower]; that it leaves the
    keywords, which are lower-case ASCII, as they are is all the second
    item needs.) *)
Theorem alias_command_never_stores_reserved_keyword
  (toLower : string → string) (capacity : Z) (args : list string)
  (name command : string) :
  (∀ k, k ∈ tuiReservedKeywords → toLower k = k) →
  aliases (define_aliases toLower (NewAliasManager capacity) args) !! name
    = Some command →
  (toLower name ∉ tuiReservedKeywords) ∧ (name ∉ tuiReservedKeywords) ∧
  name ≠ "" ∧ TrimSpace name = name ∧
  Contains name " " = false ∧ Contains name "." = false ∧
  Contains name "=" = false ∧
  command ≠ "" ∧ TrimSpace command = command.
Proof.
  intros Hlower.
  set (P := λ name command : string,
         (toLower name ∉ tuiReservedKeywords) ∧ (name ∉ tuiReservedKeywords) ∧
         name ≠ "" ∧ TrimSpace name = name ∧
         Contains name " " = false ∧ Contains name "." = false ∧
         Contains name "=" = false ∧
         command ≠ "" ∧ TrimSpace command = command).
  assert (∀ am, map_Forall P (aliases am) →
            map_Forall P (aliases (define_aliases toLower am args))) as Hrun.
  { unfold define_aliases. induction args as [|arg args IH]; intros am Ham; [done|].
    cbn [foldl]. apply IH. apply define_alias_stores; [done| |done].
    intros. unfold P. by split_and!. }
  intros Hname. apply (Hrun (NewAliasManager capacity)); [|done].
  apply map_Forall_empty.
Qed.

Lemma alias_command_never_stores_reserved_keyword_witness :
  let am := define_aliases ToLower (NewAliasManager 50)
              ["Help=Help.Show"; " ll = Files.List --long "; "a b=x"] in
  aliases am = {[ "ll" := "Files.List --long" ]} ∧
  ("ll" ∉ tuiReservedKeywords) ∧ TrimSpace "ll" = "ll".
Proof.
  intros am. split; [reflexivity|].
  destruct (alias_command_never_stores_reserved_keyword ToLower 50
              ["Help=Help.Show"; " ll = Files.List --long "; "a b=x"]
              "ll" "Files.List --long") as (_ & Hres & _ & Htrim & _).
  - intros k Hk. unfold tuiReservedKeywords in Hk.
    repeat (apply elem_of_cons in Hk as [->|Hk]; [reflexivity|]).
    by apply elem_of_nil in Hk.
  - reflexivity.
  - by split.
Defined.

(** ** More on the command history *)

Lemma Add_cases h command :
  Add h command = h ∨
  (TrimSpace command ≠ "" ∧
   last (entries h) ≠ Some (TrimSpace command) ∧
   currentIndex (Add h command) = len (Add h command) ∧
   savePath (Add h command) = savePath h ∧
   maxEntries (Add h command) = maxEntries h ∧
   entries (Add h command) =
     (if Z.of_nat (length (entries h ++ [TrimSpace command])) >? maxEntries h
      then drop (Z.to_nat (Z.of_nat (length (entries h ++ [TrimSpace command]))
                           - maxEntries h))
             (entries h ++ [TrimSpace command])
      else entries h ++ [TrimSpace command])).
Proof.
  destruct (decide (TrimSpace command = "")) as [Hb|Hb].
  { left. by apply Add_blank. }
  destruct (decide (last (entries h) = Some (TrimSpace command))) as [Hl|Hl].
  { left. by apply Add_repeated. }
  right. split; [done|]. split; [done|]. unfold Add.
  rewrite decide_False by done. rewrite bool_decide_false by done.
  rewrite andb_false_r. done.
Qed.

Lemma Add_stored capacity h command :
  history_inv capacity h ∧ Forall (λ e, e ≠ "") (entries h) →
  history_inv capacity (Add h command) ∧
  Forall (λ e, e ≠ "") (entries (Add h command)).
Proof.
  intros (Hinv & Hne). split; [by apply Add_inv|].
  destruct (Add_cases h command) as [->|(Hb & _ & Hidx & _ & _ & He)]; [done|].
  rewrite He. assert (Forall (λ e, e ≠ "") (entries h ++ [TrimSpace command])).
  { apply Forall_app. split; [done|]. by constructor. }
  case_match; [by apply Forall_drop | done].
Qed.

Lemma Add_wf capacity h command :
  history_wf capacity h → history_wf capacity (Add h command).
Proof.
  intros (Hinv & Hne & Hcur).
  destruct (Add_stored capacity h command) as [Hinv' Hne']; [done|].
  split; [done|]. split; [done|].
  destruct (Add_cases h command) as [->|(Hb & _ & Hidx & _)]; [done|].
  unfold cursor_in_range. rewrite Hidx. unfold len. lia.
Qed.

Lemma foldl_Add_stored capacity lines : ∀ h,
  history_inv capacity h ∧ Forall (λ e, e ≠ "") (entries h) →
  history_inv capacity (foldl Add h lines) ∧
  Forall (λ e, e ≠ "") (entries (foldl Add h lines)).
Proof.
  induction lines as [|l lines IH]; intros h Hh; [done|].
  cbn. by apply IH, Add_stored.
Qed.

Lemma history_inv_fields capacity h h' :
  entries h' = entries h → maxEntries h' = maxEntries h →
  history_inv capacity h → history_inv capacity h'.
Proof.
  unfold history_inv, len. intros -> ->. done.
Qed.

Lemma Previous_wf capacity h :
  history_wf capacity h →
  ∃ s ok h', Previous h = Some (s, ok, h') ∧ history_wf capacity h'.
Proof.
  intros (Hinv & Hne & [Hr Hpos]).
  destruct (decide (0 < currentIndex h)) as [Hlt|Hge].
  - destruct (Previous_in_range h) as [s Hs]; [lia|].
    exists s, true, (set_index h (currentIndex h - 1)). split; [done|].
    split; [by apply (history_inv_fields capacity h)|]. split; [done|].
    unfold cursor_in_range, len in *. cbn. lia.
  - exists "", false, h. split; [|done]. unfold Previous.
    destruct (Z.leb_spec (currentIndex h) 0); [|lia]. by rewrite orb_true_r.
Qed.

Lemma Next_wf capacity h :
  history_wf capacity h →
  ∃ s ok h', Next h = Some (s, ok, h') ∧ history_wf capacity h'.
Proof.
  intros (Hinv & Hne & [Hr Hpos]).
  destruct (decide (len h ≠ 0 ∧ currentIndex h < len h)) as [[Hlen Hlt]|Hge].
  - assert (0 ≤ currentIndex h) as H0.
    { apply Hpos. intros Hnil. unfold len in Hlen. by rewrite Hnil in Hlen. }
    destruct (Next_in_range h) as (s & Hs & _); [lia|].
    exists s, true, (set_index h (currentIndex h + 1)). split; [done|].
    split; [by apply (history_inv_fields capacity h)|]. split; [done|].
    unfold cursor_in_range, len in *. cbn. lia.
  - exists "", false, h. split; [|done]. unfold Next.
    destruct (Z.eqb_spec (len h) 0); [done|].
    destruct (Z.geb_spec (currentIndex h) (len h)); [done|]. lia.
Qed.

Lemma ResetNavigation_wf capacity h :
  history_wf capacity h → history_wf capacity (ResetNavigation h).
Proof.
  intros (Hinv & Hne & _). split; [by apply (history_inv_fields capacity h)|].
  split; [done|]. unfold cursor_in_range, ResetNavigation, len. cbn. lia.
Qed.

Lemma scan_history_lines bytes : ∀ line h,
  add_line (scan_history bytes line h).2 (scan_history bytes line h).1
  = foldl add_line h (file_lines bytes line).
Proof.
  induction bytes as [|b bytes IH]; intros line h; [done|].
  cbn [scan_history file_lines].
  destruct (decide (b = "010"%char)); [by rewrite IH|].
  destruct (decide (b ≠ "013"%char)); by rewrite IH.
Qed.

Lemma add_line_Add h line : add_line h line = Add h line.
Proof.
  unfold add_line. destruct (decide (line = "")) as [->|]; [|done].
  symmetry. by apply Add_blank.
Qed.

Lemma foldl_add_line h lines : foldl add_line h lines = foldl Add h lines.
Proof.
  revert h. induction lines as [|l lines IH]; intros h; [done|].
  cbn. by rewrite add_line_Add, IH.
Qed.

(** What [Load] gives for a file that could be read. *)
Lemma Load_contents h defaultPath bytes :
  savePath h ≠ "" ∨ (∃ path, defaultPath = PathOk path) →
  ∃ path,
    Load h defaultPath (HistoryContents bytes)
    = (None,
       ResetNavigation
         (foldl Add (with_entries (with_savePath h path) [])
            (file_lines bytes ""))).
Proof.
  intros Hpath. unfold Load.
  assert (∃ path,
            (if decide (savePath h = "")
             then match defaultPath with
                  | PathError err => inl err
                  | PathOk path => inr (with_savePath h path)
                  end
             else inr h) = inr (with_savePath h path)) as [path ->].
  { destruct (decide (savePath h = "")) as [He|Hne].
    - destruct Hpath as [?|[path ->]]; [done|]. by exists path.
    - exists (savePath h). by destruct h. }
  exists path.
  pose proof (scan_history_lines bytes "" (with_entries (with_savePath h path) []))
    as Hscan.
  destruct (scan_history bytes "" _) as [line h2]. cbn [fst snd] in Hscan.
  by rewrite Hscan, foldl_add_line.
Qed.

Lemma Load_wf capacity h defaultPath f :
  history_wf capacity h → history_wf capacity (Load h defaultPath f).2.
Proof.
  intros Hwf.
  assert (∀ path, history_wf capacity (with_savePath h path)) as Hpath.
  { intros path. destruct Hwf as (Hinv & Hne & Hcur).
    split; [by apply (history_inv_fields capacity h)|]. done. }
  assert (∀ path bytes,
            history_wf capacity
              (ResetNavigation
                 (foldl Add (with_entries (with_savePath h path) [])
                    (file_lines bytes "")))) as Hread.
  { intros path bytes. destruct Hwf as ((Hmax & Hpos & _) & _ & _).
    destruct (foldl_Add_stored capacity (file_lines bytes "")
                (with_entries (with_savePath h path) [])) as [Hinv' Hne'].
    { split; [|by constructor]. unfold history_inv, len. cbn.
      split_and!; [done | done | lia | | by constructor].
      intros i x y Hx. by destruct i. }
    split; [by eapply history_inv_fields|]. split; [done|].
    unfold cursor_in_range, ResetNavigation, len. cbn. lia. }
  destruct f as [|err|bytes]; unfold Load.
  - destruct (decide (savePath h = "")); [|done]. by destruct defaultPath.
  - destruct (decide (savePath h = "")); [|done]. by destruct defaultPath.
  - destruct (decide (savePath h = "")) as [He|Hne'].
    + destruct defaultPath as [err|path]; [done|].
      destruct (Load_contents h (PathOk path) bytes) as [path' Hl];
        [right; by exists path|].
      unfold Load in Hl. rewrite decide_True in Hl by done. rewrite Hl. apply Hread.
    + destruct (Load_contents h defaultPath bytes) as [path' Hl]; [by left|].
      unfold Load in Hl. rewrite decide_False in Hl by done. rewrite Hl. apply Hread.
Qed.

Lemma Save_wf capacity h fs :
  history_wf capacity h → history_wf capacity (Save h fs).1.2.
Proof.
  intros Hwf.
  assert (∀ path, history_wf capacity (with_savePath h path)) as Hpath.
  { intros path. destruct Hwf as (Hinv & Hne & Hcur).
    split; [by apply (history_inv_fields capacity h)|]. done. }
  unfold Save.
  destruct (decide (savePath h = "")), (user_config_path fs),
    (mkdir_config fs), (mkdir_parent fs), (create_file fs); try done;
    by destruct (written_file _ _).
Qed.

Lemma history_step_wf capacity h op :
  history_wf capacity h →
  ∃ h', history_step h op = Some h' ∧ history_wf capacity h'.
Proof.
  intros Hwf. destruct op; cbn [history_step].
  - eexists. split; [done|]. by apply Add_wf.
  - destruct (Previous_wf capacity h Hwf) as (s & ok & h' & -> & Hwf').
    by exists h'.
  - destruct (Next_wf capacity h Hwf) as (s & ok & h' & -> & Hwf').
    by exists h'.
  - eexists. split; [done|]. by apply ResetNavigation_wf.
  - eexists. split; [done|]. by apply Load_wf.
  - eexists. split; [done|]. by apply Save_wf.
Qed.

Lemma history_run_wf capacity ops : ∀ h,
  history_wf capacity h →
  ∃ h', history_run h ops = Some h' ∧ history_wf capacity h'.
Proof.
  induction ops as [|op ops IH]; intros h Hwf; [by exists h|].
  destruct (history_step_wf capacity h op Hwf) as (h1 & Hstep & Hwf1).
  destruct (IH h1 Hwf1) as (h' & Hrun & Hwf'). exists h'.
  cbn [history_run]. rewrite Hstep. done.
Qed.

Lemma NewCommandHistory_wf capacity h :
  NewCommandHistory capacity = Some h → history_wf capacity h.
Proof.
  intros Hnew. split; [by apply NewCommandHistory_inv|].
  unfold NewCommandHistory in Hnew. destruct (capacity <? 0); [done|].
  injection Hnew as <-. split; [by constructor|].
  unfold cursor_in_range, len. cbn. split; [lia | done].
Qed.

(** X6: on a history made by [NewCommandHistory], no sequence of [Add],
    [Previous], [Next], [ResetNavigation], [Load] and [Save] calls,
    whatever the file system answers, panics on an index out of range;
    after it the history holds at most [maxEntries] entries, no two
    neighbours are equal, every entry is non-empty and trimmed, and the
    cursor lies between -1 and the length (at 0 or above when there are
    entries). *)
Theorem history_calls_never_panic (capacity : Z) (h0 : CommandHistory)
  (ops : list HistoryOp) :
  NewCommandHistory capacity = Some h0 →
  ∃ h, history_run h0 ops = Some h ∧
       len h ≤ capacity ∧
       no_adjacent_dup (entries h) ∧
       Forall (λ e, e ≠ "" ∧ TrimSpace e = e) (entries h) ∧
       -1 ≤ currentIndex h ≤ len h ∧
       (entries h ≠ [] → 0 ≤ currentIndex h).
Proof.
  intros Hnew.
  destruct (history_run_wf capacity ops h0 (NewCommandHistory_wf _ _ Hnew))
    as (h & Hrun & (_ & _ & Hlen & Hdup & Htrim) & Hne & Hr & Hpos).
  exists h. split_and!; try done; try apply Hr.
  rewrite Forall_forall in *. intros e He. split; [by apply Hne | by apply Htrim].
Qed.

Lemma history_calls_never_panic_witness :
  ∃ h, history_run (empty_history 2)
         [HPrevious; HNext; HAdd "ls"; HAdd "pwd"; HAdd "cd /"; HPrevious;
          HPrevious; HPrevious; HNext; HResetNavigation;
          HLoad (PathOk "history.txt") (HistoryContents ("a" +:+ LF +:+ "b"));
          HNext]
       = Some h ∧
       len h ≤ 2 ∧
       no_adjacent_dup (entries h) ∧
       Forall (λ e, e ≠ "" ∧ TrimSpace e = e) (entries h) ∧
       -1 ≤ currentIndex h ≤ len h ∧
       (entries h ≠ [] → 0 ≤ currentIndex h).
Proof.
  apply (history_calls_never_panic 2). reflexivity.
Defined.

Lemma navigate_Previous_entries k : ∀ h (i : nat),
  currentIndex h = Z.of_nat i →
  (k ≤ i ≤ length (entries h))%nat →
  navigate Previous k h
  = Some ((λ e, (e, true)) <$> reverse (take k (drop (i - k) (entries h))),
          set_index h (Z.of_nat (i - k))).
Proof.
  induction k as [|k IH]; intros h i Hi Hk.
  { cbn. rewrite Nat.sub_0_r, <- Hi. by rewrite set_index_current. }
  destruct (lookup_lt_is_Some_2 (entries h) (i - 1)) as [e He]; [lia|].
  assert (Previous h = Some (e, true, set_index h (Z.of_nat (i - 1)))) as HP.
  { unfold Previous, len.
    destruct (Z.eqb_spec (Z.of_nat (length (entries h))) 0); [lia|].
    destruct (Z.leb_spec (currentIndex h) 0); [lia|]. cbn [orb].
    unfold at_index. cbn [currentIndex set_index entries].
    destruct (Z.ltb_spec (currentIndex h - 1) 0); [lia|].
    replace (Z.to_nat (currentIndex h - 1)) with (i - 1)%nat by lia.
    rewrite He. cbn. do 3 f_equal. lia. }
  cbn [navigate]. rewrite HP. cbn.
  rewrite (IH (set_index h (Z.of_nat (i - 1))) (i - 1)%nat); [|done|cbn; lia].
  cbn. rewrite set_index_set_index.
  replace (i - 1 - k)%nat with (i - S k)%nat by lia.
  f_equal. f_equal.
  rewrite (take_S_r _ _ e).
  - by rewrite reverse_snoc.
  - rewrite lookup_drop. by replace (i - S k + k)%nat with (i - 1)%nat by lia.
Qed.

(** X7: from the position past the newest entry, [k] calls of [Previous]
    (for [k] up to the number of entries) all succeed and return the last
    [k] entries, the most recent first, leaving the cursor [k] places
    back; at the oldest entry a further [Previous] returns no entry and
    changes nothing. *)
Theorem Previous_recalls_most_recent_first (h : CommandHistory) (k : nat) :
  currentIndex h = len h →
  (k ≤ length (entries h))%nat →
  navigate Previous k h
  = Some ((λ e, (e, true))
            <$> reverse (drop (length (entries h) - k) (entries h)),
          set_index h (len h - Z.of_nat k)) ∧
  Previous (set_index h 0) = Some ("", false, set_index h 0).
Proof.
  intros Hc Hk. split.
  - rewrite (navigate_Previous_entries k h (length (entries h))); [|done|lia].
    rewrite take_ge by (rewrite length_drop; lia).
    do 3 f_equal. unfold len. lia.
  - unfold Previous. cbn [currentIndex set_index]. by rewrite orb_true_r.
Qed.

Lemma Previous_recalls_most_recent_first_witness :
  let h := {| entries := ["ls"; "cd /"; "pwd"]; maxEntries := 100;
              currentIndex := 3; savePath := "" |} in
  navigate Previous 3 h
  = Some ([("pwd", true); ("cd /", true); ("ls", true)], set_index h 0) ∧
  Previous (set_index h 0) = Some ("", false, set_index h 0).
Proof.
  intros h.
  destruct (Previous_recalls_most_recent_first h 3) as [Hnav Hstop];
    [reflexivity | cbn; lia |].
  split; [exact Hnav | exact Hstop].
Defined.

Lemma Add_entries_congruence h1 h2 command :
  entries h1 = entries h2 → maxEntries h1 = maxEntries h2 →
  entries (Add h1 command) = entries (Add h2 command) ∧
  maxEntries (Add h1 command) = maxEntries (Add h2 command).
Proof.
  intros He Hm. unfold Add, len. rewrite He, Hm.
  destruct (decide (TrimSpace command = "")); [done|].
  by destruct ((0 <? Z.of_nat (length (entries h2)))
               && bool_decide (last (entries h2) = Some (TrimSpace command))).
Qed.

Lemma foldl_Add_entries_congruence lines : ∀ h1 h2,
  entries h1 = entries h2 → maxEntries h1 = maxEntries h2 →
  entries (foldl Add h1 lines) = entries (foldl Add h2 lines).
Proof.
  induction lines as [|l lines IH]; intros h1 h2 He Hm; [done|].
  cbn. destruct (Add_entries_congruence h1 h2 l He Hm). by apply IH.
Qed.

(** X8: [Load] of a readable history file (the save path being set, or the
    default path found) replaces the entries by what
    replaying the lines of the file through [Add] from an empty history
    gives (blank lines and repeated neighbours dropped, lines trimmed, only
    the newest [maxEntries] kept, carriage returns ignored) and puts the
    cursor past the newest entry; what the history held before is gone. *)
Theorem Load_replays_the_file (capacity : Z) (h : CommandHistory)
  (defaultPath : PathResult) (bytes : string) :
  history_wf capacity h →
  savePath h ≠ "" ∨ (∃ path, defaultPath = PathOk path) →
  ∃ h',
    Load h defaultPath (HistoryContents bytes) = (None, h') ∧
    entries h' = entries (foldl Add (empty_history capacity) (file_lines bytes "")) ∧
    currentIndex h' = len h' ∧
    len h' ≤ capacity ∧
    no_adjacent_dup (entries h') ∧
    maxEntries h' = maxEntries h.
Proof.
  intros Hwf Hpath.
  pose proof (Load_wf capacity h defaultPath (HistoryContents bytes) Hwf) as Hwf'.
  destruct (Load_contents h defaultPath bytes Hpath) as [path Hl].
  rewrite Hl in Hwf'. cbn [snd] in Hwf'.
  destruct Hwf' as ((Hmax' & _ & Hlen' & Hdup' & _) & _ & _).
  destruct Hwf as ((Hmax & _) & _).
  eexists. split; [exact Hl|]. split_and!; try done.
  - cbn [entries ResetNavigation set_index].
    by apply foldl_Add_entries_congruence.
  - by rewrite Hmax', Hmax.
Qed.

Lemma Load_replays_the_file_witness :
  let h := {| entries := ["old"]; maxEntries := 2; currentIndex := 0;
              savePath := "" |} in
  ∃ h',
    Load h (PathOk "history.txt")
      (HistoryContents ("ls" +:+ LF +:+ "ls" +:+ LF +:+ " pwd " +:+ LF +:+ "cd /"))
    = (None, h') ∧
    entries h' = ["pwd"; "cd /"] ∧ currentIndex h' = 2.
Proof.
  intros h.
  destruct (Load_replays_the_file 2 h (PathOk "history.txt")
              ("ls" +:+ LF +:+ "ls" +:+ LF +:+ " pwd " +:+ LF +:+ "cd /"))
    as (h' & Hl & He & Hc & _).
  - unfold history_wf, history_inv, cursor_in_range, len. cbn.
    split_and!; try done; try lia; by repeat constructor.
  - right. by exists "history.txt".
  - exists h'. split; [exact Hl|]. split; [exact He|].
    rewrite Hc. unfold len. by rewrite He.
Defined.

Lemma no_adjacent_dup_snoc_inv l x :
  no_adjacent_dup (l ++ [x]) → no_adjacent_dup l ∧ last l ≠ Some x.
Proof.
  intros Hdup. split.
  - intros i a b Ha Hb. apply (Hdup i); by apply lookup_app_l_Some.
  - intros Hl. rewrite last_lookup in Hl.
    assert (length l ≠ 0%nat) as Hlen by (by destruct l).
    apply (Hdup (pred (length l)) x x); [by apply lookup_app_l_Some| |done].
    rewrite lookup_app_r by lia.
    by replace (S (pred (length l)) - length l)%nat with 0%nat by lia.
Qed.

Lemma foldl_Add_stores (capacity : Z) (lines : list string) :
  Z.of_nat (length lines) ≤ capacity →
  no_adjacent_dup lines →
  Forall (λ e, e ≠ "" ∧ TrimSpace e = e) lines →
  entries (foldl Add (empty_history capacity) lines) = lines ∧
  maxEntries (foldl Add (empty_history capacity) lines) = capacity.
Proof.
  induction lines as [|x lines IH] using rev_ind; intros Hlen Hdup Hall; [done|].
  rewrite length_app in Hlen. cbn in Hlen.
  apply Forall_app in Hall as [Hall Hx]. apply Forall_singleton in Hx as [Hne Htrim].
  apply no_adjacent_dup_snoc_inv in Hdup as [Hdup Hlast].
  destruct IH as [He Hm]; [lia|done|done|].
  rewrite foldl_snoc.
  destruct (Add_appended (foldl Add (empty_history capacity) lines) x)
    as [He' Hm']; [by rewrite Htrim | by rewrite He, Htrim |].
  cbn zeta in He'. rewrite Hm', Hm. split; [|done].
  rewrite He', He, Hm, Htrim.
  destruct (Z.gtb_spec (Z.of_nat (length (lines ++ [x]))) capacity); [|done].
  rewrite length_app in *. cbn in *. lia.
Qed.

(** X9: what [Save] writes, [Load] reads back.  For every history reached
    from [NewCommandHistory] whose entries are made of bytes below 0x80
    other than line feed and carriage return, a [Save] that meets no file
    system error keeps the entries, and loading the written bytes into any
    history of the same capacity gives the same entries, with the cursor
    past the newest one. *)
Theorem Save_Load_round_trip (capacity : Z) (h0 h : CommandHistory)
  (ops : list HistoryOp) (path : string) :
  NewCommandHistory capacity = Some h0 →
  history_run h0 ops = Some h →
  Forall (λ e, plain e = true) (entries h) →
  ∃ bytes h1,
    Save h (save_succeeds path) = (None, h1, Some bytes) ∧
    entries h1 = entries h ∧
    ∀ h2 defaultPath,
      maxEntries h2 = maxEntries h →
      savePath h2 ≠ "" ∨ (∃ p, defaultPath = PathOk p) →
      ∃ h3,
        Load h2 defaultPath (HistoryContents bytes) = (None, h3) ∧
        entries h3 = entries h ∧
        currentIndex h3 = len h3.
Proof.
  intros Hnew Hrun Hplain.
  destruct (history_run_wf capacity ops h0 (NewCommandHistory_wf _ _ Hnew))
    as (h' & Hrun' & Hwf).
  rewrite Hrun in Hrun'. injection Hrun' as <-.
  destruct Hwf as ((Hmax & Hpos & Hlen & Hdup & Htrim) & Hne & _).
  exists (foldr String.append "" ((λ e, e +:+ LF) <$> entries h)).
  exists (if decide (savePath h = "") then with_savePath h path else h).
  split_and!.
  - unfold Save, save_succeeds. cbn.
    by destruct (decide (savePath h = "")).
  - by destruct (decide (savePath h = "")).
  - intros h2 defaultPath Hmax2 Hpath.
    destruct (Load_contents h2 defaultPath
                (foldr String.append "" ((λ e, e +:+ LF) <$> entries h)) Hpath)
      as [p Hl].
    eexists. split; [exact Hl|].
    cbn [entries currentIndex ResetNavigation set_index]. split; [|done].
    rewrite file_lines_records by done. rewrite foldl_snoc.
    rewrite <- add_line_Add. unfold add_line. rewrite decide_True by done.
    rewrite (foldl_Add_entries_congruence (entries h) _ (empty_history capacity));
      [|done|cbn; congruence].
    apply foldl_Add_stores; [done | done |].
    rewrite Forall_forall in *. intros e He. split; [by apply Hne | by apply Htrim].
Qed.

Lemma Save_Load_round_trip_witness :
  let ops := [HAdd "ls -l"; HAdd " cd /tmp "; HAdd "ls -l"; HPrevious] in
  ∃ h bytes h1,
    history_run (empty_history 10) ops = Some h ∧
    Save h (save_succeeds "history.txt") = (None, h1, Some bytes) ∧
    ∃ h3,
      Load (empty_history 10) (PathOk "history.txt") (HistoryContents bytes)
      = (None, h3) ∧
      entries h3 = ["ls -l"; "cd /tmp"; "ls -l"] ∧ currentIndex h3 = 3.
Proof.
  intros ops.
  destruct (history_run (empty_history 10) ops) as [h|] eqn:Hrun; [|by vm_compute in Hrun].
  destruct (Save_Load_round_trip 10 (empty_history 10) h ops "history.txt")
    as (bytes & h1 & Hsave & _ & Hload); [reflexivity | exact Hrun | |].
  { vm_compute in Hrun. injection Hrun as <-. by repeat constructor. }
  destruct (Hload (empty_history 10) (PathOk "history.txt")) as (h3 & Hl & He & Hc).
  { vm_compute in Hrun. by injection Hrun as <-. }
  { right. by exists "history.txt". }
  exists h, bytes, h1. split; [done|]. split; [exact Hsave|].
  exists h3. split; [exact Hl|].
  vm_compute in Hrun. injection Hrun as <-.
  split; [exact He|]. rewrite Hc. unfold len. by rewrite He.
Defined.

(** ** The input field *)

Lemma Add_last capacity h command :
  history_inv capacity h → 1 ≤ capacity → TrimSpace command ≠ "" →
  last (entries (Add h command)) = Some (TrimSpace command).
Proof.
  intros (Hmax & _ & Hlen & _) Hcap Hb.
  destruct (decide (last (entries h) = Some (TrimSpace command))) as [Hl|Hl].
  { by rewrite Add_repeated. }
  destruct (Add_appended h command Hb Hl) as [He _]. cbn zeta in He.
  rewrite He. case_match; [|apply last_snoc].
  apply last_drop_snoc. rewrite length_app in *. cbn in *. unfold len in *. lia.
Qed.

(** X10: entering a non-blank line in the input field returns its alias
    expansion (the line as typed when the field has no alias manager) and
    clears the field.  When the history has a capacity of at least one,
    the Up key then shows the line just entered, trimmed, and the Down key
    after it clears the field again and gives back the very state the
    field had after the line was entered.  When the capacity is zero the
    line is not kept: the Up key and the Down key then leave the cleared
    field as it is. *)
Theorem Up_recalls_the_line_just_entered (capacity : Z)
  (i : InputField.EnhancedInputField) :
  history_wf capacity (InputField.history i) →
  TrimSpace (InputField.text i) ≠ "" →
  ∃ i1,
    InputField.ProcessCommand i
      = (match InputField.aliasManager i with
         | Some am => ExpandCommand am (InputField.text i)
         | None => InputField.text i
         end, i1) ∧
    InputField.text i1 = "" ∧
    history_wf capacity (InputField.history i1) ∧
    (1 ≤ capacity →
     ∃ i2, InputField.KeyUp i1 = Some i2 ∧
           InputField.text i2 = TrimSpace (InputField.text i) ∧
           InputField.KeyDown i2 = Some i1) ∧
    (capacity = 0 →
     entries (InputField.history i1) = [] ∧
     InputField.KeyUp i1 = Some i1 ∧ InputField.KeyDown i1 = Some i1).
Proof.
  intros Hwf Hb.
  set (h1 := ResetNavigation (Add (InputField.history i) (InputField.text i))).
  assert (history_wf capacity h1) as Hwf1 by by apply ResetNavigation_wf, Add_wf.
  assert (currentIndex h1 = len h1) as Hidx by done.
  eexists. split_and!.
  - unfold InputField.ProcessCommand. rewrite decide_False by done. cbn.
    by destruct (InputField.aliasManager i).
  - done.
  - done.
  - intros Hcap.
    assert (last (entries h1) = Some (TrimSpace (InputField.text i))) as Hlast.
    { destruct Hwf as (Hinv & _). by apply (Add_last capacity). }
    assert (0 < len h1) as Hlen.
    { unfold len. destruct (entries h1); [done | cbn; lia]. }
    assert (Previous h1
            = Some (TrimSpace (InputField.text i), true,
                    set_index h1 (len h1 - 1))) as HP.
    { unfold Previous. destruct (Z.eqb_spec (len h1) 0); [lia|].
      destruct (Z.leb_spec (currentIndex h1) 0); [lia|]. cbn [orb].
      unfold at_index. cbn [currentIndex set_index entries].
      destruct (Z.ltb_spec (currentIndex h1 - 1) 0); [lia|].
      rewrite last_lookup in Hlast.
      replace (Z.to_nat (currentIndex h1 - 1)) with (pred (length (entries h1)))
        by (unfold len in *; lia).
      rewrite Hlast. cbn [mbind option_bind]. by rewrite Hidx. }
    assert (Next (set_index h1 (len h1 - 1)) = Some ("", true, h1)) as HN.
    { destruct (Next_in_range (set_index h1 (len h1 - 1))) as (s & Hs & Hempty).
      { change (len (set_index h1 (len h1 - 1))) with (len h1).
        cbn [currentIndex set_index]. lia. }
      rewrite Hs, Hempty.
      - rewrite set_index_set_index. cbn [currentIndex set_index].
        replace (len h1 - 1 + 1) with (currentIndex h1) by lia.
        by rewrite set_index_current.
      - change (len (set_index h1 (len h1 - 1))) with (len h1).
        cbn [currentIndex set_index]. lia. }
    eexists. split_and!.
    + unfold InputField.KeyUp. cbn. fold h1. rewrite HP. done.
    + done.
    + unfold InputField.KeyDown. cbn. rewrite HN. done.
  - intros ->.
    assert (entries h1 = []) as Hempty.
    { destruct Hwf1 as ((_ & _ & Hlen & _) & _). unfold len in Hlen.
      destruct (entries h1); [done | cbn in Hlen; lia]. }
    assert (len h1 = 0) as Hlen by (unfold len; by rewrite Hempty).
    split; [done|].
    unfold InputField.KeyUp, InputField.KeyDown, Previous, Next.
    cbn [InputField.history InputField.SetText InputField.with_history].
    fold h1. by rewrite Hlen.
Qed.

Lemma Up_recalls_the_line_just_entered_witness :
  let i := {| InputField.text := " ll /tmp ";
              InputField.history := empty_history 100;
              InputField.aliasManager :=
                Some {| aliases := {[ "ll" := "Files.List" ]}; maxCount := 50 |} |} in
  ∃ i1 i2,
    InputField.ProcessCommand i = ("Files.List /tmp", i1) ∧
    InputField.text i1 = "" ∧
    InputField.KeyUp i1 = Some i2 ∧
    InputField.text i2 = "ll /tmp" ∧
    InputField.KeyDown i2 = Some i1.
Proof.
  intros i.
  destruct (Up_recalls_the_line_just_entered 100 i)
    as (i1 & HP & Htext & _ & Hup & _).
  - apply NewCommandHistory_wf. reflexivity.
  - discriminate.
  - destruct Hup as (i2 & HU & Ht & HD); [lia|].
    exists i1, i2. by split_and!.
Defined.

(** ** More on completion *)

Lemma longest_common_prefix_unique l p q :
  longest_common_prefix l p → longest_common_prefix l q → p = q.
Proof.
  intros [Hp Hpmax] [Hq Hqmax]. apply is_prefix_antisym; [by apply Hqmax | by apply Hpmax].
Qed.

Lemma findCommonPrefix_Permutation l l' :
  l ≡ₚ l' → findCommonPrefix l = findCommonPrefix l'.
Proof.
  intros Hperm. destruct l as [|x l].
  { apply Permutation_nil_l in Hperm. by subst. }
  assert (l' ≠ []) as Hne'.
  { intros ->. by apply Permutation_nil_r in Hperm. }
  apply (longest_common_prefix_unique (x :: l)).
  - by apply findCommonPrefix_longest.
  - destruct (findCommonPrefix_longest l' Hne') as [Hall Hmax]. split.
    + intros s Hs. apply Hall. by rewrite <- Hperm.
    + intros q Hq. apply Hmax. intros s Hs. apply Hq. by rewrite Hperm.
Qed.

(** X11: [findCommonPrefix] does not depend on the order of its list: two
    lists with the same elements give the same prefix.  The result is a
    prefix of every element, and it equals an element of the list exactly
    when that element is a prefix of all the others. *)
Theorem findCommonPrefix_order_independent (l l' : list string) :
  l ≡ₚ l' →
  findCommonPrefix l = findCommonPrefix l' ∧
  (∀ s, s ∈ l → is_prefix (findCommonPrefix l) s) ∧
  (∀ s, s ∈ l → findCommonPrefix l = s ↔ ∀ s', s' ∈ l → is_prefix s s').
Proof.
  intros Hperm. split; [by apply findCommonPrefix_Permutation|].
  assert (∀ s, s ∈ l → longest_common_prefix l (findCommonPrefix l)) as Hlcp.
  { intros s Hs. apply findCommonPrefix_longest. intros ->. by apply elem_of_nil in Hs. }
  split.
  - intros s Hs. by apply (Hlcp s Hs).
  - intros s Hs. destruct (Hlcp s Hs) as [Hall Hmax]. split.
    + intros <-. exact Hall.
    + intros Hpre. apply is_prefix_antisym; [by apply Hall | by apply Hmax].
Qed.

Lemma findCommonPrefix_order_independent_witness :
  findCommonPrefix ["login"; "logout"; "log"]
  = findCommonPrefix ["log"; "logout"; "login"] ∧
  findCommonPrefix ["login"; "logout"; "log"] = "log".
Proof.
  destruct (findCommonPrefix_order_independent
              ["login"; "logout"; "log"] ["log"; "logout"; "login"])
    as (Heq & _ & _).
  - apply (bool_decide_unpack _). by vm_compute.
  - split; [exact Heq | reflexivity].
Defined.

Lemma range_order_Permutation ac o1 o2 :
  range_order ac o1 → range_order ac o2 → o1 ≡ₚ o2.
Proof.
  intros [Hn1 H1] [Hn2 H2]. apply NoDup_Permutation; [done..|].
  intros cmd. by rewrite H1, H2.
Qed.

(** X12: the order in which Go ranges over the [localCommands] map shows
    only in the order of the suggestions: for two orders [Complete]
    returns the same suggestions up to order, the same common prefix, the
    same completer state and asks the handler the same questions. *)
Theorem Complete_independent_of_range_order (ac : AutoCompleter)
  (o1 o2 : list string) (text : string) :
  range_order ac o1 → range_order ac o2 →
  suggestions_of (Complete ac o1 text) ≡ₚ suggestions_of (Complete ac o2 text) ∧
  common_prefix_of (Complete ac o1 text) = common_prefix_of (Complete ac o2 text) ∧
  (Complete ac o1 text).1.2 = (Complete ac o2 text).1.2 ∧
  handler_calls_of (Complete ac o1 text) = handler_calls_of (Complete ac o2 text).
Proof.
  intros Hr1 Hr2. pose proof (range_order_Permutation ac o1 o2 Hr1 Hr2) as Hperm.
  unfold Complete, suggestions_of, common_prefix_of, handler_calls_of.
  destruct (decide (TrimSpace text = "")) as [Hb|Hb].
  { destruct (fallbackHandler ac) as [f|]; [|done].
    destruct (f (TrimSpace text)) as [[s p] e]. cbn. by rewrite Hperm. }
  destruct (Contains (TrimSpace text) "."); cbn [negb]; [done|].
  set (P := λ cmd, HasPrefix cmd (TrimSpace text) = true).
  assert (filter P o1 ≡ₚ filter P o2) as Hf by by rewrite Hperm.
  destruct (filter P o1) as [|x l1] eqn:E1.
  - apply Permutation_nil_l in Hf. rewrite <- Hf. done.
  - destruct (filter P o2) as [|y l2] eqn:E2.
    { by apply Permutation_nil_r in Hf. }
    cbn [length]. replace (0 <? Z.of_nat (S (length l1))) with true
      by (symmetry; apply Z.ltb_lt; lia).
    replace (0 <? Z.of_nat (S (length l2))) with true
      by (symmetry; apply Z.ltb_lt; lia).
    cbn [fst snd]. split_and!; try done. by apply findCommonPrefix_Permutation.
Qed.

Lemma standard_range_order_reverse handler :
  range_order (NewAutoCompleter handler) (reverse standardCommands).
Proof.
  destruct (standard_range_order handler) as [Hnd Hin]. split.
  - by rewrite reverse_Permutation.
  - intros cmd. by rewrite elem_of_reverse.
Qed.

Lemma Complete_independent_of_range_order_witness :
  let ac := NewAutoCompleter None in
  Complete ac standardCommands "lo" = (["login"; "logout"], "log", ac, []) ∧
  Complete ac (reverse standardCommands) "lo" = (["logout"; "login"], "log", ac, []) ∧
  suggestions_of (Complete ac standardCommands "lo")
    ≡ₚ suggestions_of (Complete ac (reverse standardCommands) "lo").
Proof.
  intros ac. split; [reflexivity|]. split; [reflexivity|].
  apply (Complete_independent_of_range_order ac standardCommands
           (reverse standardCommands) "lo").
  - apply standard_range_order.
  - apply standard_range_order_reverse.
Defined.

Lemma no_local_match ac order t :
  range_order ac order →
  (∀ cmd, is_local ac cmd → ¬ is_prefix t cmd) →
  filter (λ cmd, HasPrefix cmd t = true) order = [].
Proof.
  intros Horder Hnone.
  destruct (filter (λ cmd, HasPrefix cmd t = true) order) as [|x l] eqn:E; [done|].
  assert (x ∈ filter (λ cmd, HasPrefix cmd t = true) order) as Hx
    by (rewrite E; by left).
  apply (found_local ac order t x Horder) in Hx as [Hl Hp].
  by destruct (Hnone x Hl).
Qed.

(** What [Complete] does when the local commands do not answer. *)
Lemma Complete_asks_server ac order text :
  range_order ac order →
  TrimSpace text ≠ "" →
  asks_server ac (TrimSpace text) →
  Complete ac order text =
    match fallbackHandler ac with
    | Some handler =>
        match cachedSuggestions ac !! TrimSpace text with
        | Some suggestions =>
            (suggestions, findCommonPrefix suggestions, ac, [])
        | None =>
            let '(suggestions, commonPrefix, err) := handler (TrimSpace text) in
            match err with
            | None =>
                if 0 <? Z.of_nat (length suggestions)
                then (suggestions, commonPrefix,
                      {| localCommands := localCommands ac;
                         fallbackHandler := fallbackHandler ac;
                         cachedSuggestions :=
                           <[TrimSpace text := suggestions]> (cachedSuggestions ac) |},
                      [TrimSpace text])
                else ([], "", ac, [TrimSpace text])
            | Some _ => ([], "", ac, [TrimSpace text])
            end
        end
    | None => ([], "", ac, [])
    end.
Proof.
  intros Horder Ht Hask. unfold Complete. rewrite decide_False by done.
  destruct (Contains (TrimSpace text) ".") eqn:Hdot; cbn [negb]; [done|].
  destruct Hask as [?|Hnone]; [congruence|].
  by rewrite (no_local_match ac order _ Horder Hnone).
Qed.

(** X13: when no local command matches (or the text names a service) and
    the handler answers with suggestions, [Complete] returns the
    handler's suggestions and prefix and stores the suggestions under the
    trimmed text; the next [Complete] of the same text returns them from
    the cache without asking the handler, with the prefix computed by
    [findCommonPrefix] rather than the handler's; after [InvalidateCache]
    the handler is asked again. *)
Theorem Complete_caches_server_suggestions (ac : AutoCompleter)
  (order : list string) (text : string) (handler : Fallback)
  (suggestions : list string) (commonPrefix : string) :
  range_order ac order →
  TrimSpace text ≠ "" →
  asks_server ac (TrimSpace text) →
  fallbackHandler ac = Some handler →
  cachedSuggestions ac !! TrimSpace text = None →
  handler (TrimSpace text) = (suggestions, commonPrefix, None) →
  suggestions ≠ [] →
  ∃ ac',
    Complete ac order text = (suggestions, commonPrefix, ac', [TrimSpace text]) ∧
    localCommands ac' = localCommands ac ∧
    cachedSuggestions ac' !! TrimSpace text = Some suggestions ∧
    (∀ order', range_order ac' order' →
       Complete ac' order' text
       = (suggestions, findCommonPrefix suggestions, ac', [])) ∧
    (∀ order', range_order ac' order' →
       handler_calls_of (Complete (InvalidateCache ac') order' text)
       = [TrimSpace text]).
Proof.
  intros Horder Ht Hask Hh Hmiss Hreply Hne.
  assert ((0 <? Z.of_nat (length suggestions)) = true) as Hlen.
  { apply Z.ltb_lt. destruct suggestions; [done | cbn; lia]. }
  set (ac' := {| localCommands := localCommands ac;
                 fallbackHandler := fallbackHandler ac;
                 cachedSuggestions :=
                   <[TrimSpace text := suggestions]> (cachedSuggestions ac) |}).
  assert (asks_server ac' (TrimSpace text)) as Hask' by done.
  exists ac'. split_and!.
  - rewrite Complete_asks_server by done. rewrite Hh, Hmiss, Hreply, Hlen.
    unfold ac'. by rewrite Hh.
  - done.
  - apply lookup_insert_eq.
  - intros order' Horder'. rewrite Complete_asks_server by done.
    change (fallbackHandler ac') with (fallbackHandler ac). rewrite Hh.
    change (cachedSuggestions ac')
      with (<[TrimSpace text := suggestions]> (cachedSuggestions ac)).
    by rewrite lookup_insert_eq.
  - intros order' Horder'. rewrite Complete_asks_server by done.
    change (fallbackHandler (InvalidateCache ac')) with (fallbackHandler ac).
    rewrite Hh.
    change (cachedSuggestions (InvalidateCache ac'))
      with (∅ : gmap string (list string)).
    rewrite lookup_empty, Hreply, Hlen. done.
Qed.

Lemma Complete_caches_server_suggestions_witness :
  let handler : Fallback := λ _, (["Billing.List"; "Billing.Pay"], "Billing.", None) in
  let ac := NewAutoCompleter (Some handler) in
  ∃ ac',
    Complete ac standardCommands "Billing." =
      (["Billing.List"; "Billing.Pay"], "Billing.", ac', ["Billing."]) ∧
    Complete ac' standardCommands "Billing." =
      (["Billing.List"; "Billing.Pay"], "Billing.", ac', []).
Proof.
  intros handler ac.
  destruct (Complete_caches_server_suggestions ac standardCommands "Billing."
              handler ["Billing.List"; "Billing.Pay"] "Billing.")
    as (ac' & H1 & Hloc & _ & H2 & _).
  - apply standard_range_order.
  - discriminate.
  - by left.
  - reflexivity.
  - reflexivity.
  - reflexivity.
  - discriminate.
  - exists ac'. split; [exact H1|].
    apply (H2 standardCommands).
    destruct (standard_range_order (Some handler)) as [Hnd Hin].
    split; [done|]. intros cmd. unfold is_local in *. rewrite Hloc. apply Hin.
Defined.

(** X14: when no local command matches, [Complete] returns no suggestion
    and the empty prefix if there is no handler, or if the handler fails
    or answers with no suggestion; nothing is stored in the cache then, so
    the handler is asked again the next time. *)
Theorem Complete_does_not_cache_failures (ac : AutoCompleter)
  (order : list string) (text : string) :
  range_order ac order →
  TrimSpace text ≠ "" →
  asks_server ac (TrimSpace text) →
  (fallbackHandler ac = None → Complete ac order text = ([], "", ac, [])) ∧
  (∀ handler suggestions commonPrefix err,
     fallbackHandler ac = Some handler →
     cachedSuggestions ac !! TrimSpace text = None →
     handler (TrimSpace text) = (suggestions, commonPrefix, err) →
     err ≠ None ∨ suggestions = [] →
     Complete ac order text = ([], "", ac, [TrimSpace text])).
Proof.
  intros Horder Ht Hask. split.
  - intros Hh. rewrite Complete_asks_server by done. by rewrite Hh.
  - intros handler suggestions commonPrefix err Hh Hmiss Hreply Hfail.
    rewrite Complete_asks_server by done. rewrite Hh, Hmiss, Hreply.
    destruct err as [e|]; [done|]. destruct Hfail as [Herr|Hs]; [done|].
    by subst.
Qed.

Lemma Complete_does_not_cache_failures_witness :
  let handler : Fallback := λ _, (["stale"], "stale", Some "deadline exceeded") in
  Complete (NewAutoCompleter None) standardCommands "Billing.L"
    = ([], "", NewAutoCompleter None, []) ∧
  Complete (NewAutoCompleter (Some handler)) standardCommands " Billing.L"
    = ([], "", NewAutoCompleter (Some handler), ["Billing.L"]).
Proof.
  intros handler. split.
  - apply (Complete_does_not_cache_failures (NewAutoCompleter None)
             standardCommands "Billing.L");
      [apply standard_range_order | discriminate | by left | reflexivity].
  - destruct (Complete_does_not_cache_failures (NewAutoCompleter (Some handler))
                standardCommands " Billing.L") as [_ H].
    + apply standard_range_order.
    + discriminate.
    + left. reflexivity.
    + apply (H handler ["stale"] "stale" (Some "deadline exceeded"));
        [reflexivity | reflexivity | reflexivity | by left].
Defined.

Lemma Cut_split sep s before after :
  Cut sep s = Some (before, after) → s = before +:+ String sep after.
Proof.
  revert before. induction s as [|b s IH]; intros before; cbn; [done|].
  destruct (decide (b = sep)) as [->|Hne]; [by intros [= <- <-]|].
  destruct (Cut sep s) as [[x y]|]; [|done]. intros [= <- <-].
  rewrite append_String. f_equal. by apply IH.
Qed.

Lemma Contains_Cut s sep :
  Contains s sep = true → ∃ before after, Cut sep s = Some (before, after).
Proof.
  induction s as [|b s IH]; cbn; [done|].
  destruct (decide (b = sep)); [by eexists _, _|].
  intros [x [y ->]]%IH. by eexists _, _.
Qed.

Lemma group_of_segment suggestion :
  Contains (group_of suggestion) "." = false ∧
  (Contains suggestion "." = true →
   ∃ rest, suggestion = group_of suggestion +:+ "." +:+ rest) ∧
  (Contains suggestion "." = false → group_of suggestion = "").
Proof.
  unfold group_of, SplitN2.
  destruct (Contains suggestion ".") eqn:Hdot; [|done].
  destruct (Contains_Cut _ _ Hdot) as (before & after & Hcut). rewrite Hcut. cbn.
  split_and!; [by apply Cut_before in Hcut| |done].
  intros _. exists after. by apply Cut_split in Hcut.
Qed.

Lemma groupSuggestions_snoc l x :
  groupSuggestions (l ++ [x])
  = <[group_of x :=
        default [] (groupSuggestions l !! group_of x) ++ [x]]>
      (groupSuggestions l).
Proof.
  unfold groupSuggestions. rewrite foldl_snoc.
  set (groups := foldl _ ∅ l). cbn zeta.
  destruct (groups !! group_of x) as [members|] eqn:Hg.
  - by rewrite Hg.
  - rewrite lookup_insert_eq. cbn. by rewrite insert_insert_eq.
Qed.

(** X15: [groupSuggestions] splits the suggestions by service: the group
    stored under a key is the list of the suggestions whose text before
    the first '.' is that key, in the order given, and a key without
    suggestions is absent (no group is empty).  The suggestions without a
    '.' form the group of the empty key; every other suggestion is its key,
    a '.' and a rest, and no key holds a '.'. *)
Theorem groupSuggestions_by_service (suggestions : list string) (group : string) :
  groupSuggestions suggestions !! group
  = match filter (λ s, group_of s = group) suggestions with
    | [] => None
    | members => Some members
    end ∧
  (∀ s, Contains (group_of s) "." = false ∧
        (Contains s "." = true → ∃ rest, s = group_of s +:+ "." +:+ rest) ∧
        (Contains s "." = false → group_of s = "")).
Proof.
  split; [|apply group_of_segment].
  induction suggestions as [|x l IH] using rev_ind.
  { cbn. apply lookup_empty. }
  rewrite groupSuggestions_snoc, filter_app.
  destruct (decide (group_of x = group)) as [Hx|Hx].
  - rewrite Hx, lookup_insert_eq, IH.
    rewrite (filter_cons_True _ x []) by done. rewrite filter_nil.
    by destruct (filter (λ s, group_of s = group) l).
  - rewrite lookup_insert_ne by done. rewrite IH.
    rewrite (filter_cons_False _ x []) by done. rewrite filter_nil.
    by rewrite app_nil_r.
Qed.

(** ** More on the client session *)

(** X16: in every state a client can reach from [NewClient], being logged in
    implies being connected, and being connected implies that the server
    information is recorded; a client that is not connected has neither
    connection, stub, server information nor token. *)
Theorem logged_in_only_while_connected (ops : list Op) (c : Client) :
  run NewClient ops = Some c →
  (IsLoggedIn c = true → IsConnected c = true) ∧
  (IsConnected c = true → is_Some (serverInfo c)) ∧
  (IsConnected c = false →
   conn c = None ∧ client c = None ∧ serverInfo c = None ∧ sessionToken c = "").
Proof.
  intros Hrun. assert (session_inv c) as Hinv by (apply reachable_inv; by exists ops).
  unfold session_inv in Hinv. unfold IsLoggedIn, IsConnected.
  destruct (conn c) as [cn|] eqn:Econn.
  - destruct Hinv as [[cl Hcl] Hinfo]. rewrite Hcl. split_and!; try done.
  - destruct Hinv as (Hcl & Htok & Hinfo). rewrite Hcl, Htok, Hinfo.
    split_and!; try done.
Qed.

Lemma logged_in_only_while_connected_witness :
  ∃ c, run NewClient
         (example_session ++
          [OpLogin "bob" "secret"
             (Replied {| login_success := true; SessionToken := "token-1";
                         login_error_message := "";
                         login_user_info := Some {| DisplayName := "Bob" |} |});
           OpConnect "other" 50051 true (Some "no route to host") (Failed "")])
       = Some c ∧
       IsLoggedIn c = false ∧ IsConnected c = false ∧
       (IsLoggedIn c = true → IsConnected c = true).
Proof.
  match goal with |- ∃ c, run NewClient ?ops = _ ∧ _ => set (l := ops) end.
  destruct (run NewClient l) as [c|] eqn:Hrun; [|by vm_compute in Hrun].
  exists c. split; [done|].
  destruct (logged_in_only_while_connected l c Hrun) as (Hlog & _ & _).
  vm_compute in Hrun. injection Hrun as <-.
  split; [reflexivity|]. split; [reflexivity|]. exact Hlog.
Defined.

(** X17: [Connect] on a reachable client never panics and is all or
    nothing.  It returns no error exactly when the dial succeeds and the
    server answers with success; then the client is connected and holds the
    server information built from the call and the answer (the port cut to
    32 bits).  On every failure the client is left disconnected, whatever
    connection it had before, and the status callback, if set, is told
    CONNECTION_ERROR.  In both cases nobody is logged in afterwards and the
    service context is kept. *)
Theorem Connect_all_or_nothing (ops : list Op) (c : Client) (address : string)
  (port : Z) (useTLS : bool) (dialErr : option string)
  (reply : Rpc ConnectResponse) :
  run NewClient ops = Some c →
  ∃ events err c',
    Connect c address port useTLS dialErr reply = (events, Returned err, c') ∧
    sessionToken c' = "" ∧
    lastServiceUsed c' = lastServiceUsed c ∧
    (err = None ↔
       dialErr = None ∧ ∃ resp, reply = Replied resp ∧ connect_success resp = true) ∧
    (err = None →
       IsConnected c' = true ∧
       ∃ resp, reply = Replied resp ∧
         serverInfo c' = Some {| Hostname := ""; Address := address;
                                 Port := int32 port;
                                 ShortName := connect_server_name resp;
                                 Description := ""; TlsEnabled := useTLS;
                                 Version := connect_version resp |}) ∧
    (err ≠ None →
       conn c' = None ∧ client c' = None ∧ serverInfo c' = None ∧
       (onStatusChanged c = true →
        StatusChanged (status CONNECTION_ERROR NOT_LOGGED_IN "" "") ∈ events)).
Proof.
  intros Hrun. assert (session_inv c) as Hinv by (apply reachable_inv; by exists ops).
  unfold Connect.
  set (c1 := match conn c with
             | Some _ => with_session c None None "" None
             | None => c
             end).
  assert (sessionToken c1 = "" ∧ serverInfo c1 = None ∧
          lastServiceUsed c1 = lastServiceUsed c ∧
          onStatusChanged c1 = onStatusChanged c ∧
          conn c1 = None ∧ client c1 = None)
    as (Htok & Hinfo & Hlast & Hcb & Hconn & Hclient).
  { unfold c1, session_inv in *. destruct (conn c) eqn:Econn; [done|].
    by destruct Hinv as (-> & -> & ->). }
  clearbody c1. unfold IsConnected, notify.
  assert (∀ log : list Event,
            onStatusChanged c = true →
            StatusChanged (status CONNECTION_ERROR NOT_LOGGED_IN "" "")
            ∈ log ++ (if onStatusChanged c1
                      then [StatusChanged (status CONNECTION_ERROR NOT_LOGGED_IN "" "")]
                      else [])) as Hnotified.
  { intros log Hon. rewrite Hcb, Hon. apply elem_of_app. right. by left. }
  destruct dialErr as [derr|].
  { eexists _, _, _. split; [reflexivity|]. rewrite Htok, Hlast.
    split_and!; try done.
    - split; [done | by intros [? _]].
    - intros _. split_and!; try done. apply (Hnotified [_; _]). }
  destruct reply as [rerr|resp].
  { eexists _, _, _. split; [reflexivity|]. cbn. rewrite Htok, Hinfo, Hlast.
    split_and!; try done.
    - split; [done | by intros [_ (? & ? & _)]].
    - intros _. split_and!; try done. apply (Hnotified [_; _]). }
  destruct (connect_success resp) eqn:Hs; cbn [negb].
  - eexists _, _, _. split; [reflexivity|]. cbn. rewrite Htok, Hlast.
    split_and!; try done.
    + split; [intros _; split; [done | by exists resp] | done].
    + intros _. split; [done | by exists resp].
  - eexists _, _, _. split; [reflexivity|]. cbn. rewrite Htok, Hinfo, Hlast.
    split_and!; try done.
    + split; [done | intros [_ (r & [= <-] & Hr)]; congruence].
    + intros _. split_and!; try done. apply (Hnotified [_; _]).
Qed.

Lemma Connect_all_or_nothing_witness :
  ∃ events err c',
    Connect example_client "other" 50051 true None
      (Replied {| connect_success := false; connect_server_name := "";
                  connect_version := ""; connect_error_message := "server full" |})
    = (events, Returned err, c') ∧
    err = Some "connect failed: server full" ∧
    conn c' = None ∧ client c' = None ∧ serverInfo c' = None ∧
    sessionToken c' = "" ∧
    StatusChanged (status CONNECTION_ERROR NOT_LOGGED_IN "" "") ∈ events.
Proof.
  destruct (Connect_all_or_nothing example_session example_client "other" 50051
              true None
              (Replied {| connect_success := false; connect_server_name := "";
                          connect_version := "";
                          connect_error_message := "server full" |}) eq_refl)
    as (events & err & c' & HC & Htok & _ & _ & _ & Hfail).
  exists events, err, c'. split; [exact HC|].
  assert (err = Some "connect failed: server full") as Herr.
  { vm_compute in HC. by injection HC as _ <- _. }
  split; [exact Herr|].
  destruct Hfail as (Hconn & Hcl & Hinfo & Hev); [by rewrite Herr|].
  split_and!; try done. by apply Hev.
Defined.

(** X18: on a reachable client that is connected and not logged in,
    [Logout] is refused with "not logged in" and does nothing; after an
    accepted [Login], an accepted [Logout] gives back exactly the client as
    it was before the login, while a transport failure or a refusal of the
    logout is reported and leaves the client logged in. *)
Theorem Login_then_Logout_round_trip (ops : list Op) (c : Client)
  (user password : string) (accepted : LoginResponse) (info : UserInfo)
  (farewell : LogoutResponse) :
  run NewClient ops = Some c →
  IsConnected c = true →
  IsLoggedIn c = false →
  login_success accepted = true →
  login_user_info accepted = Some info →
  SessionToken accepted ≠ "" →
  logout_success farewell = true →
  (∃ events,
     Logout c (Replied farewell) = (events, Returned (Some "not logged in"), c) ∧
     events = []) ∧
  ∃ events1 c1 events2,
    Login c user password (Replied accepted) = (events1, Returned None, c1) ∧
    Logout c1 (Replied farewell) = (events2, Returned None, c) ∧
    (∀ err, ∃ events,
       Logout c1 (Failed err)
       = (events, Returned (Some ("logout request failed: " +:+ err)), c1)) ∧
    (∀ refusal, logout_success refusal = false → ∃ events,
       Logout c1 (Replied refusal)
       = (events,
          Returned (Some ("logout failed: " +:+ logout_error_message refusal)),
          c1)).
Proof.
  intros Hrun Hconn Hout Hacc Hinfo Htoken Hbye.
  assert (session_inv c) as Hinv by (apply reachable_inv; by exists ops).
  unfold session_inv in Hinv. unfold IsConnected, IsLoggedIn in *.
  apply andb_true_iff in Hconn as [Hc1 Hc2].
  apply bool_decide_eq_true in Hc1, Hc2. apply bool_decide_eq_false in Hout.
  assert (sessionToken c = "") as Htok.
  { destruct (decide (sessionToken c = "")); [done | by destruct Hout]. }
  destruct (conn c) as [cn|] eqn:Econn; [|done].
  destruct Hinv as [[cl Ecl] [si Esi]].
  split.
  { exists []. unfold Logout. rewrite Ecl. by rewrite decide_True. }
  unfold Login. rewrite Ecl, Hacc, Hinfo. cbn [negb].
  cbn [onStatusChanged with_token with_session serverInfo]. rewrite Esi.
  assert (with_token (with_token c (SessionToken accepted)) "" = c) as Hback.
  { unfold with_token, with_session. cbn. destruct c. cbn in *. by subst. }
  destruct (onStatusChanged c) eqn:Hcb; eexists _, _, _;
    (split; [reflexivity|]); unfold Logout;
    cbn [client with_token with_session sessionToken onStatusChanged serverInfo];
    rewrite Ecl, Esi, Hcb; rewrite ?decide_False by done; rewrite Hbye; cbn [negb];
    (split_and!;
     [by rewrite Hback
     | intros err; rewrite ?decide_False by done; by eexists
     | intros refusal ->; rewrite ?decide_False by done; by eexists]).
Qed.

Lemma Login_then_Logout_round_trip_witness :
  let accepted := {| login_success := true; SessionToken := "token-1";
                     login_error_message := "";
                     login_user_info := Some {| DisplayName := "Bob" |} |} in
  let farewell := {| logout_success := true; logout_error_message := "" |} in
  ∃ events1 c1 events2,
    Login example_client "bob" "secret" (Replied accepted)
      = (events1, Returned None, c1) ∧
    Logout c1 (Replied farewell) = (events2, Returned None, example_client).
Proof.
  intros accepted farewell.
  destruct (Login_then_Logout_round_trip example_session example_client
              "bob" "secret" accepted {| DisplayName := "Bob" |} farewell)
    as (_ & events1 & c1 & events2 & Hin & Hout & _);
    [reflexivity | reflexivity | reflexivity | reflexivity | reflexivity
    | discriminate | reflexivity |].
  by exists events1, c1, events2.
Defined.

(** X19: [ExecuteCommand] never panics and never touches the connection,
    the token or the server information.  It returns an error only when
    the client is not connected ("not connected to server", nothing logged
    or shown) or the call fails in transport: a command that the server
    reports as failed returns no error, its message goes to the output
    sink with the prefix "Error: ".  The service context changes only on a
    success that names a new context. *)
Theorem ExecuteCommand_reports_only_transport_errors (c : Client)
  (command : string) (reply : Rpc CommandResponse) :
  ∃ events err c',
    ExecuteCommand c command reply = (events, Returned err, c') ∧
    conn c' = conn c ∧ client c' = client c ∧
    sessionToken c' = sessionToken c ∧ serverInfo c' = serverInfo c ∧
    (err = None ↔ is_Some (client c) ∧ ∃ resp, reply = Replied resp) ∧
    (client c = None → err = Some "not connected to server" ∧ events = []) ∧
    (∀ resp, is_Some (client c) → reply = Replied resp →
       lastServiceUsed c' =
         (if command_success resp && negb (bool_decide (NewContext resp = ""))
          then NewContext resp else lastServiceUsed c) ∧
       (onOutputReceived c = true →
        outputs events =
          [if command_success resp then Output resp
           else "Error: " +:+ command_error_message resp])).
Proof.
  unfold ExecuteCommand.
  destruct (client c) as [cl|] eqn:Ecl.
  2:{ eexists _, _, _. split; [reflexivity|]. split_and!; try done.
      split; [done | by intros [[? ?] _]]. }
  destruct reply as [rerr|resp].
  { eexists _, _, _. split; [reflexivity|]. split_and!; try done.
    split; [done | by intros [_ [? ?]]]. }
  assert (∀ (c0 : Client) pre post s,
            onOutputReceived c = true → outputs pre = [] →
            outputs (pre ++ emit c s ++ post ++ notify c0 (command_status_info resp))
            = s :: outputs post) as Hout.
  { intros c0 pre post s Hon Hpre. rewrite !outputs_app, Hpre.
    unfold emit, notify. rewrite Hon.
    destruct (onStatusChanged c0); cbn; by rewrite ?app_nil_r. }
  assert ((None : option string) = None
          ↔ is_Some (Some cl) ∧ ∃ r, Replied resp = Replied r) as Hiff.
  { split; [intros _; split; [done | by eexists] | done]. }
  destruct (command_success resp) eqn:Hs; cbn [negb andb].
  - destruct (decide (NewContext resp ≠ "")) as [Hctx|Hctx].
    + eexists _, _, _. split; [reflexivity|]. split_and!; try done.
      intros r _ [= <-]. rewrite Hs. rewrite bool_decide_false by done.
      split; [done|]. intros Hon.
      by rewrite (Hout _ [_] [_]).
    + eexists _, _, _. split; [reflexivity|]. split_and!; try done.
      intros r _ [= <-]. rewrite Hs.
      assert (NewContext resp = "") as Hc
        by (destruct (decide (NewContext resp = "")); [done | by destruct Hctx]).
      rewrite bool_decide_true by done. split; [done|]. intros Hon.
      by rewrite (Hout c [_] []).
  - eexists _, _, _. split; [reflexivity|]. split_and!; try done.
    intros r _ [= <-]. rewrite Hs. split; [done|]. intros Hon.
    by rewrite (Hout c [_; _] []).
Qed.

(** X20: after [Close] on a reachable client (a second [Close] included)
    the client is neither connected nor logged in, the service context is
    kept, and [Login], [Logout], [ExecuteCommand] and
    [ExecuteStreamingCommand] all return "not connected to server" without
    logging, calling back or changing anything; a keep-alive tick does
    nothing and ends the keep-alive.  [Close] itself returns the error of
    closing the transport, and none when there was no connection. *)
Theorem calls_after_Close_are_refused (ops : list Op) (c : Client)
  (closeErr : option string) :
  run NewClient ops = Some c →
  ∃ c',
    Close c closeErr
    = ([], Returned (if IsConnected c then closeErr else None), c') ∧
    IsConnected c' = false ∧ IsLoggedIn c' = false ∧
    lastServiceUsed c' = lastServiceUsed c ∧
    let refused := ([], Returned (Some "not connected to server"), c') in
    (∀ user password reply, Login c' user password reply = refused) ∧
    (∀ reply, Logout c' reply = refused) ∧
    (∀ command reply, ExecuteCommand c' command reply = refused) ∧
    (∀ command openErr stream,
       ExecuteStreamingCommand c' command openErr stream = refused) ∧
    (∀ reply, KeepAliveTick c' reply = ([], Returned None, c', false)).
Proof.
  intros Hrun.
  assert (session_inv c) as Hinv by (apply reachable_inv; by exists ops).
  unfold session_inv in Hinv. unfold Close.
  destruct (conn c) as [cn|] eqn:Econn.
  - destruct Hinv as [[cl Hcl] _].
    assert (IsConnected c = true) as -> by (unfold IsConnected; by rewrite Econn, Hcl).
    eexists. split; [reflexivity|]. by split_and!.
  - destruct Hinv as (Hcl & Htok & Hsi).
    assert (IsConnected c = false) as -> by (unfold IsConnected; by rewrite Econn).
    eexists. split; [reflexivity|].
    unfold IsConnected, IsLoggedIn, Login, Logout, ExecuteCommand,
      ExecuteStreamingCommand, KeepAliveTick.
    rewrite Econn, Hcl, Htok. by split_and!.
Qed.

Lemma calls_after_Close_are_refused_witness :
  ∃ c', Close example_client (Some "transport is closing")
        = ([], Returned (Some "transport is closing"), c') ∧
        Login c' "bob" "secret" (Failed "unavailable")
        = ([], Returned (Some "not connected to server"), c').
Proof.
  destruct (calls_after_Close_are_refused example_session example_client
              (Some "transport is closing"))
    as (c' & Hclose & _ & _ & _ & Hlogin & _); [reflexivity|].
  exists c'. split; [exact Hclose | apply Hlogin].
Defined.

(** X21: from a reachable state, a call of the client panics in exactly one
    case: [Login] on a connected client when the server reports success
    but sends no user information.  In particular no status callback ever
    dereferences missing server information, and [DiscoverServer] never
    indexes the server list out of range. *)
Theorem only_Login_without_UserInfo_panics (ops : list Op) (c : Client) (op : Op) :
  run NewClient ops = Some c →
  (perform c op).1.2 = Panicked
  ↔ ∃ user password resp,
      op = OpLogin user password (Replied resp) ∧
      IsConnected c = true ∧
      login_success resp = true ∧ login_user_info resp = None.
Proof.
  intros Hrun.
  assert (session_inv c) as Hinv by (apply reachable_inv; by exists ops).
  split.
  - assert (client c = None ∨ (is_Some (conn c) ∧ ∃ si, serverInfo c = Some si))
      as Hsi.
    { unfold session_inv in Hinv. destruct (conn c).
      - right. split; [by eexists | apply Hinv].
      - left. apply Hinv. }
    assert (∀ c0 a p t de r, (Connect c0 a p t de r).1.2 ≠ Panicked) as Hconnect.
    { intros. unfold Connect. repeat case_match; by simplify_eq/=. }
    destruct op; cbn [perform]; intros Hp.
    + done.
    + exfalso. revert Hp. unfold DiscoverServer. cbv zeta.
      set (c1 := match conn c with Some _ => _ | None => _ end).
      assert (∀ s, (let '(events, out, c2) :=
                      Connect c1 (Address s) (Port s) (TlsEnabled s) dialErr reply
                    in (Logged "Starting server discovery..." [] :: events,
                        out, c2)).1.2 ≠ Panicked) as Hto.
      { intros s. pose proof (Hconnect c1 (Address s) (Port s) (TlsEnabled s)
                                dialErr reply) as Hc.
        by destruct (Connect c1 _ _ _ dialErr reply) as [[events out] c2]. }
      destruct selection as [selectedIndex [serr|]];
        destruct (onServerList c1); try done; try apply Hto.
      destruct (_ && _) eqn:Hrange; [|done].
      apply andb_true_iff in Hrange as [Hlo Hhi].
      destruct (knownServers !! Z.to_nat selectedIndex) eqn:Hlookup;
        [apply Hto|].
      apply lookup_ge_None in Hlookup. lia.
    + by destruct (Hconnect c address port useTLS dialErr reply).
    + revert Hp. unfold Login, IsConnected.
      destruct Hsi as [Hcl|[[cn Hcn] [si Hsi]]].
      { by rewrite Hcl. }
      destruct (client c) eqn:Hcl; [|done].
      destruct reply as [err|resp]; [done|].
      destruct (login_success resp) eqn:Hs; cbn [negb]; [|done].
      destruct (login_user_info resp) eqn:Hinfo.
      { cbn [with_token with_session serverInfo onStatusChanged]. rewrite Hsi.
        by destruct (onStatusChanged c). }
      intros _. exists user, password, resp. rewrite Hcn.
      split_and!; try done.
    + exfalso. revert Hp. unfold Logout.
      destruct Hsi as [Hcl|[_ [si Hsi]]]; [by rewrite Hcl|].
      repeat (case_match; simplify_eq/=); done.
    + exfalso. revert Hp. unfold ExecuteCommand.
      repeat case_match; by simplify_eq/=.
    + exfalso. revert Hp. unfold ExecuteStreamingCommand.
      repeat case_match; by simplify_eq/=.
    + done.
    + exfalso. revert Hp. unfold KeepAliveTick.
      destruct Hsi as [Hcl|[_ [si Hsi]]]; [by rewrite Hcl|].
      repeat (case_match; simplify_eq/=); done.
    + exfalso. revert Hp. unfold Close. repeat case_match; by simplify_eq/=.
  - intros (user & password & resp & -> & Hconn & Hs & Hinfo).
    unfold IsConnected in Hconn. apply andb_true_iff in Hconn as [_ Hcl].
    apply bool_decide_eq_true in Hcl.
    cbn [perform]. unfold Login. destruct (client c); [|done].
    by rewrite Hs, Hinfo.
Qed.

Lemma only_Login_without_UserInfo_panics_witness :
  (perform example_client
     (OpLogin "bob" "secret"
        (Replied {| login_success := true; SessionToken := "token-1";
                    login_error_message := "";
                    login_user_info := None |}))).1.2 = Panicked.
Proof.
  apply (only_Login_without_UserInfo_panics example_session example_client);
    [reflexivity|].
  eexists _, _, _. split; [reflexivity|]. split_and!; reflexivity.
Defined.

(** X22: a keep-alive tick on a reachable client never panics and never
    touches the connection, the server information or the service context.
    The keep-alive goes on exactly when the client is connected and logged
    in and the server did not report the session invalid (a transport
    error is only logged).  When the session is reported invalid the token
    is cleared, the client stays connected and the status callback, if set,
    is told SESSION_EXPIRED; in every other case the client is
    unchanged. *)
Theorem KeepAliveTick_expiry (ops : list Op) (c : Client) (reply : Rpc bool) :
  run NewClient ops = Some c →
  ∃ events c' goes_on,
    KeepAliveTick c reply = (events, Returned None, c', goes_on) ∧
    conn c' = conn c ∧ client c' = client c ∧ serverInfo c' = serverInfo c ∧
    lastServiceUsed c' = lastServiceUsed c ∧
    (goes_on = true
     ↔ IsConnected c = true ∧ IsLoggedIn c = true ∧ reply ≠ Replied false) ∧
    (IsLoggedIn c = false ∨ reply ≠ Replied false → c' = c) ∧
    (IsLoggedIn c = true → reply = Replied false →
     IsLoggedIn c' = false ∧ IsConnected c' = true ∧
     ∃ si, serverInfo c = Some si ∧
           events = Logged "Session expired" []
                    :: notify c (status CONNECTED SESSION_EXPIRED (ShortName si) "")).
Proof.
  intros Hrun.
  assert (session_inv c) as Hinv by (apply reachable_inv; by exists ops).
  unfold session_inv in Hinv. unfold KeepAliveTick, IsConnected, IsLoggedIn, notify.
  destruct (conn c) as [cn|] eqn:Hcn.
  - destruct Hinv as [[cl Hcl] [si Hsi]]. rewrite Hcl.
    destruct (decide (sessionToken c ≠ "")) as [Htok|Htok].
    + rewrite (bool_decide_true _ Htok).
      destruct reply as [err|[|]].
      * eexists _, _, _. split; [reflexivity|]. split_and!; try done.
      * eexists _, _, _. split; [reflexivity|]. split_and!; try done.
      * cbn [with_token with_session serverInfo onStatusChanged]. rewrite Hsi.
        destruct (onStatusChanged c) eqn:Hcb.
        -- eexists _, _, _. split; [reflexivity|]. cbn. rewrite Hcn, Hcl.
           split_and!; try done.
           ++ split; [done | by intros (_ & _ & ?)].
           ++ by intros [?|?].
           ++ intros _ _. split_and!; try done. by exists si.
        -- eexists _, _, _. split; [reflexivity|]. cbn. rewrite Hcn, Hcl.
           split_and!; try done.
           ++ split; [done | by intros (_ & _ & ?)].
           ++ by intros [?|?].
           ++ intros _ _. split_and!; try done. by exists si.
    + rewrite (bool_decide_false _ Htok).
      eexists _, _, _. split; [reflexivity|]. split_and!; try done.
      split; [done | by intros (_ & ? & _)].
  - destruct Hinv as (Hcl & Htok & Hsi). rewrite Hcl, Htok.
    eexists _, _, _. split; [reflexivity|]. split_and!; try done.
    split; [done | by intros (? & _ & _)].
Qed.

Lemma KeepAliveTick_expiry_witness :
  ∃ events c', KeepAliveTick example_client (Replied false)
               = (events, Returned None, c', false).
Proof.
  destruct (KeepAliveTick_expiry example_session example_client (Replied false))
    as (events & c' & goes_on & Htick & _ & _ & _ & _ & Hgo & _); [reflexivity|].
  exists events, c'. rewrite Htick. destruct goes_on; [|done].
  by destruct (proj1 Hgo eq_refl) as (_ & _ & ?).
Defined.

Lemma Connect_when_disconnected (c : Client) (address : string) (port : Z)
  (useTLS : bool) (dialErr : option string) (reply : Rpc ConnectResponse) :
  conn c = None → client c = None → sessionToken c = "" → serverInfo c = None →
  ∃ events err c',
    Connect c address port useTLS dialErr reply = (events, Returned err, c') ∧
    sessionToken c' = "" ∧ lastServiceUsed c' = lastServiceUsed c ∧
    (is_Some err → conn c' = None ∧ client c' = None ∧ serverInfo c' = None) ∧
    (err = None →
     ∃ resp, reply = Replied resp ∧
       conn c' = Some (address, port) ∧ client c' = Some (address, port) ∧
       serverInfo c' = Some {| Hostname := ""; Address := address;
                               Port := int32 port;
                               ShortName := connect_server_name resp;
                               Description := ""; TlsEnabled := useTLS;
                               Version := connect_version resp |}).
Proof.
  intros Hconn Hcl Htok Hsi. unfold Connect. rewrite Hconn.
  destruct dialErr as [derr|].
  { eexists _, _, _. split; [reflexivity|]. split_and!; try done. }
  destruct reply as [rerr|resp].
  { eexists _, _, _. split; [reflexivity|]. cbn. rewrite Htok, Hsi.
    split_and!; try done. }
  destruct (connect_success resp) eqn:Hs; cbn [negb].
  - eexists _, _, _. split; [reflexivity|]. cbn. rewrite Htok.
    split_and!; try done.
    intros _. by exists resp.
  - eexists _, _, _. split; [reflexivity|]. cbn. rewrite Htok, Hsi.
    split_and!; try done.
Qed.

(** X23: [DiscoverServer] on a reachable client never panics and always
    drops the connection it finds.  When it returns an error the client is
    disconnected; when it returns none the client is connected to a server
    of the known list, the first one without a selection callback and the
    selected one (with a valid index) otherwise, and holds its address,
    port and TLS flag.  Nobody is logged in afterwards and the service
    context is kept.  An error of the selection callback is returned as it
    is, and an index outside the list gives "no server selection made". *)
Theorem DiscoverServer_reconnects_to_a_known_server (ops : list Op) (c : Client)
  (closeErr : option string) (selection : Z * option string)
  (dialErr : option string) (reply : Rpc ConnectResponse) :
  run NewClient ops = Some c →
  ∃ events err c',
    DiscoverServer c closeErr selection dialErr reply
    = (events, Returned err, c') ∧
    IsLoggedIn c' = false ∧ lastServiceUsed c' = lastServiceUsed c ∧
    (is_Some err → IsConnected c' = false ∧ serverInfo c' = None) ∧
    (err = None →
     ∃ s resp, s ∈ knownServers ∧ reply = Replied resp ∧
       conn c' = Some (Address s, Port s) ∧
       serverInfo c' = Some {| Hostname := ""; Address := Address s;
                               Port := Port s;
                               ShortName := connect_server_name resp;
                               Description := ""; TlsEnabled := TlsEnabled s;
                               Version := connect_version resp |} ∧
       (onServerList c = false → knownServers !! 0%nat = Some s) ∧
       (onServerList c = true →
        knownServers !! Z.to_nat selection.1 = Some s ∧ 0 ≤ selection.1)) ∧
    (onServerList c = true →
     (∀ e, selection.2 = Some e → err = Some e) ∧
     (selection.2 = None →
      ¬ (0 ≤ selection.1 < Z.of_nat (length knownServers)) →
      err = Some "no server selection made")).
Proof.
  intros Hrun.
  assert (session_inv c) as Hinv by (apply reachable_inv; by exists ops).
  unfold DiscoverServer. cbv zeta.
  destruct selection as [selectedIndex serr]. cbn [fst snd].
  set (c1 := match conn c with Some _ => _ | None => _ end).
  assert (conn c1 = None ∧ client c1 = None ∧ sessionToken c1 = "" ∧
          serverInfo c1 = None ∧ lastServiceUsed c1 = lastServiceUsed c ∧
          onServerList c1 = onServerList c)
    as (Hconn & Hcl & Htok & Hsi & Hlast & Hcb).
  { unfold c1, session_inv, Close in *.
    destruct (conn c) eqn:Econn; [done|].
    by destruct Hinv as (-> & -> & ->). }
  clearbody c1.
  assert (IsConnected c1 = false ∧ IsLoggedIn c1 = false) as [Hnc Hnl].
  { unfold IsConnected, IsLoggedIn. by rewrite Hconn, Htok. }
  assert (∀ s, s ∈ knownServers → int32 (Port s) = Port s) as Hport.
  { intros s Hs. unfold knownServers in Hs.
    repeat (apply elem_of_cons in Hs as [->|Hs]; [reflexivity|]).
    by apply elem_of_nil in Hs. }
  match goal with |- ∃ _ _ _, ?b = _ ∧ _ => set (body := b) end.
  assert ((∃ e, body = ([Logged "Starting server discovery..." []],
                        Returned (Some e), c1) ∧
                onServerList c = true ∧
                (serr = Some e ∨
                 (serr = None ∧
                  ¬ (0 ≤ selectedIndex < Z.of_nat (length knownServers)) ∧
                  e = "no server selection made"))) ∨
          (∃ s, s ∈ knownServers ∧
                (onServerList c = false → knownServers !! 0%nat = Some s) ∧
                (onServerList c = true →
                 serr = None ∧
                 knownServers !! Z.to_nat selectedIndex = Some s ∧
                 0 ≤ selectedIndex < Z.of_nat (length knownServers)) ∧
                body = let '(events, out, c2) :=
                         Connect c1 (Address s) (Port s) (TlsEnabled s)
                           dialErr reply
                       in (Logged "Starting server discovery..." [] :: events,
                           out, c2))) as Hbody.
  { unfold body. destruct (onServerList c1) eqn:Hlist.
    - destruct serr as [serr|].
      { left. exists serr. split_and!; try done. by left. }
      destruct (_ && _) eqn:Hrange.
      + apply andb_true_iff in Hrange as [Hlo Hhi].
        destruct (knownServers !! Z.to_nat selectedIndex) as [s|] eqn:Hlookup.
        2:{ apply lookup_ge_None in Hlookup. lia. }
        right. exists s. split_and!; try done.
        * apply list_elem_of_lookup. by exists (Z.to_nat selectedIndex).
        * intros ?. congruence.
        * intros _. split_and!; try done; lia.
      + left. eexists. split_and!; try done. right. split_and!; try done.
        apply andb_false_iff in Hrange. lia.
    - right. eexists. split_and!; [by left | done | intros ?; congruence | done]. }
  clearbody body.
  destruct Hbody as [(e & -> & Hon & He)|(s & Hs & Hfirst & Hsel & ->)].
  - eexists _, _, _. split; [reflexivity|]. rewrite Hlast.
    split_and!; try done. intros _. split.
    + intros e' ->. by destruct He as [[= ->]|[? _]].
    + intros -> Hout. by destruct He as [?|(_ & _ & ->)].
  - destruct (Connect_when_disconnected c1 (Address s) (Port s) (TlsEnabled s)
                dialErr reply Hconn Hcl Htok Hsi)
      as (events & err & c' & -> & Htok' & Hlast' & Hfail & Hok).
    eexists _, err, c'. split; [reflexivity|].
    unfold IsLoggedIn, IsConnected. rewrite Htok', Hlast', Hlast.
    split_and!; try done.
    + intros Herr. destruct (Hfail Herr) as (-> & -> & ->). done.
    + intros Herr. destruct (Hok Herr) as (resp & -> & ? & ? & ?).
      exists s, resp. rewrite (Hport s Hs) in *. split_and!; try done.
      intros Hon. destruct (Hsel Hon) as (_ & ? & ?). split; [done | lia].
    + intros Hon. destruct (Hsel Hon) as (Hnone & _ & Hin). split.
      * intros e. by rewrite Hnone.
      * intros _ Hout. by destruct Hout.
Qed.

Lemma DiscoverServer_reconnects_to_a_known_server_witness :
  ∃ events c',
    DiscoverServer example_client None (1, None) None
      (Replied {| connect_success := true;
                  connect_server_name := "Remote Example";
                  connect_version := "1.0.0"; connect_error_message := "" |})
    = (events, Returned None, c') ∧
    conn c' = Some ("remote-example.com", 50051) ∧ IsLoggedIn c' = false.
Proof.
  destruct (DiscoverServer_reconnects_to_a_known_server example_session
              example_client None (1, None) None
              (Replied {| connect_success := true;
                          connect_server_name := "Remote Example";
                          connect_version := "1.0.0";
                          connect_error_message := "" |}) eq_refl)
    as (events & err & c' & HD & Hout & _ & _ & Hok & _).
  assert (err = None) as -> by (vm_compute in HD; by injection HD as _ <- _).
  exists events, c'. split; [exact HD|]. split; [|exact Hout].
  destruct (Hok eq_refl) as (s & resp & _ & _ & -> & _ & _ & Hsel).
  destruct (Hsel eq_refl) as [Hlookup _]. by injection Hlookup as <-.
Defined.

(** ** Saving and loading the processor's aliases *)

Lemma store_local_line_record line m :
  store_local_line line m =
    match Cut "=" line with
    | Some r => <[r.1 := r.2]> m
    | None => m
    end.
Proof.
  unfold store_local_line, SplitN2.
  destruct (decide (line = "")) as [->|Hline]; [done|].
  by destruct (Cut "=" line) as [[name command]|].
Qed.

Lemma scan_local_aliases_lines buffer : ∀ line m,
  store_local_line (scan_local_aliases buffer line m).1
    (scan_local_aliases buffer line m).2
  = foldl (λ m l, store_local_line l m) m (file_lines buffer line).
Proof.
  induction buffer as [|b rest IH]; intros line m; [done|].
  cbn. destruct (decide (b = "010"%char)); [by rewrite IH|].
  destruct (decide (b ≠ "013"%char)); by rewrite IH.
Qed.

Lemma foldl_store_local_line lines : ∀ m,
  foldl (λ m l, store_local_line l m) m lines
  = foldl (λ m r, <[r.1 := r.2]> m) m (omap (Cut "=") lines).
Proof.
  induction lines as [|l lines IH]; intros m; [done|].
  cbn. rewrite store_local_line_record, IH. by destruct (Cut "=" l).
Qed.

Lemma LoadLocalAliases_records p bytes :
  LoadLocalAliases p (Contents bytes)
  = (None, {| localAliases := table_of (local_file_records bytes) |}).
Proof.
  unfold LoadLocalAliases, local_file_records, table_of.
  pose proof (scan_local_aliases_lines bytes "" ∅) as H.
  destruct (scan_local_aliases bytes "" ∅) as [line m]. cbn in H.
  by rewrite H, foldl_store_local_line.
Qed.

Lemma local_records_of_lines (m : gmap string string) (order : list string) :
  Forall (λ alias, Contains alias "=" = false) order →
  omap (Cut "=") ((λ alias, alias +:+ "=" +:+ default "" (m !! alias)) <$> order)
  = (λ k, (k, default "" (m !! k))) <$> order.
Proof.
  induction 1 as [|alias order Heq _ IH]; [done|].
  cbn [fmap list_fmap omap list_omap].
  change ("=" +:+ default "" (m !! alias)) with (String "=" (default "" (m !! alias))).
  rewrite (Cut_first _ _ _ Heq). by rewrite IH.
Qed.

(** X24: what [SaveLocalAliases] writes, [LoadLocalAliases] reads back.
    For a table whose names are free of '=' and, like the commands, made
    of bytes below 0x80 other than line feed and carriage return (the
    empty name included, and without any bound on the size), the save
    succeeds in whatever order it ranges over the table, and loading the
    written bytes into any processor replaces its table by exactly this
    one. *)
Theorem SaveLocalAliases_LoadLocalAliases_round_trip (p : CommandProcessor)
  (order : list string) :
  local_range_order p order →
  (∀ alias command, localAliases p !! alias = Some command →
     Contains alias "=" = false ∧ plain alias = true ∧ plain command = true) →
  ∃ bytes,
    SaveLocalAliases p order SaveWrites = (None, Some bytes) ∧
    ∀ p0, LoadLocalAliases p0 (Contents bytes) = (None, p).
Proof.
  intros [Hnd Horder] Hplain.
  eexists. split; [reflexivity|]. intros p0.
  rewrite LoadLocalAliases_records.
  set (line := λ alias, alias +:+ "=" +:+ default "" (localAliases p !! alias)).
  assert (local_alias_record p <$> order = (λ w, w +:+ LF) <$> (line <$> order))
    as ->.
  { rewrite <- list_fmap_compose. apply list_fmap_ext. intros _ alias _.
    unfold local_alias_record, line. cbn. by rewrite !append_assoc. }
  unfold local_file_records. rewrite file_lines_records.
  2:{ apply Forall_fmap, Forall_forall. intros alias Ha. unfold line. cbn.
      apply Horder in Ha as [command Hc]. rewrite Hc. cbn.
      destruct (Hplain _ _ Hc) as (_ & Hpa & Hpc).
      apply plain_app; [done|]. by apply plain_app. }
  rewrite omap_app. change (omap (Cut "="%char) [""]) with (@nil (string * string)).
  rewrite app_nil_r.
  unfold line. rewrite local_records_of_lines.
  2:{ apply Forall_forall. intros alias Ha. apply Horder in Ha as [command Hc].
      by destruct (Hplain _ _ Hc) as (Heq & _ & _). }
  rewrite table_of_entries by done. by destruct p.
Qed.

Lemma SaveLocalAliases_LoadLocalAliases_round_trip_witness :
  let p := AddLocalAlias (AddLocalAlias NewCommandProcessor "" "Files.List")
             "ll" "Files.List --long" in
  ∃ bytes,
    SaveLocalAliases p (map_to_list (localAliases p)).*1 SaveWrites
    = (None, Some bytes) ∧
    LoadLocalAliases NewCommandProcessor (Contents bytes) = (None, p).
Proof.
  intros p.
  destruct (SaveLocalAliases_LoadLocalAliases_round_trip p
              (map_to_list (localAliases p)).*1) as (bytes & Hsave & Hload).
  - apply (map_keys_range_order {| aliases := localAliases p; maxCount := 0 |}).
  - assert (map_Forall (λ alias command,
              Contains alias "=" = false ∧ plain alias = true ∧
              plain command = true) (localAliases p)) as Hall.
    { apply (bool_decide_unpack _). by vm_compute. }
    intros alias command Hc. exact (Hall alias command Hc).
  - exists bytes. split; [exact Hsave | apply Hload].
Defined.

Lemma records_with_names lines :
  Forall (λ r : string * string, r.1 ≠ "") (omap (Cut "=") lines) →
  omap record_of lines = omap (Cut "=") lines.
Proof.
  induction lines as [|l lines IH]; [done|]. cbn [omap list_omap].
  unfold record_of at 1.
  destruct (Cut "=" l) as [[name command]|]; [|done].
  intros [Hname Hrest]%Forall_cons. cbn in Hname.
  rewrite decide_False by done. by rewrite IH.
Qed.

Lemma append_empty_r (s : string) : s +:+ "" = s.
Proof. induction s as [|c s IH]; [done|]. by rewrite append_String, IH. Qed.

(** X25: [LoadLocalAliases] of a readable file replaces the table by the
    records of the file, every line with a '=' cut at the first one, later
    records overwriting earlier ones.  On a file whose records all have a
    non-empty name and are not more than [maxCount], [LoadAliases] of the
    alias manager loads the same table; on a line that starts with '=' the
    two differ: the processor stores the command under the empty name, the
    alias manager skips the line. *)
Theorem LoadLocalAliases_agrees_with_LoadAliases (p : CommandProcessor)
  (am : AliasManager) (bytes : string) :
  LoadLocalAliases p (Contents bytes)
  = (None, {| localAliases := table_of (local_file_records bytes) |}) ∧
  (Forall (λ r, r.1 ≠ "") (local_file_records bytes) →
   Z.of_nat (length (local_file_records bytes)) ≤ maxCount am →
   aliases (LoadAliases am (Contents bytes)).2
   = localAliases (LoadLocalAliases p (Contents bytes)).2) ∧
  (∀ command, plain command = true →
     localAliases (LoadLocalAliases p (Contents ("=" +:+ command))).2
     = {[ "" := command ]} ∧
     aliases (LoadAliases am (Contents ("=" +:+ command))).2 = ∅).
Proof.
  split_and!.
  - apply LoadLocalAliases_records.
  - intros Hnames Hroom.
    rewrite LoadLocalAliases_records, LoadAliases_records. cbn [snd aliases localAliases].
    unfold file_records, local_file_records in *.
    rewrite records_with_names by done.
    apply foldl_store_record_room. rewrite map_size_empty. lia.
  - intros command Hplain.
    assert (file_lines ("=" +:+ command) "" = ["=" +:+ command]) as Hlines.
    { rewrite <- (append_empty_r ("=" +:+ command)) at 1.
      rewrite file_lines_plain; [by rewrite append_empty_l|].
      by apply (plain_app "="). }
    rewrite LoadLocalAliases_records, LoadAliases_records.
    unfold file_records, local_file_records. rewrite Hlines.
    change ("=" +:+ command) with (String "=" command).
    split; [|done]. cbn. rewrite decide_True by done. cbn. by rewrite insert_empty.
Qed.

Lemma LoadLocalAliases_agrees_with_LoadAliases_witness :
  let bytes := "ll=Files.List --long" +:+ LF +:+ "rm=Files.Delete" +:+ LF in
  aliases (LoadAliases (NewAliasManager 50) (Contents bytes)).2
  = localAliases (LoadLocalAliases NewCommandProcessor (Contents bytes)).2.
Proof.
  intros bytes.
  destruct (LoadLocalAliases_agrees_with_LoadAliases NewCommandProcessor
              (NewAliasManager 50) bytes) as (_ & Hagree & _).
  apply Hagree.
  - apply (bool_decide_unpack _). by vm_compute.
  - by vm_compute.
Defined.
